(** * drone-scheduler: the request queue and the Zip dispatch engine

    A shallow embedding of [PriorityQueue.ts] (the binary heap of pending
    orders) and of [FlightScheduler.ts] (class [ZipScheduler]: admission,
    release, route planning and dispatch), with the properties the
    specification states about them.  Around these two, the simulation
    loop of [Runner.ts], the battery estimate of [Flight.ts], and the
    queueing and planning methods of the first scheduler kept in
    [traveling_zip.ts] are embedded too, with properties read off the
    code.  Reading CSV files, rendering strings, and the methods that rely
    on [Array.prototype.sort] are not modelled.

    Numbers.  JavaScript numbers that hold counts and indices are [nat].
    The fleet size, the arrival time of an order and the offsets of a
    hospital, integers in the input files and in the tests, are [Z].
    Distances, ranges, speeds and clock values are real numbers:
    [Math.sqrt] is [sqrt] on [R], and the [Infinity] that starts a
    nearest-neighbour search is the [None] of an option.  The rounding of
    IEEE doubles, [NaN], and the infinite return time of a Zip of speed 0
    are outside this model.

    Loops.  Every [while] loop is a function that recurses on a fuel
    argument; each is started with an amount of fuel that the loop cannot
    use up, and its [_fuel] lemma shows that more fuel gives the same
    result.

    Logging.  [logger.error] calls are kept as a trace of [LogEvent]s; the
    [info] and [verbose] calls carry no state and are left out. *)

From Stdlib Require Import ZArith Reals Lra Lia Permutation Sorted.
From stdpp Require Import base list strings relations.

Local Open Scope nat_scope.

(** ** Data model (Hospital.ts, Order.ts, PriorityQueue.ts) *)

Record Hospital := mkHospital {
  name : string;
  northM : Z;
  eastM : Z
}.

Inductive Priority := Emergency | Resupply.

(** [id] is the field that PriorityQueue.ts and FlightScheduler.ts read
    and that the tests supply. *)
Record Order := mkOrder {
  id : string;
  hospital : Hospital;
  priority : Priority;
  time : Z
}.

#[global] Instance Priority_eq_dec : EqDecision Priority.
Proof. solve_decision. Defined.
#[global] Instance Hospital_eq_dec : EqDecision Hospital.
Proof. solve_decision. Defined.
#[global] Instance Order_eq_dec : EqDecision Order.
Proof. solve_decision. Defined.

(** [priorityOrder.indexOf(p)] for [priorityOrder = ["Emergency", "Resupply"]]. *)
Definition priorityIndex (p : Priority) : Z :=
  match p with Emergency => 0 | Resupply => 1 end.

Module PriorityQueue.

(** The private [heap] array.  A [PriorityQueueElement] is a record with
    the single field [order]; the wrapper is dropped here. *)
Abbreviation t := (list Order).

Definition empty : t := [].

(** [compare(a, b)]: negative when [a] is to be served before [b]. *)
Definition compare (a b : Order) : Z :=
  let priorityDiff := (priorityIndex (priority a) - priorityIndex (priority b))%Z in
  if (priorityDiff =? 0)%Z then (time a - time b)%Z else priorityDiff.

(** [swap(i, j)].  Both indices are inside the array at every call site;
    outside it the array is left alone. *)
Definition swap (i j : nat) (heap : t) : t :=
  match heap !! i, heap !! j with
  | Some x, Some y => <[j := x]> (<[i := y]> heap)
  | _, _ => heap
  end.

(** [compare(heap[i].order, heap[j].order) < 0].  Both indices are
    inside the array at every call site; outside it, where the source
    throws on reading [.order] of a missing slot, the answer here is
    [false], and no statement below is about that case. *)
Definition precedes (heap : t) (i j : nat) : bool :=
  match heap !! i, heap !! j with
  | Some a, Some b => (compare a b <? 0)%Z
  | _, _ => false
  end.

(** The [while (index > 0)] loop of [bubbleUp].  Each turn replaces
    [index] by its parent, so [index] turns are enough; the loop leaves
    through its guard or through [break]. *)
Fixpoint bubbleUp_loop (fuel : nat) (heap : t) (index : nat) : t :=
  match fuel with
  | O => heap
  | S fuel' =>
      if 0 <? index then
        let parentIndex := (index - 1) / 2 in
        if precedes heap index parentIndex
        then bubbleUp_loop fuel' (swap index parentIndex heap) parentIndex
        else heap
      else heap
  end.

Definition bubbleUp (heap : t) (index : nat) : t :=
  bubbleUp_loop index heap index.

(** The [while (true)] loop of [bubbleDown].  Each turn moves [index] to
    one of its children, which lies inside the array, so
    [length heap - index] turns are enough. *)
Fixpoint bubbleDown_loop (fuel : nat) (heap : t) (index : nat) : t :=
  match fuel with
  | O => heap
  | S fuel' =>
      let length := length heap in
      let smallest := index in
      let left := 2 * index + 1 in
      let right := 2 * index + 2 in
      let smallest :=
        if (left <? length) && precedes heap left smallest then left else smallest in
      let smallest :=
        if (right <? length) && precedes heap right smallest then right else smallest in
      if smallest =? index then heap
      else bubbleDown_loop fuel' (swap index smallest heap) smallest
  end.

Definition bubbleDown (heap : t) (index : nat) : t :=
  bubbleDown_loop (length heap - index) heap index.

(** [Array.prototype.pop]: the last element, if any, and the shortened array. *)
Definition pop (heap : t) : option Order * t :=
  (last heap, take (length heap - 1) heap).

Definition enqueue (heap : t) (order : Order) : t :=
  let heap := heap ++ [order] in
  bubbleUp heap (length heap - 1).

Definition dequeue (heap : t) : option Order * t :=
  match heap with
  | [] => (None, heap)
  | [only] => (Some only, [])
  | top :: _ =>
      match pop heap with
      | (Some moved, heap') => (Some top, bubbleDown (<[0 := moved]> heap') 0)
      | (None, heap') => (Some top, heap')
      end
  end.

(** [heap.findIndex(element => element.order.id === id)] *)
Definition findIndex (id0 : string) (heap : t) : option nat :=
  fst <$> list_find (fun o => id o = id0) heap.

Definition dequeueById (heap : t) (id0 : string) : option Order * t :=
  match findIndex id0 heap with
  | None => (None, heap)
  | Some index =>
      let order := heap !! index in
      if decide (index <> length heap - 1) then
        match pop heap with
        | (Some moved, heap') =>
            (order, bubbleUp (bubbleDown (<[index := moved]> heap') index) index)
        | (None, heap') => (order, heap')
        end
      else (order, snd (pop heap))
  end.

Definition peek (heap : t) : option Order := heap !! 0.
Definition isEmpty (heap : t) : bool := length heap =? 0.
Definition size (heap : t) : nat := length heap.
(** [heap.map(element => element.order)]: a new array with the same orders. *)
Definition toArray (heap : t) : list Order := (fun o => o) <$> heap.

(** [while (q.dequeue() !== null)]: the orders in the sequence in which
    repeated [dequeue] hands them out. *)
Fixpoint drain_loop (fuel : nat) (heap : t) : list Order :=
  match fuel with
  | O => []
  | S fuel' =>
      match dequeue heap with
      | (Some o, heap') => o :: drain_loop fuel' heap'
      | (None, _) => []
      end
  end.

Definition drain (heap : t) : list Order := drain_loop (length heap) heap.

Definition enqueueAll (orders : list Order) : t := foldl enqueue empty orders.

End PriorityQueue.

Module PQ := PriorityQueue.

(** ** The heap invariant *)

(** [a] is served no later than [b]. *)
Definition servedBefore (a b : Order) : Prop := (PQ.compare a b <= 0)%Z.

(** The element at [i] is served no earlier than the one at its parent. *)
Definition edgeOk (heap : PQ.t) (i : nat) : Prop :=
  forall x p, heap !! i = Some x -> heap !! ((i - 1) / 2) = Some p -> servedBefore p x.

Definition heapOrdered (heap : PQ.t) : Prop :=
  forall i, 0 < i -> edgeOk heap i.

(** The children of [j] are served no earlier than the parent of [j]. *)
Definition grandsOk (heap : PQ.t) (j : nat) : Prop :=
  0 < j -> forall c x p, (c - 1) / 2 = j -> 0 < c ->
    heap !! c = Some x -> heap !! ((j - 1) / 2) = Some p -> servedBefore p x.

(** Ordered except, possibly, between [j] and its parent. *)
Definition upInv (heap : PQ.t) (j : nat) : Prop :=
  (forall i, 0 < i -> i <> j -> edgeOk heap i) /\ grandsOk heap j.

(** Ordered except, possibly, between [j] and its children. *)
Definition downInv (heap : PQ.t) (j : nat) : Prop :=
  (forall i, 0 < i -> (i - 1) / 2 <> j -> edgeOk heap i) /\ grandsOk heap j.

(** The child chosen by one turn of [bubbleDown]. *)
Definition smallestOf (heap : PQ.t) (index : nat) : nat :=
  let left := 2 * index + 1 in
  let right := 2 * index + 2 in
  let smallest := index in
  let smallest :=
    if (left <? length heap) && PQ.precedes heap left smallest then left else smallest in
  if (right <? length heap) && PQ.precedes heap right smallest then right else smallest.

(** ** The dispatch engine (FlightScheduler.ts, Flight.ts) *)

Local Open Scope R_scope.

#[global] Instance Rlt_decision (x y : R) : Decision (x < y) := Rlt_dec x y.
#[global] Instance Rle_decision (x y : R) : Decision (x <= y) := Rle_dec x y.
#[global] Instance Rgt_decision (x y : R) : Decision (x > y) := Rgt_dec x y.

(** An object with the two fields [northM] and [eastM]: the Nest literal
    [{ northM: 0, eastM: 0 }] or a hospital. *)
Record Location := mkLocation {
  locNorthM : Z;
  locEastM : Z
}.

Definition Nest : Location := mkLocation 0 0.

Definition locationOf (h : Hospital) : Location :=
  mkLocation (northM h) (eastM h).

(** Flight.ts reads its own copy of the range constant. *)
Definition ZIP_MAX_CUMULATIVE_RANGE_M : R := 160 * 1000.

(** The rendered [flightPath] string of the class is not modelled. *)
Record Flight := mkFlight {
  launchTime : R;
  orders : list Order;
  totalDistance : R;
  estimatedReturnBatteryPercentage : R
}.

(** [new Flight(launchTime, orders, totalDistance)] *)
Definition newFlight (launchTime : R) (orders : list Order) (totalDistance : R) : Flight :=
  mkFlight launchTime orders totalDistance
           (100 - (totalDistance / ZIP_MAX_CUMULATIVE_RANGE_M) * 100).

Record ActiveFlight := mkActiveFlight {
  returnTime : R;
  flight : Flight
}.

(** The [logger.error] calls of the scheduler. *)
Inductive LogEvent :=
| OrderExceedsMaximumRange (order : Order) (distance : R)
| SkippingEmergencyFlight (availableZips : Z)
| FailedToDequeueOrder (orderId : string).

(** Reserve this many Zips for emergencies. *)
Definition RESERVED_EMERGENCY_ZIPS : Z := 4.

(** The fields of [ZipScheduler]; the [hospitals] registry is never read
    by the methods below and is left out. *)
Record ZipScheduler := mkZipScheduler {
  numZips : Z;
  maxPackagesPerZip : nat;
  zipSpeedMps : R;
  zipMaxCumulativeRangeM : R;
  completeOrderCount : nat;
  _unfulfilledOrders : PriorityQueue.t;
  activeFlights : list ActiveFlight
}.

(** The constructor. *)
Definition newZipScheduler (numZips : Z) (maxPackagesPerZip : nat)
    (zipSpeedMps zipMaxCumulativeRangeM : R) : ZipScheduler :=
  mkZipScheduler numZips maxPackagesPerZip zipSpeedMps zipMaxCumulativeRangeM
                 0 PriorityQueue.empty [].

Definition set_unfulfilledOrders (s : ZipScheduler) (q : PriorityQueue.t) : ZipScheduler :=
  mkZipScheduler (numZips s) (maxPackagesPerZip s) (zipSpeedMps s)
                 (zipMaxCumulativeRangeM s) (completeOrderCount s) q (activeFlights s).

Definition set_activeFlights (s : ZipScheduler) (completed : nat)
    (a : list ActiveFlight) : ZipScheduler :=
  mkZipScheduler (numZips s) (maxPackagesPerZip s) (zipSpeedMps s)
                 (zipMaxCumulativeRangeM s) completed (_unfulfilledOrders s) a.

Definition unfulfilledOrdersCount (s : ZipScheduler) : nat :=
  PriorityQueue.size (_unfulfilledOrders s).

Definition getUnfulfilledOrders (s : ZipScheduler) : list Order :=
  PriorityQueue.toArray (_unfulfilledOrders s).

Definition activeFlightsCount (s : ZipScheduler) : nat := length (activeFlights s).

Definition calculateDistance (pointA pointB : Location) : R :=
  let deltaX := IZR (locNorthM pointB) - IZR (locNorthM pointA) in
  let deltaY := IZR (locEastM pointB) - IZR (locEastM pointA) in
  sqrt (deltaX ^ 2 + deltaY ^ 2).

Definition queueOrder (s : ZipScheduler) (order : Order) : ZipScheduler * list LogEvent :=
  let distance := 2 * calculateDistance Nest (locationOf (hospital order)) in
  if decide (distance > zipMaxCumulativeRangeM s)
  then (s, [OrderExceedsMaximumRange order distance])
  else (set_unfulfilledOrders s (PriorityQueue.enqueue (_unfulfilledOrders s) order), []).

Definition countByPriority (s : ZipScheduler) (p : Priority) : nat :=
  let orders := PriorityQueue.toArray (_unfulfilledOrders s) in
  length (filter (fun o => priority o = p) orders).

(** The [filter] callback of [releaseReturningZips], which also adds the
    stops of every returned flight to [completeOrderCount]. *)
Fixpoint releaseFilter (currentTime : R) (entries : list ActiveFlight)
    (completed : nat) : list ActiveFlight * nat :=
  match entries with
  | [] => ([], completed)
  | flightEntry :: rest =>
      if decide (returnTime flightEntry <= currentTime)
      then releaseFilter currentTime rest
             (completed + length (orders (flight flightEntry)))%nat
      else let '(kept, completed') := releaseFilter currentTime rest completed in
           (flightEntry :: kept, completed')
  end.

Definition releaseReturningZips (s : ZipScheduler) (currentTime : R) : ZipScheduler :=
  let '(kept, completed) :=
    releaseFilter currentTime (activeFlights s) (completeOrderCount s) in
  set_activeFlights s completed kept.

Definition calculateReturnTime (s : ZipScheduler) (launchTime totalDistance : R) : R :=
  launchTime + totalDistance / zipSpeedMps s.

(** [availableOrders.indexOf(order)]; [None] stands for [-1].  Orders are
    compared field by field: the scan below keeps the first order of its
    pool at the least distance, and an equal order placed earlier in
    [availableOrders] would be in the same pool at the same distance, so
    the position found is that of the very object the scan kept
    ([findNearestOrder_position]). *)
Definition indexOf (availableOrders : list Order) (order : Order) : option nat :=
  fst <$> list_find (fun o => o = order) availableOrders.

(** One call of the [orders.forEach] callback inside [findNearestOrder].
    The accumulator is [None] while [nearest] is [null] and [minDistance]
    is [Infinity], below which every distance lies. *)
Definition nearestStep (availableOrders : list Order) (currentLocation : Location)
    (acc : option (Order * option nat * R)) (order : Order)
    : option (Order * option nat * R) :=
  let distance := calculateDistance currentLocation (locationOf (hospital order)) in
  match acc with
  | None => Some (order, indexOf availableOrders order, distance)
  | Some (_, _, minDistance) =>
      if decide (distance < minDistance)
      then Some (order, indexOf availableOrders order, distance)
      else acc
  end.

Definition findNearestOrder (availableOrders : list Order) (currentLocation : Location)
    (orders : list Order) : option (Order * option nat * R) :=
  foldl (nearestStep availableOrders currentLocation) None orders.

(** The choice made at the top of each turn of the planning loop: the
    nearest emergency order, or else the nearest other order. *)
Definition selectOrder (availableOrders : list Order) (currentLocation : Location)
    : option (Order * option nat * R) :=
  let emergencyOrders := filter (fun o => priority o = Emergency) availableOrders in
  let nonEmergencyOrders := filter (fun o => priority o <> Emergency) availableOrders in
  match findNearestOrder availableOrders currentLocation emergencyOrders with
  | Some nearestEmergency => Some nearestEmergency
  | None => findNearestOrder availableOrders currentLocation nonEmergencyOrders
  end.

(** The [while] loop of [planFlight].  Every turn that does not [break]
    splices one order out of [availableOrders], so its length bounds the
    number of turns. *)
Fixpoint planFlight_loop (fuel : nat) (s : ZipScheduler) (flightOrders : list Order)
    (totalDistance : R) (currentLocation : Location) (availableOrders : list Order)
    : list Order * R * Location :=
  match fuel with
  | O => (flightOrders, totalDistance, currentLocation)
  | S fuel' =>
      if (length flightOrders <? maxPackagesPerZip s)%nat
         && (0 <? length availableOrders)%nat
      then
        match selectOrder availableOrders currentLocation with
        | Some (selectedOrder, Some selectedOrderIndex, nearestDistance) =>
            let distanceToOrder := nearestDistance in
            let distanceBackToNest :=
              calculateDistance (locationOf (hospital selectedOrder)) Nest in
            let newTotalDistance :=
              totalDistance + distanceToOrder + distanceBackToNest in
            if decide (newTotalDistance <= zipMaxCumulativeRangeM s)
            then planFlight_loop fuel' s (flightOrders ++ [selectedOrder])
                   (totalDistance + distanceToOrder)
                   (locationOf (hospital selectedOrder))
                   (delete selectedOrderIndex availableOrders)
            else planFlight_loop fuel' s flightOrders totalDistance currentLocation
                   (delete selectedOrderIndex availableOrders)
        | _ => (flightOrders, totalDistance, currentLocation)
        end
      else (flightOrders, totalDistance, currentLocation)
  end.

(** [planFlight] on a given array of pending orders. *)
Definition planFlightFrom (s : ZipScheduler) (availableOrders : list Order)
    : list Order * R :=
  let '(flightOrders, totalDistance, currentLocation) :=
    planFlight_loop (length availableOrders) s [] 0 Nest availableOrders in
  if (0 <? length flightOrders)%nat
  then (flightOrders, totalDistance + calculateDistance currentLocation Nest)
  else (flightOrders, totalDistance).

Definition planFlight (s : ZipScheduler) : list Order * R :=
  planFlightFrom s (getUnfulfilledOrders s).

(** The callback of the [flightOrders.forEach] of [launchFlights]: the
    planned order is taken out of the queue by its id; a miss is logged
    and nothing else happens. *)
Definition dequeueFlightOrder (acc : PriorityQueue.t * list LogEvent) (order : Order)
    : PriorityQueue.t * list LogEvent :=
  let '(heap, log) := acc in
  match PriorityQueue.dequeueById heap (id order) with
  | (Some _, heap') => (heap', log)
  | (None, heap') => (heap', log ++ [FailedToDequeueOrder (id order)])
  end.

Definition dequeueFlightOrders (heap : PriorityQueue.t) (flightOrders : list Order)
    : PriorityQueue.t * list LogEvent :=
  foldl dequeueFlightOrder (heap, []) flightOrders.

(** The tail of one turn of the dispatch loop, after the two guards: the
    orders leave the queue, the flight is created and becomes active. *)
Definition commitFlight (s : ZipScheduler) (currentTime : R)
    (flightOrders : list Order) (totalDistance : R)
    : Flight * ZipScheduler * list LogEvent :=
  let '(heap, log) := dequeueFlightOrders (_unfulfilledOrders s) flightOrders in
  let flight := newFlight currentTime flightOrders totalDistance in
  let returnTime := calculateReturnTime s currentTime totalDistance in
  let s := set_unfulfilledOrders s heap in
  (flight,
   set_activeFlights s (completeOrderCount s)
     (activeFlights s ++ [mkActiveFlight returnTime flight]),
   log).

(** The [while (availableZips > 0 && !isEmpty())] loop of [launchFlights].
    Every turn that does not [break] lowers [availableZips] by one. *)
Fixpoint launchFlights_loop (fuel : nat) (s : ZipScheduler) (currentTime : R)
    (availableZips : Z) : list Flight * ZipScheduler * list LogEvent :=
  match fuel with
  | O => ([], s, [])
  | S fuel' =>
      if (0 <? availableZips)%Z && negb (PriorityQueue.isEmpty (_unfulfilledOrders s))
      then
        let emergencyCount := countByPriority s Emergency in
        let '(flightOrders, totalDistance) := planFlight s in
        if (length flightOrders =? 0)%nat then ([], s, [])
        else if (0 <? emergencyCount)%nat && (availableZips <? 1)%Z
        then ([], s, [SkippingEmergencyFlight
                        (numZips s - Z.of_nat (length (activeFlights s)))%Z])
        else if (emergencyCount =? 0)%nat && (availableZips <? RESERVED_EMERGENCY_ZIPS)%Z
        then ([], s, [])
        else
          let '(flight, s', log) := commitFlight s currentTime flightOrders totalDistance in
          let '(flights, s'', log') :=
            launchFlights_loop fuel' s' currentTime (availableZips - 1)%Z in
          (flight :: flights, s'', log ++ log')
      else ([], s, [])
  end.

Definition launchFlights (s : ZipScheduler) (currentTime : R)
    : list Flight * ZipScheduler * list LogEvent :=
  let s := releaseReturningZips s currentTime in
  let availableZips := (numZips s - Z.of_nat (length (activeFlights s)))%Z in
  if PriorityQueue.isEmpty (_unfulfilledOrders s) then ([], s, [])
  else launchFlights_loop (Z.to_nat availableZips) s currentTime availableZips.

(** One call of a public method of the scheduler. *)
Inductive step : ZipScheduler -> ZipScheduler -> Prop :=
| step_queueOrder s order :
    step s (fst (queueOrder s order))
| step_releaseReturningZips s currentTime :
    step s (releaseReturningZips s currentTime)
| step_launchFlights s currentTime :
    step s (snd (fst (launchFlights s currentTime))).

(** The states a scheduler can be in: built by the constructor and then
    driven through any sequence of calls. *)
Definition reachable (s : ZipScheduler) : Prop :=
  exists n m v r, rtc step (newZipScheduler n m v r) s.

(** The admission test of [queueOrder]: a round trip to the order alone
    stays within the range. *)
Definition withinRange (s : ZipScheduler) (order : Order) : Prop :=
  ~ (2 * calculateDistance Nest (locationOf (hospital order)) > zipMaxCumulativeRangeM s).

(** ** [planFlight] over a store of arrays

    The functions above pass arrays by value.  [planFlight] however
    splices the array it plans on, and that array comes from
    [getUnfulfilledOrders], so whether the queue survives depends on which
    array object is spliced.  Here arrays are objects in a store, an array
    variable holds a reference, [map] and [filter] allocate their result,
    and [push] and [splice] update the array they are called on. *)

Module Arrays.

Definition ref := nat.
Abbreviation store := (list (list Order)).

(** A new array object. *)
Definition alloc (st : store) (a : list Order) : ref * store :=
  (length st, st ++ [a]).

Definition read (st : store) (r : ref) : list Order :=
  default [] (st !! r).

Definition write (st : store) (r : ref) (a : list Order) : store :=
  <[r := a]> st.

(** [array.push(order)] *)
Definition push (st : store) (r : ref) (order : Order) : store :=
  write st r (read st r ++ [order]).

(** [array.splice(index, 1)] *)
Definition splice (st : store) (r : ref) (index : nat) : store :=
  write st r (delete index (read st r)).

(** [PriorityQueue.toArray]: [this.heap.map(element => element.order)],
    where [heap] is the reference held by the queue object. *)
Definition toArray (st : store) (heap : ref) : ref * store :=
  alloc st ((fun o => o) <$> read st heap).

(** [array.filter(p)] *)
Definition filterArray (P : Order -> Prop) `{forall o, Decision (P o)}
    (st : store) (r : ref) : ref * store :=
  alloc st (filter P (read st r)).

(** The [while] loop of [planFlight], on references. *)
Fixpoint planFlight_loop (fuel : nat) (s : ZipScheduler) (flightOrders availableOrders : ref)
    (totalDistance : R) (currentLocation : Location) (st : store)
    : R * Location * store :=
  match fuel with
  | O => (totalDistance, currentLocation, st)
  | S fuel' =>
      if (length (read st flightOrders) <? maxPackagesPerZip s)%nat
         && (0 <? length (read st availableOrders))%nat
      then
        let '(emergencyOrders, st) :=
          filterArray (fun o => priority o = Emergency) st availableOrders in
        let '(nonEmergencyOrders, st) :=
          filterArray (fun o => priority o <> Emergency) st availableOrders in
        let selected :=
          match findNearestOrder (read st availableOrders) currentLocation
                  (read st emergencyOrders) with
          | Some nearestEmergency => Some nearestEmergency
          | None => findNearestOrder (read st availableOrders) currentLocation
                      (read st nonEmergencyOrders)
          end in
        match selected with
        | Some (selectedOrder, Some selectedOrderIndex, nearestDistance) =>
            let distanceToOrder := nearestDistance in
            let distanceBackToNest :=
              calculateDistance (locationOf (hospital selectedOrder)) Nest in
            let newTotalDistance :=
              totalDistance + distanceToOrder + distanceBackToNest in
            if decide (newTotalDistance <= zipMaxCumulativeRangeM s)
            then
              let st := push st flightOrders selectedOrder in
              let st := splice st availableOrders selectedOrderIndex in
              planFlight_loop fuel' s flightOrders availableOrders
                (totalDistance + distanceToOrder)
                (locationOf (hospital selectedOrder)) st
            else
              let st := splice st availableOrders selectedOrderIndex in
              planFlight_loop fuel' s flightOrders availableOrders
                totalDistance currentLocation st
        | _ => (totalDistance, currentLocation, st)
        end
      else (totalDistance, currentLocation, st)
  end.

(** [planFlight], for a scheduler whose queue keeps its heap at [heap]:
    the reference of the [flightOrders] array, the distance, and the store
    the call leaves behind. *)
Definition planFlight (s : ZipScheduler) (heap : ref) (st : store)
    : ref * R * store :=
  let '(flightOrders, st) := alloc st [] in
  let '(availableOrders, st) := toArray st heap in
  let '(totalDistance, currentLocation, st) :=
    planFlight_loop (length (read st availableOrders)) s flightOrders availableOrders
      0 Nest st in
  if (0 <? length (read st flightOrders))%nat
  then (flightOrders, totalDistance + calculateDistance currentLocation Nest, st)
  else (flightOrders, totalDistance, st).

End Arrays.

(** ** The simulation runner (Runner.ts)

    The runner plays a day's orders against the scheduler, second by
    second.  Reading the two CSV files is not modelled: a runner is built
    from the orders already loaded. *)

Module Runner.

(** Each Nest has this many Zips. *)
Definition NUM_ZIPS : Z := 10.
(** Each Zip can carry between 1 and this many packages per flight. *)
Definition MAX_PACKAGES_PER_ZIP : nat := 3.
(** Zips fly a constant groundspeed (m/s). *)
Definition ZIP_SPEED_MPS : R := 30.
(** Zips can fly a total roundtrip distance (m). *)
Definition ZIP_MAX_CUMULATIVE_RANGE_M : R := 160 * 1000.

Record t := mk {
  orders : list Order;
  totalOrderCount : nat;
  scheduler : ZipScheduler
}.

(** The constructor, after [Order.loadFromCsv]. *)
Definition new (orders : list Order) : t :=
  mk orders (length orders)
     (newZipScheduler NUM_ZIPS MAX_PACKAGES_PER_ZIP ZIP_SPEED_MPS
        ZIP_MAX_CUMULATIVE_RANGE_M).

(** The [while] loop of [_queuePendingOrders]: as long as the first
    order left is placed at this very second it is shifted off the array
    and queued.  Every turn shortens the array. *)
Fixpoint queuePendingOrders_loop (orders : list Order) (s : ZipScheduler)
    (secondsSinceMidnight : Z) : list Order * ZipScheduler * list LogEvent :=
  match orders with
  | order :: rest =>
      if (time order =? secondsSinceMidnight)%Z
      then
        let '(s', log) := queueOrder s order in
        let '(orders', s'', log') :=
          queuePendingOrders_loop rest s' secondsSinceMidnight in
        (orders', s'', log ++ log')
      else (orders, s, [])
  | [] => (orders, s, [])
  end.

Definition _queuePendingOrders (r : t) (secondsSinceMidnight : Z) : t * list LogEvent :=
  let '(orders', s', log) :=
    queuePendingOrders_loop (orders r) (scheduler r) secondsSinceMidnight in
  (mk orders' (totalOrderCount r) s', log).

(** [_updateLaunchFlights]: the flights are only logged. *)
Definition _updateLaunchFlights (r : t) (secondsSinceMidnight : Z) : t * list LogEvent :=
  let '(flights, s', log) := launchFlights (scheduler r) (IZR secondsSinceMidnight) in
  (mk (orders r) (totalOrderCount r) s', log).

Definition secondsPerDay : Z := 24 * 60 * 60.

(** The [for] loop of [run]: one turn per second up to the end of the
    day.  [%] is the remainder that takes the sign of the dividend. *)
Fixpoint run_loop (fuel : nat) (r : t) (secondsSinceMidnight : Z) : t * list LogEvent :=
  match fuel with
  | O => (r, [])
  | S fuel' =>
      if (secondsSinceMidnight <? secondsPerDay)%Z
      then
        let '(r1, log1) := _queuePendingOrders r secondsSinceMidnight in
        let '(r2, log2) :=
          if (Z.rem secondsSinceMidnight 60 =? 0)%Z
          then _updateLaunchFlights r1 secondsSinceMidnight
          else (r1, []) in
        let '(r3, log3) := run_loop fuel' r2 (secondsSinceMidnight + 1)%Z in
        (r3, log1 ++ log2 ++ log3)
      else (r, [])
  end.

(** The first second of the loop: one before the first order, or 0. *)
Definition firstSecond (r : t) : Z :=
  match orders r with
  | order :: _ => (time order - 1)%Z
  | [] => 0%Z
  end.

Definition run (r : t) : t * list LogEvent :=
  run_loop (Z.to_nat (secondsPerDay - firstSecond r)) r (firstSecond r).

End Runner.

(** ** The first scheduler (traveling_zip.ts)

    The first scheduler of the repository keeps its pending orders in a
    plain array: an Emergency order goes in front of the first order that
    is not one, any other order goes to the end.  Its [planFlight] fills a
    flight from the Emergency orders and then from the Resupply orders, each
    time with the nearest order that the range still allows.  Of the fields
    of the scheduler these methods read [maxPackagesPerZip] and
    [zipMaxCumulativeRangeM], which are passed to them here; its orders
    have no [id], which nothing below reads. *)

Module Draft.

(** [array.splice(index, 0, order)] *)
Definition spliceIn (orders : list Order) (index : nat) (order : Order) : list Order :=
  take index orders ++ order :: drop index orders.

Definition queueOrder (_unfulfilledOrders : list Order) (order : Order) : list Order :=
  let isEmergency := bool_decide (priority order = Emergency) in
  if isEmergency then
    let lastEmergencyIndex :=
      fst <$> list_find (fun o => priority o <> Emergency) _unfulfilledOrders in
    match lastEmergencyIndex with
    | None => _unfulfilledOrders ++ [order]
    | Some index => spliceIn _unfulfilledOrders index order
    end
  else _unfulfilledOrders ++ [order].

Definition calculateDistanceBetween (pointA pointB : Location) : R :=
  let deltaX := IZR (locNorthM pointB) - IZR (locNorthM pointA) in
  let deltaY := IZR (locEastM pointB) - IZR (locEastM pointA) in
  sqrt (deltaX ^ 2 + deltaY ^ 2).

(** The [for] loop of [findNearestReachableOrder], from index [i] on.
    The accumulator is [None] while [nearestOrderIndex] is [-1] and
    [minDistance] is [Infinity], below which every distance lies. *)
Fixpoint findNearestReachableOrder_loop (zipMaxCumulativeRangeM : R)
    (currentLocation : Location) (totalDistance : R) (i : nat) (orders : list Order)
    (acc : option (nat * R)) : option (nat * R) :=
  match orders with
  | [] => acc
  | order :: rest =>
      let distance :=
        calculateDistanceBetween currentLocation (locationOf (hospital order)) in
      let potentialTotalDistance := totalDistance + distance in
      let distanceToNest :=
        calculateDistanceBetween (locationOf (hospital order)) Nest in
      let totalTripDistance := potentialTotalDistance + distanceToNest in
      let next := findNearestReachableOrder_loop zipMaxCumulativeRangeM currentLocation
                    totalDistance (S i) rest in
      match acc with
      | None =>
          if decide (totalTripDistance <= zipMaxCumulativeRangeM)
          then next (Some (i, distance)) else next acc
      | Some (_, minDistance) =>
          if decide (distance < minDistance /\ totalTripDistance <= zipMaxCumulativeRangeM)
          then next (Some (i, distance)) else next acc
      end
  end.

Definition findNearestReachableOrder (zipMaxCumulativeRangeM : R)
    (currentLocation : Location) (orders : list Order) (totalDistance : R)
    : option (nat * R) :=
  findNearestReachableOrder_loop zipMaxCumulativeRangeM currentLocation totalDistance
    0%nat orders None.

(** [orders.splice(orders.indexOf(order), 1)]: a start of [-1] counts
    from the end of the array. *)
Definition spliceOut (orders : list Order) (order : Order) : list Order :=
  match indexOf orders order with
  | Some index => delete index orders
  | None => delete (length orders - 1)%nat orders
  end.

(** The variables of [planFlight] that its loops update. *)
Record Plan := mkPlan {
  planOrders : list Order;
  flightOrders : list Order;
  totalDistance : R;
  currentLocation : Location
}.

(** One of the two [while] loops of [planFlight], on the array [pool]
    ([emergencyOrders], then [resupplyOrders]).  Every turn that does not
    [break] splices one order out of [pool]. *)
Fixpoint planFlight_loop (fuel : nat) (maxPackagesPerZip : nat)
    (zipMaxCumulativeRangeM : R) (pool : list Order) (p : Plan) : Plan :=
  match fuel with
  | O => p
  | S fuel' =>
      if (length (flightOrders p) <? maxPackagesPerZip)%nat && (0 <? length pool)%nat
      then
        match findNearestReachableOrder zipMaxCumulativeRangeM (currentLocation p) pool
                (totalDistance p) with
        | None => p
        | Some (nearestOrderIndex, minDistance) =>
            match pool !! nearestOrderIndex with
            | Some nearestOrder =>
                planFlight_loop fuel' maxPackagesPerZip zipMaxCumulativeRangeM
                  (delete nearestOrderIndex pool)
                  (mkPlan (spliceOut (planOrders p) nearestOrder)
                          (flightOrders p ++ [nearestOrder])
                          (totalDistance p + minDistance)
                          (locationOf (hospital nearestOrder)))
            | None => p
            end
        end
      else p
  end.

(** [planFlight(orders, currentTime)]: the flight, its distance, and the
    array [orders] as the call leaves it. *)
Definition planFlight (maxPackagesPerZip : nat) (zipMaxCumulativeRangeM : R)
    (orders : list Order) : list Order * R * list Order :=
  let emergencyOrders := filter (fun order => priority order = Emergency) orders in
  let resupplyOrders := filter (fun order => priority order = Resupply) orders in
  let p := mkPlan orders [] 0 Nest in
  let p := planFlight_loop (length emergencyOrders) maxPackagesPerZip
             zipMaxCumulativeRangeM emergencyOrders p in
  let p := planFlight_loop (length resupplyOrders) maxPackagesPerZip
             zipMaxCumulativeRangeM resupplyOrders p in
  let returnToNestDistance := calculateDistanceBetween (currentLocation p) Nest in
  (flightOrders p, totalDistance p + returnToNestDistance, planOrders p).

End Draft.

(** ** Vocabulary of the statements *)

(** What the scan of [findNearestOrder] holds after it has gone through
    [pool]: nothing if the pool is empty, otherwise an order of the pool at
    the least distance, with its position in [availableOrders]. *)
Definition nearestOf (availableOrders : list Order) (currentLocation : Location)
    (pool : list Order) (r : option (Order * option nat * R)) : Prop :=
  match r with
  | None => pool = []
  | Some (o, i, d) =>
      o ∈ pool /\ i = indexOf availableOrders o /\
      d = calculateDistance currentLocation (locationOf (hospital o)) /\
      forall o', o' ∈ pool ->
        (d <= calculateDistance currentLocation (locationOf (hospital o')))%R
  end.

(** The order that the scan holds is the first of its pool at its
    distance: every order of the pool before it is strictly farther. *)
Definition keptFirst (currentLocation : Location) (pool : list Order)
    (r : option (Order * option nat * R)) : Prop :=
  match r with
  | None => True
  | Some (o, _, d) =>
      exists pre post, pool = pre ++ o :: post /\
        forall o', o' ∈ pre ->
          (d < calculateDistance currentLocation (locationOf (hospital o')))%R
  end.

(** The length of the route that starts at [from] and visits the
    hospitals of [stops] one after the other, and the place where it ends. *)
Fixpoint routeLength (from : Location) (stops : list Order) : R :=
  match stops with
  | [] => 0
  | o :: rest =>
      calculateDistance from (locationOf (hospital o))
      + routeLength (locationOf (hospital o)) rest
  end.

Fixpoint routeEnd (from : Location) (stops : list Order) : Location :=
  match stops with
  | [] => from
  | o :: rest => routeEnd (locationOf (hospital o)) rest
  end.

(** From the Nest through the stops and back. *)
Definition roundTrip (stops : list Order) : R :=
  routeLength Nest stops + calculateDistance (routeEnd Nest stops) Nest.

(** The stops of the flights that are in the air. *)
Definition stopsAloft (s : ZipScheduler) : nat :=
  sum_list (length ∘ orders ∘ flight <$> activeFlights s).

(** The orders the scheduler knows of: delivered, in the air, or pending. *)
Definition accounted (s : ZipScheduler) : nat :=
  (completeOrderCount s + stopsAloft s + unfulfilledOrdersCount s)%nat.

(** What holds of a flight that [launchFlights] has created: it has
    between one stop and [maxPackagesPerZip] stops, its distance is that of
    the round trip through them and within the range, and the battery
    estimate is the one the constructor of [Flight] computes. *)
Definition wellFormedFlight (s : ZipScheduler) (f : Flight) : Prop :=
  orders f <> [] /\ (length (orders f) <= maxPackagesPerZip s)%nat /\
  totalDistance f = roundTrip (orders f) /\
  0 <= totalDistance f <= zipMaxCumulativeRangeM s /\
  estimatedReturnBatteryPercentage f
    = 100 - totalDistance f / ZIP_MAX_CUMULATIVE_RANGE_M * 100.

(** The invariant of the list of active flights. *)
Definition activeInv (s : ZipScheduler) : Prop :=
  (Z.of_nat (activeFlightsCount s) <= Z.max 0 (numZips s))%Z /\
  Forall (fun e =>
            wellFormedFlight s (flight e) /\
            returnTime e = launchTime (flight e) + totalDistance (flight e) / zipSpeedMps s)
         (activeFlights s).

#[global] Instance withinRange_dec s order : Decision (withinRange s order) :=
  not_dec (Rgt_dec _ _).

(** The orders of a list that [queueOrder] admits, and what it logs for
    the others. *)
Definition admitted (s : ZipScheduler) (orders : list Order) : list Order :=
  filter (withinRange s) orders.

Definition rejections (s : ZipScheduler) (orders : list Order) : list LogEvent :=
  concat ((fun order => snd (queueOrder s order)) <$> orders).

(** Orders as the runner expects them: by time of arrival. *)
Definition byTime (orders : list Order) : Prop :=
  StronglySorted (fun a b => (time a <= time b)%Z) orders.

(** For the first scheduler: an order can be the next stop when the
    way flown so far, the leg to it and its way back to the Nest fit in the
    range. *)
Definition reachableStop (zipMaxCumulativeRangeM : R) (currentLocation : Location)
    (totalDistance : R) (order : Order) : Prop :=
  totalDistance + calculateDistance currentLocation (locationOf (hospital order))
  + calculateDistance (locationOf (hospital order)) Nest <= zipMaxCumulativeRangeM.

(** What [findNearestReachableOrder] holds after it has gone through
    [orders]: nothing if no order can be the next stop, otherwise the index
    and the distance of the first of the nearest orders that can. *)
Definition nearestReachable (zipMaxCumulativeRangeM : R) (currentLocation : Location)
    (totalDistance : R) (orders : list Order) (r : option (nat * R)) : Prop :=
  match r with
  | None =>
      forall o, o ∈ orders ->
        ~ reachableStop zipMaxCumulativeRangeM currentLocation totalDistance o
  | Some (i, d) =>
      exists o, orders !! i = Some o /\
        d = calculateDistance currentLocation (locationOf (hospital o)) /\
        reachableStop zipMaxCumulativeRangeM currentLocation totalDistance o /\
        forall j o', orders !! j = Some o' ->
          reachableStop zipMaxCumulativeRangeM currentLocation totalDistance o' ->
          d <= calculateDistance currentLocation (locationOf (hospital o')) /\
          ((j < i)%nat -> d < calculateDistance currentLocation (locationOf (hospital o')))
  end.

(** The configuration fields, which no method writes. *)
Definition sameConfig (s s' : ZipScheduler) : Prop :=
  numZips s' = numZips s /\ maxPackagesPerZip s' = maxPackagesPerZip s /\
  zipSpeedMps s' = zipSpeedMps s /\ zipMaxCumulativeRangeM s' = zipMaxCumulativeRangeM s.

(** The entry that [launchFlights] pushes for a flight. *)
Definition activeEntry (s : ZipScheduler) (f : Flight) : ActiveFlight :=
  mkActiveFlight (calculateReturnTime s (launchTime f) (totalDistance f)) f.

(** The number of Zips at the Nest once the returned ones are released. *)
Definition availableAfterRelease (s : ZipScheduler) (currentTime : R) : Z :=
  (numZips s - Z.of_nat (length (activeFlights (releaseReturningZips s currentTime))))%Z.

(** Every pending order passed the admission test, and the queue is an
    ordered heap. *)
Definition queueInv (s : ZipScheduler) : Prop :=
  (forall o, o ∈ _unfulfilledOrders s -> withinRange s o) /\
  heapOrdered (_unfulfilledOrders s).

(** ** Scenario data *)

(** The two Emergency orders of scenario A, 3,000 m and 4,000 m from the
    Nest, arrived at t=0 and t=1. *)
Definition orderA1 : Order := mkOrder "a1" (mkHospital "Near" 3000 0) Emergency 0.

Definition orderA2 : Order := mkOrder "a2" (mkHospital "Far" 4000 0) Emergency 1.

(** A second pair, in which the nearer destination is the later arrival. *)
Definition orderB1 : Order := mkOrder "b1" (mkHospital "Near" 3000 0) Emergency 1.

Definition orderB2 : Order := mkOrder "b2" (mkHospital "Far" 4000 0) Emergency 0.

(** Scenario C as the specification sets it up: five Zips, none in the
    air, one Resupply order pending. *)
Definition orderC : Order := mkOrder "c1" (mkHospital "Clinic" 1000 0) Resupply 30.

Definition scenarioC : ZipScheduler :=
  fst (queueOrder (newZipScheduler 5 3 30 10000) orderC).

(** The orders and the scheduler of scenario D: one Zip at 30 m/s, and
    the state after [launchFlights(100)] has sent it 1,500 m out. *)
Definition orderD1 : Order := mkOrder "d1" (mkHospital "Ward" 1500 0) Emergency 90.

Definition orderD2 : Order := mkOrder "d2" (mkHospital "Post" 2000 0) Emergency 95.

Definition scenarioD0 : ZipScheduler :=
  fst (queueOrder (fst (queueOrder (newZipScheduler 1 1 30 10000) orderD1)) orderD2).

Definition scenarioD : ZipScheduler := snd (fst (launchFlights scenarioD0 100)).

(** Three pending orders of which the second Emergency one lies on the
    far side of the Nest: from the first stop it is out of range, and the
    Resupply order beyond the first stop is not. *)
Definition orderE1 : Order := mkOrder "e1" (mkHospital "East" 4000 0) Emergency 10.

Definition orderE2 : Order := mkOrder "e2" (mkHospital "West" (-4000) 0) Emergency 11.

Definition orderR1 : Order := mkOrder "r1" (mkHospital "Beyond" 4500 0) Resupply 12.

Definition scenarioE : ZipScheduler :=
  mkZipScheduler 1 3 30 10000 0 [orderE1; orderE2; orderR1] [].

(* ================================================================== *)
(** * Properties *)

Local Open Scope nat_scope.

(** ** The order of the queue *)

Lemma compare_key a b :
  (PQ.compare a b <= 0)%Z <->
  (priorityIndex (priority a) < priorityIndex (priority b))%Z \/
  (priority a = priority b /\ (time a <= time b)%Z).
Proof.
  unfold PQ.compare. destruct (priority a), (priority b); simpl; split; intros H;
    try lia; try (right; split; [reflexivity | lia]); try (left; lia);
    destruct H as [H | [H1 H2]]; try lia; try discriminate.
Qed.

Lemma compare_antisym a b : PQ.compare b a = (- PQ.compare a b)%Z.
Proof. unfold PQ.compare. destruct (priority a), (priority b); simpl; lia. Qed.

Lemma servedBefore_refl a : servedBefore a a.
Proof. unfold servedBefore, PQ.compare. rewrite Z.sub_diag. simpl. lia. Qed.

Lemma servedBefore_trans a b c :
  servedBefore a b -> servedBefore b c -> servedBefore a c.
Proof.
  unfold servedBefore, PQ.compare.
  destruct (priority a), (priority b), (priority c); simpl; lia.
Qed.

Lemma not_precedes_servedBefore a b :
  (PQ.compare a b <? 0)%Z = false -> servedBefore b a.
Proof. unfold servedBefore. rewrite (compare_antisym a b). lia. Qed.

Lemma precedes_true heap i j :
  PQ.precedes heap i j = true ->
  exists a b, heap !! i = Some a /\ heap !! j = Some b /\ (PQ.compare a b < 0)%Z.
Proof.
  unfold PQ.precedes. destruct (heap !! i) as [a|], (heap !! j) as [b|]; try discriminate.
  intros H. exists a, b. repeat split. lia.
Qed.

Lemma precedes_false heap i j a b :
  PQ.precedes heap i j = false -> heap !! i = Some a -> heap !! j = Some b ->
  servedBefore b a.
Proof.
  unfold PQ.precedes. intros H Hi Hj. rewrite Hi, Hj in H.
  by apply not_precedes_servedBefore.
Qed.

(** ** Index arithmetic of the implicit tree *)

Lemma half_spec (n : nat) : 2 * (n / 2) <= n < 2 * (n / 2) + 2.
Proof.
  pose proof (Nat.div_mod_eq n 2). pose proof (Nat.mod_upper_bound n 2). lia.
Qed.

Ltac halves :=
  repeat match goal with
  | |- context [?n / 2] =>
      lazymatch goal with
      | _ : 2 * (n / 2) <= n < _ |- _ => fail
      | _ => pose proof (half_spec n)
      end
  | _ : context [?n / 2] |- _ =>
      lazymatch goal with
      | _ : 2 * (n / 2) <= n < _ |- _ => fail
      | _ => pose proof (half_spec n)
      end
  end; lia.

Lemma parent_lt i : 0 < i -> (i - 1) / 2 < i.
Proof. intros. halves. Qed.

Lemma parent_child i j :
  0 < i -> (i - 1) / 2 = j <-> i = 2 * j + 1 \/ i = 2 * j + 2.
Proof. intros. halves. Qed.

(** ** [swap] *)

Lemma swap_length i j heap : length (PQ.swap i j heap) = length heap.
Proof.
  unfold PQ.swap. destruct (heap !! i), (heap !! j); try done.
  by rewrite !length_insert.
Qed.

Lemma swap_lookup i j heap k :
  i < length heap -> j < length heap ->
  PQ.swap i j heap !! k =
    if decide (k = j) then heap !! i
    else if decide (k = i) then heap !! j else heap !! k.
Proof.
  intros Hi Hj. unfold PQ.swap.
  destruct (lookup_lt_is_Some_2 heap i Hi) as [x Hx].
  destruct (lookup_lt_is_Some_2 heap j Hj) as [y Hy].
  rewrite Hx, Hy.
  destruct (decide (k = j)) as [->|Hkj].
  - rewrite list_lookup_insert_eq; [done | by rewrite length_insert].
  - rewrite list_lookup_insert_ne by done.
    destruct (decide (k = i)) as [->|Hki].
    + by rewrite list_lookup_insert_eq.
    + by rewrite list_lookup_insert_ne.
Qed.

Lemma swap_Permutation i j heap : PQ.swap i j heap ≡ₚ heap.
Proof.
  unfold PQ.swap. destruct (heap !! i) eqn:Hi, (heap !! j) eqn:Hj; try done.
  by apply Permutation_insert_swap.
Qed.

(** ** The heap invariant and its two weakenings *)

Lemma heapOrdered_upInv heap j : heapOrdered heap -> upInv heap j.
Proof.
  intros Hh. split; [intros i Hi _; by apply Hh |].
  intros Hj c x p Hc Hc0 Hx Hp.
  assert (j < length heap) as Hlt.
  { apply lookup_lt_Some in Hx. pose proof (parent_lt c Hc0). lia. }
  destruct (lookup_lt_is_Some_2 heap j Hlt) as [y Hy].
  apply servedBefore_trans with y.
  - by apply (Hh j Hj).
  - apply (Hh c Hc0); [done | by rewrite Hc].
Qed.

Lemma upInv_swap heap j :
  0 < j -> PQ.precedes heap j ((j - 1) / 2) = true -> upInv heap j ->
  upInv (PQ.swap j ((j - 1) / 2) heap) ((j - 1) / 2).
Proof.
  intros Hj Hprec [Hedges Hgrands].
  destruct (precedes_true _ _ _ Hprec) as (x & y & Hx & Hy & Hxy).
  pose proof (lookup_lt_Some _ _ _ Hx) as Hjl.
  pose proof (lookup_lt_Some _ _ _ Hy) as Hpl.
  pose proof (parent_lt j Hj) as Hpj.
  assert (servedBefore x y) as Hle by (unfold servedBefore; lia).
  split.
  - intros i Hi Hne xi pi. rewrite !swap_lookup by done.
    pose proof (parent_lt i Hi) as Hpi.
    repeat case_decide; subst; intros Hxi Hpi'; simplify_eq; try lia; try done.
    + (* a sibling of [j] *)
      apply servedBefore_trans with y; [done |].
      apply (Hedges i); [done | done | done | congruence].
    + (* a child of [j] *)
      by apply (Hgrands Hj i).
    + by apply (Hedges i).
  - intros Hp c xc g Hc Hc0. rewrite !swap_lookup by done.
    pose proof (parent_lt _ Hp) as Hgp.
    repeat case_decide; subst; intros Hxc Hg; simplify_eq; try lia.
    + apply (Hedges ((j - 1) / 2)); done || lia.
    + apply servedBefore_trans with y.
      * apply (Hedges ((j - 1) / 2)); done || lia.
      * apply (Hedges c); first [done | lia | by rewrite Hc].
Qed.

Lemma bubbleUp_loop_heapOrdered fuel : forall heap j,
  j <= fuel -> upInv heap j -> heapOrdered (PQ.bubbleUp_loop fuel heap j).
Proof.
  induction fuel as [|fuel IH]; intros heap j Hfuel Hinv; cbn [PQ.bubbleUp_loop].
  - intros i Hi. apply Hinv; [done | lia].
  - destruct (0 <? j) eqn:Hj0.
    + apply Nat.ltb_lt in Hj0.
      destruct (PQ.precedes heap j ((j - 1) / 2)) eqn:Hprec.
      * apply IH; [pose proof (parent_lt j Hj0); lia | by apply upInv_swap].
      * intros i Hi. destruct (decide (i = j)) as [->|Hne].
        -- intros x p Hx Hp. by eapply precedes_false.
        -- by apply Hinv.
    + apply Nat.ltb_ge in Hj0. intros i Hi. apply Hinv; [done | lia].
Qed.

Lemma bubbleUp_loop_Permutation fuel : forall heap j,
  PQ.bubbleUp_loop fuel heap j ≡ₚ heap.
Proof.
  induction fuel as [|fuel IH]; intros heap j; cbn [PQ.bubbleUp_loop]; [done |].
  destruct (0 <? j); [| done].
  destruct (PQ.precedes heap j ((j - 1) / 2)); [| done].
  rewrite IH. apply swap_Permutation.
Qed.

(** More fuel than [index] changes nothing: the loop of [bubbleUp] has
    ended by then. *)
Lemma bubbleUp_loop_fuel fuel : forall fuel' heap j,
  j <= fuel -> j <= fuel' ->
  PQ.bubbleUp_loop fuel heap j = PQ.bubbleUp_loop fuel' heap j.
Proof.
  induction fuel as [|fuel IH]; intros fuel' heap j Hfuel Hfuel'.
  - replace j with 0 by lia. by destruct fuel'.
  - destruct fuel' as [|fuel'].
    + by replace j with 0 by lia.
    + cbn [PQ.bubbleUp_loop]. destruct (0 <? j) eqn:Hj; [| done].
      apply Nat.ltb_lt in Hj. pose proof (parent_lt j Hj).
      destruct (PQ.precedes heap j ((j - 1) / 2)); [| done].
      apply IH; lia.
Qed.

Lemma bubbleDown_loop_S fuel heap index :
  PQ.bubbleDown_loop (S fuel) heap index =
    if smallestOf heap index =? index then heap
    else PQ.bubbleDown_loop fuel (PQ.swap index (smallestOf heap index) heap)
           (smallestOf heap index).
Proof. reflexivity. Qed.

Ltac cmp_lia :=
  unfold servedBefore, PQ.compare in *;
  repeat match goal with o : Order |- _ => destruct o as [? ? [] ?] end;
  simpl in *; lia.

Lemma smallestOf_cases heap j :
  j < length heap ->
  let s := smallestOf heap j in
  (s = j /\
   (forall c x y, (c - 1) / 2 = j -> 0 < c -> heap !! c = Some x -> heap !! j = Some y ->
                  servedBefore y x)) \/
  ((s = 2 * j + 1 \/ s = 2 * j + 2) /\ s < length heap /\
   PQ.precedes heap s j = true /\
   (forall c x y, (c - 1) / 2 = j -> 0 < c -> heap !! c = Some x -> heap !! s = Some y ->
                  servedBefore y x)).
Proof.
  intros Hj. unfold smallestOf.
  destruct (lookup_lt_is_Some_2 heap j Hj) as [xj Hxj].
  assert (forall c x (P : Prop), c >= length heap -> heap !! c = Some x -> P) as Hout.
  { intros c x P Hc Hx. apply lookup_lt_Some in Hx. lia. }
  destruct (2 * j + 1 <? length heap) eqn:Hl;
    [apply Nat.ltb_lt in Hl; destruct (lookup_lt_is_Some_2 heap _ Hl) as [xl Hxl]
    | apply Nat.ltb_ge in Hl];
  (destruct (2 * j + 2 <? length heap) eqn:Hr;
    [apply Nat.ltb_lt in Hr; destruct (lookup_lt_is_Some_2 heap _ Hr) as [xr Hxr]
    | apply Nat.ltb_ge in Hr]);
  cbn [andb]; try lia; unfold PQ.precedes; rewrite ?Hxj, ?Hxl, ?Hxr;
  repeat match goal with
  | |- context [(?a <? ?b)%Z] =>
      let H := fresh "Hcmp" in destruct (a <? b)%Z eqn:H; rewrite ?Hxj, ?Hxl, ?Hxr
  end; cbn zeta.
  all: try (left; split; [reflexivity |]).
  all: try (right; split; [lia |]; split; [lia |]; split; [rewrite ?Hxj, ?Hxl, ?Hxr; cmp_lia |]).
  all: intros c x y Hc Hc0 Hx Hy; apply parent_child in Hc as [-> | ->]; try done;
       try (by eapply Hout; [| exact Hx]); simplify_eq; cmp_lia.
Qed.

Lemma downInv_swap heap j s :
  (s - 1) / 2 = j -> 0 < s -> s < length heap ->
  PQ.precedes heap s j = true ->
  (forall c x y, (c - 1) / 2 = j -> 0 < c -> heap !! c = Some x -> heap !! s = Some y ->
                 servedBefore y x) ->
  downInv heap j -> downInv (PQ.swap j s heap) s.
Proof.
  intros Hs Hs0 Hsl Hprec Hmin [Hedges Hgrands].
  destruct (precedes_true _ _ _ Hprec) as (xs & xj & Hxs & Hxj & Hlt).
  pose proof (lookup_lt_Some _ _ _ Hxj) as Hjl.
  pose proof (parent_lt s Hs0) as Hjs.
  assert (servedBefore xs xj) as Hle by (unfold servedBefore; lia).
  split.
  - intros i Hi Hne xi pi. rewrite !swap_lookup by done.
    pose proof (parent_lt i Hi) as Hpi.
    repeat case_decide; subst; intros Hxi Hpi'; simplify_eq; try lia; try done.
    + by apply (Hgrands Hi s).
    + by apply (Hmin i).
    + by apply (Hedges i).
  - intros _ c xc g Hc Hc0. rewrite !swap_lookup by done.
    pose proof (parent_lt c Hc0) as Hpc.
    repeat case_decide; subst; intros Hxc Hg; simplify_eq; try lia.
    apply (Hedges c); first [done | lia | by rewrite Hc].
Qed.

Lemma bubbleDown_loop_heapOrdered fuel : forall heap j,
  length heap - j <= fuel -> downInv heap j ->
  heapOrdered (PQ.bubbleDown_loop fuel heap j).
Proof.
  induction fuel as [|fuel IH]; intros heap j Hfuel Hinv.
  - cbn [PQ.bubbleDown_loop].
    intros i Hi x p Hx Hp. destruct (decide ((i - 1) / 2 = j)) as [Hc|Hc].
    + apply lookup_lt_Some in Hx. pose proof (parent_lt i Hi). lia.
    + by apply (proj1 Hinv i).
  - rewrite bubbleDown_loop_S.
    destruct (decide (j < length heap)) as [Hj|Hj].
    + destruct (smallestOf_cases heap j Hj) as [[Hs Hmin] | (Hs & Hsl & Hprec & Hmin)].
      * rewrite Hs, Nat.eqb_refl. intros i Hi x p Hx Hp.
        destruct (decide ((i - 1) / 2 = j)) as [Hc|Hc].
        -- apply (Hmin i); try done. by rewrite <- Hc.
        -- by apply (proj1 Hinv i).
      * assert ((smallestOf heap j - 1) / 2 = j /\ 0 < smallestOf heap j) as [Hpar Hpos].
        { split; [apply parent_child |]; lia. }
        replace (smallestOf heap j =? j) with false by (symmetry; apply Nat.eqb_neq; lia).
        apply IH; [rewrite swap_length; lia |].
        by apply downInv_swap.
    + assert (smallestOf heap j = j) as ->.
      { unfold smallestOf.
        replace (2 * j + 1 <? length heap) with false by (symmetry; apply Nat.ltb_ge; lia).
        replace (2 * j + 2 <? length heap) with false by (symmetry; apply Nat.ltb_ge; lia).
        done. }
      rewrite Nat.eqb_refl. intros i Hi x p Hx Hp.
      destruct (decide ((i - 1) / 2 = j)) as [Hc|Hc].
      * apply lookup_lt_Some in Hx. pose proof (parent_lt i Hi). lia.
      * by apply (proj1 Hinv i).
Qed.

Lemma bubbleDown_loop_Permutation fuel : forall heap j,
  PQ.bubbleDown_loop fuel heap j ≡ₚ heap.
Proof.
  induction fuel as [|fuel IH]; intros heap j; [done |].
  rewrite bubbleDown_loop_S. destruct (smallestOf heap j =? j); [done |].
  rewrite IH. apply swap_Permutation.
Qed.

Lemma smallestOf_range heap j :
  smallestOf heap j = j \/ (j < smallestOf heap j < length heap).
Proof.
  unfold smallestOf.
  destruct (2 * j + 1 <? length heap) eqn:Hl;
    [apply Nat.ltb_lt in Hl | apply Nat.ltb_ge in Hl];
  (destruct (2 * j + 2 <? length heap) eqn:Hr;
    [apply Nat.ltb_lt in Hr | apply Nat.ltb_ge in Hr]); cbn [andb];
  repeat match goal with |- context [PQ.precedes ?h ?a ?b] =>
    destruct (PQ.precedes h a b) end; lia.
Qed.

(** More fuel than [length heap - index] changes nothing: the loop of
    [bubbleDown] has left through its [break] by then. *)
Lemma bubbleDown_loop_fuel fuel : forall fuel' heap j,
  length heap - j <= fuel -> length heap - j <= fuel' ->
  PQ.bubbleDown_loop fuel heap j = PQ.bubbleDown_loop fuel' heap j.
Proof.
  assert (forall fuel heap j, length heap <= j -> PQ.bubbleDown_loop fuel heap j = heap) as Hout.
  { intros [|f] heap j Hj; [done |]. rewrite bubbleDown_loop_S.
    destruct (smallestOf_range heap j) as [-> | ?]; [by rewrite Nat.eqb_refl | lia]. }
  induction fuel as [|fuel IH]; intros fuel' heap j Hfuel Hfuel'.
  - rewrite !Hout; [done | lia | lia].
  - destruct fuel' as [|fuel']; [rewrite !Hout; [done | lia | lia] |].
    rewrite !bubbleDown_loop_S.
    destruct (smallestOf_range heap j) as [-> | ?]; [by rewrite Nat.eqb_refl |].
    replace (smallestOf heap j =? j) with false by (symmetry; apply Nat.eqb_neq; lia).
    apply IH; rewrite swap_length; lia.
Qed.

(** ** [enqueue], [dequeue] and [dequeueById] keep the heap ordered *)

Lemma bubbleUp_heapOrdered heap j : upInv heap j -> heapOrdered (PQ.bubbleUp heap j).
Proof. intros. by apply bubbleUp_loop_heapOrdered. Qed.

Lemma bubbleDown_heapOrdered heap j : downInv heap j -> heapOrdered (PQ.bubbleDown heap j).
Proof. intros. by apply bubbleDown_loop_heapOrdered. Qed.

Lemma bubbleUp_Permutation heap j : PQ.bubbleUp heap j ≡ₚ heap.
Proof. apply bubbleUp_loop_Permutation. Qed.

Lemma bubbleDown_Permutation heap j : PQ.bubbleDown heap j ≡ₚ heap.
Proof. apply bubbleDown_loop_Permutation. Qed.

Lemma pop_snoc (l : list Order) x : PQ.pop (l ++ [x]) = (Some x, l).
Proof.
  unfold PQ.pop. rewrite last_snoc, length_app. simpl.
  replace (length l + 1 - 1) with (length l) by lia.
  by rewrite take_app_length.
Qed.

Lemma heapOrdered_nil : heapOrdered [].
Proof. intros i _ x p Hx. done. Qed.

Lemma heapOrdered_prefix (l : list Order) x : heapOrdered (l ++ [x]) -> heapOrdered l.
Proof.
  intros Hh i Hi y p Hy Hp. apply (Hh i Hi).
  - by apply lookup_app_l_Some.
  - by apply lookup_app_l_Some.
Qed.

Lemma enqueue_heapOrdered heap order :
  heapOrdered heap -> heapOrdered (PQ.enqueue heap order).
Proof.
  intros Hh. unfold PQ.enqueue. apply bubbleUp_heapOrdered.
  rewrite length_app. simpl. replace (length heap + 1 - 1) with (length heap) by lia.
  split.
  - intros i Hi Hne x p Hx Hp.
    assert (i < length heap) as Hlt.
    { apply lookup_lt_Some in Hx. rewrite length_app in Hx. simpl in Hx. lia. }
    pose proof (parent_lt i Hi).
    rewrite lookup_app_l in Hx, Hp by lia. by apply (Hh i Hi).
  - intros _ c x p Hc Hc0 Hx. apply lookup_lt_Some in Hx.
    rewrite length_app in Hx. simpl in Hx. apply parent_child in Hc; lia.
Qed.

Lemma enqueue_Permutation heap order : PQ.enqueue heap order ≡ₚ order :: heap.
Proof.
  unfold PQ.enqueue. rewrite bubbleUp_Permutation.
  by rewrite Permutation_app_comm.
Qed.

Lemma enqueueAll_heapOrdered orders : heapOrdered (PQ.enqueueAll orders).
Proof.
  unfold PQ.enqueueAll.
  assert (forall heap, heapOrdered heap -> heapOrdered (foldl PQ.enqueue heap orders)) as H.
  { induction orders as [|o orders IH]; intros heap Hh; simpl; [done |].
    apply IH. by apply enqueue_heapOrdered. }
  apply H, heapOrdered_nil.
Qed.

Lemma enqueueAll_Permutation orders : PQ.enqueueAll orders ≡ₚ orders.
Proof.
  unfold PQ.enqueueAll.
  assert (forall heap, foldl PQ.enqueue heap orders ≡ₚ heap ++ orders) as H.
  { induction orders as [|o orders IH]; intros heap; simpl; [by rewrite app_nil_r |].
    rewrite IH, enqueue_Permutation. simpl. apply Permutation_middle. }
  by rewrite H.
Qed.

(** The root is served no later than anything else in the heap. *)
Lemma root_minimal heap top :
  heapOrdered heap -> heap !! 0 = Some top ->
  forall i x, heap !! i = Some x -> servedBefore top x.
Proof.
  intros Hh Htop i. induction i as [i IH] using lt_wf_ind. intros x Hx.
  destruct (decide (i = 0)) as [->|Hi].
  - simplify_eq. apply servedBefore_refl.
  - assert (0 < i) as Hpos by lia. pose proof (parent_lt i Hpos) as Hp.
    assert ((i - 1) / 2 < length heap) as Hl.
    { apply lookup_lt_Some in Hx. lia. }
    destruct (lookup_lt_is_Some_2 heap _ Hl) as [p Hp'].
    apply servedBefore_trans with p; [by apply (IH _ Hp) | by apply (Hh i Hpos)].
Qed.

Lemma snoc_cases (l : list Order) : l = [] \/ exists l' x, l = l' ++ [x].
Proof.
  induction l as [|a l IH] using rev_ind; [by left | right; eauto].
Qed.

Lemma dequeue_spec heap :
  heapOrdered heap ->
  match PQ.dequeue heap with
  | (None, heap') => heap = [] /\ heap' = []
  | (Some top, heap') =>
      heap ≡ₚ top :: heap' /\ heapOrdered heap' /\ heap !! 0 = Some top
  end.
Proof.
  intros Hh. destruct heap as [|top rest]; [done |].
  destruct (snoc_cases rest) as [-> | (l & x & ->)].
  - simpl. split; [done | split; [apply heapOrdered_nil | done]].
  - assert (PQ.dequeue (top :: l ++ [x]) = (Some top, PQ.bubbleDown (x :: l) 0)) as ->.
    { unfold PQ.dequeue. change (top :: l ++ [x]) with ((top :: l) ++ [x]).
      rewrite pop_snoc. simpl. by destruct l. }
    split; [| split; [| done]].
    + rewrite bubbleDown_Permutation. constructor. by rewrite Permutation_app_comm.
    + apply bubbleDown_heapOrdered. split; [| intros ?; lia].
      intros i Hi Hne y p Hy Hp. apply (Hh i Hi).
      * destruct i; [lia |]. simpl in *. by apply lookup_app_l_Some.
      * destruct ((i - 1) / 2) eqn:E; [done |]. simpl in *. by apply lookup_app_l_Some.
Qed.

Lemma findIndex_Some id0 heap index :
  PQ.findIndex id0 heap = Some index ->
  exists o, heap !! index = Some o /\ id o = id0 /\
            forall j y, heap !! j = Some y -> j < index -> id y <> id0.
Proof.
  unfold PQ.findIndex. destruct (list_find _ heap) as [[i o]|] eqn:Hf; [| done].
  simpl. intros [= <-]. apply list_find_Some in Hf. eauto.
Qed.

Lemma findIndex_None id0 heap :
  PQ.findIndex id0 heap = None <-> forall o, o ∈ heap -> id o <> id0.
Proof.
  unfold PQ.findIndex. destruct (list_find _ heap) as [[i o]|] eqn:Hf; simpl.
  - split; [done |]. intros H. apply list_find_Some in Hf as (Hl & Hid & _).
    exfalso. apply (H o); [by eapply list_elem_of_lookup_2 | done].
  - split; [| done]. intros _. apply list_find_None in Hf.
    by apply Forall_forall.
Qed.

(** What [dequeueById] computes once the index is known: the last slot is
    popped, any other slot receives the popped order and is repaired. *)
Lemma dequeueById_last l x id0 :
  PQ.findIndex id0 (l ++ [x]) = Some (length l) ->
  PQ.dequeueById (l ++ [x]) id0 = (Some x, l).
Proof.
  intros Hf. unfold PQ.dequeueById. rewrite Hf, pop_snoc, length_app.
  cbn [length snd]. rewrite decide_False by lia.
  rewrite lookup_app_r, Nat.sub_diag by lia. done.
Qed.

Lemma dequeueById_inner l x id0 index :
  PQ.findIndex id0 (l ++ [x]) = Some index -> index < length l ->
  PQ.dequeueById (l ++ [x]) id0 =
    (l !! index, PQ.bubbleUp (PQ.bubbleDown (<[index := x]> l) index) index).
Proof.
  intros Hf Hlt. unfold PQ.dequeueById. rewrite Hf, pop_snoc, length_app.
  cbn [length]. rewrite decide_True by lia.
  by rewrite lookup_app_l.
Qed.

Lemma insert_Permutation (l : list Order) i x o :
  l !! i = Some o -> o :: <[i := x]> l ≡ₚ l ++ [x].
Proof.
  intros Hl. pose proof (lookup_lt_Some _ _ _ Hl) as Hlt.
  rewrite insert_take_drop by done.
  rewrite <- (take_drop_middle l i o Hl) at 3.
  rewrite (Permutation_app_comm _ [x]). simpl.
  rewrite <- !Permutation_middle. apply perm_swap.
Qed.

Lemma dequeueById_found heap id0 index :
  PQ.findIndex id0 heap = Some index ->
  exists o heap',
    PQ.dequeueById heap id0 = (Some o, heap') /\
    heap !! index = Some o /\ id o = id0 /\ heap ≡ₚ o :: heap'.
Proof.
  intros Hf. destruct (findIndex_Some _ _ _ Hf) as (o & Ho & Hid & _).
  pose proof (lookup_lt_Some _ _ _ Ho) as Hlt.
  destruct (snoc_cases heap) as [-> | (l & x & ->)]; [done |].
  rewrite length_app in Hlt. simpl in Hlt.
  destruct (decide (index = length l)) as [-> | Hne].
  - rewrite (dequeueById_last _ _ _ Hf).
    rewrite lookup_app_r, Nat.sub_diag in Ho by lia. simplify_eq/=.
    exists o, l. repeat split; try done.
    + by rewrite lookup_app_r, Nat.sub_diag.
    + by rewrite Permutation_app_comm.
  - rewrite (dequeueById_inner _ _ _ _ Hf) by lia.
    rewrite lookup_app_l in Ho by lia.
    exists o, (PQ.bubbleUp (PQ.bubbleDown (<[index := x]> l) index) index).
    rewrite Ho. repeat split; try done.
    + by rewrite lookup_app_l by lia.
    + rewrite bubbleUp_Permutation, bubbleDown_Permutation.
      symmetry. by apply insert_Permutation.
Qed.

Lemma dequeueById_missing heap id0 :
  PQ.findIndex id0 heap = None -> PQ.dequeueById heap id0 = (None, heap).
Proof. intros Hf. unfold PQ.dequeueById. by rewrite Hf. Qed.

Lemma bubbleDown_id heap j :
  j < length heap ->
  (forall c x y, (c - 1) / 2 = j -> 0 < c -> heap !! c = Some x -> heap !! j = Some y ->
                 servedBefore y x) ->
  PQ.bubbleDown heap j = heap.
Proof.
  intros Hj Hmin. unfold PQ.bubbleDown.
  destruct (length heap - j) as [|fuel]; [done |].
  rewrite bubbleDown_loop_S.
  destruct (smallestOf_cases heap j Hj) as [[-> _] | (Hs & Hsl & Hprec & _)].
  - by rewrite Nat.eqb_refl.
  - destruct (precedes_true _ _ _ Hprec) as (a & b & Ha & Hb & Hlt).
    assert (servedBefore b a) as Hle.
    { apply (Hmin (smallestOf heap j)); try done; [apply parent_child |]; lia. }
    unfold servedBefore in Hle. rewrite (compare_antisym a b) in Hle. lia.
Qed.

(** After the popped order [x] has overwritten slot [index], one of the
    two repairs applies and the other is the identity. *)
Lemma repair_heapOrdered (l : list Order) x index :
  heapOrdered (l ++ [x]) -> index < length l ->
  heapOrdered (PQ.bubbleUp (PQ.bubbleDown (<[index := x]> l) index) index).
Proof.
  intros Hh Hlt. pose proof (heapOrdered_prefix _ _ Hh) as Hl.
  set (h1 := <[index := x]> l).
  assert (length h1 = length l) as Hlen by apply length_insert.
  assert (h1 !! index = Some x) as Hx by by apply list_lookup_insert_eq.
  assert (forall i, i <> index -> h1 !! i = l !! i) as Hother.
  { intros i Hi. by apply list_lookup_insert_ne. }
  destruct (lookup_lt_is_Some_2 l index Hlt) as [o Ho].
  assert (forall i, 0 < i -> i <> index -> (i - 1) / 2 <> index -> edgeOk h1 i) as Hedges.
  { intros i Hi H1 H2 y p. rewrite !Hother by done. by apply (Hl i). }
  assert (grandsOk h1 index) as Hgrands.
  { intros Hpos c y p Hc Hc0. pose proof (parent_lt c Hc0). pose proof (parent_lt index Hpos).
    rewrite !Hother by lia. intros Hy Hp.
    apply servedBefore_trans with o; [by apply (Hl index Hpos) |].
    apply (Hl c Hc0); [done | by rewrite Hc]. }
  assert (edgeOk h1 index \/
          exists p, 0 < index /\ h1 !! ((index - 1) / 2) = Some p /\ (PQ.compare x p < 0)%Z)
    as [Hedge | (p & Hpos & Hp & Hlt')].
  { destruct (h1 !! ((index - 1) / 2)) as [p|] eqn:Hp.
    - destruct (decide (0 < index)) as [Hpos|Hpos].
      + destruct (Z_lt_dec (PQ.compare x p) 0) as [Hc|Hc]; [right; eauto |].
        left. intros y q Hy Hq. simplify_eq.
        match goal with |- servedBefore ?a ?b =>
          unfold servedBefore; rewrite (compare_antisym b a); lia end.
      + left. intros y q Hy Hq. replace index with 0 in * by lia.
        change ((0 - 1) / 2) with 0 in Hq.
        simplify_eq. apply servedBefore_refl.
    - left. intros y q Hy Hq. congruence. }
  - apply bubbleUp_heapOrdered, heapOrdered_upInv, bubbleDown_heapOrdered.
    split; [| done]. intros i Hi Hne.
    destruct (decide (i = index)) as [-> | Hi']; [done | by apply Hedges].
  - assert (forall c y z, (c - 1) / 2 = index -> 0 < c -> h1 !! c = Some y ->
                          h1 !! index = Some z -> servedBefore z y) as Hmin.
    { intros c y z Hc Hc0 Hy Hz. rewrite Hx in Hz. injection Hz as <-.
      pose proof (Hgrands Hpos c y p Hc Hc0 Hy Hp) as Hpy.
      apply servedBefore_trans with p; [unfold servedBefore; lia | done]. }
    rewrite bubbleDown_id by (done || lia).
    apply bubbleUp_heapOrdered. split; [| done].
    intros i Hi Hne. destruct (decide ((i - 1) / 2 = index)) as [Hc | Hc].
    + intros y z Hy Hz. rewrite Hc in Hz. by apply (Hmin i).
    + by apply Hedges.
Qed.

Lemma dequeueById_heapOrdered heap id0 :
  heapOrdered heap -> heapOrdered (snd (PQ.dequeueById heap id0)).
Proof.
  intros Hh. destruct (PQ.findIndex id0 heap) as [index|] eqn:Hf.
  - destruct (findIndex_Some _ _ _ Hf) as (o & Ho & _).
    pose proof (lookup_lt_Some _ _ _ Ho) as Hlt.
    destruct (snoc_cases heap) as [-> | (l & x & ->)]; [done |].
    rewrite length_app in Hlt. simpl in Hlt.
    destruct (decide (index = length l)) as [-> | Hne].
    + rewrite (dequeueById_last _ _ _ Hf). simpl. by eapply heapOrdered_prefix.
    + rewrite (dequeueById_inner _ _ _ _ Hf) by lia. simpl.
      apply repair_heapOrdered; [done | lia].
  - by rewrite dequeueById_missing.
Qed.

(** ** Draining the queue *)

Lemma drain_loop_spec fuel : forall heap,
  length heap <= fuel -> heapOrdered heap ->
  PQ.drain_loop fuel heap ≡ₚ heap /\ StronglySorted servedBefore (PQ.drain_loop fuel heap).
Proof.
  induction fuel as [|fuel IH]; intros heap Hfuel Hh.
  - destruct heap; [| simpl in Hfuel; lia]. split; [done | constructor].
  - cbn [PQ.drain_loop]. pose proof (dequeue_spec heap Hh) as Hd.
    destruct (PQ.dequeue heap) as [[top|] heap'].
    + destruct Hd as (Hperm & Hh' & Htop).
      assert (length heap' <= fuel) as Hlen.
      { apply Permutation_length in Hperm. simpl in Hperm. lia. }
      destruct (IH heap' Hlen Hh') as [Hp Hs]. split.
      * by rewrite Hp, Hperm.
      * constructor; [done |]. apply Forall_forall. intros y Hy.
        rewrite Hp in Hy.
        assert (y ∈ heap) as Hin by (rewrite Hperm; by right).
        apply list_elem_of_lookup in Hin as [i Hi].
        exact (root_minimal heap top Hh Htop i y Hi).
    + destruct Hd as [-> _]. split; [done | constructor].
Qed.

Lemma dequeue_length heap :
  match PQ.dequeue heap with
  | (None, heap') => heap = [] /\ heap' = []
  | (Some _, heap') => S (length heap') = length heap
  end.
Proof.
  destruct heap as [|top rest]; [done |].
  destruct (snoc_cases rest) as [-> | (l & x & ->)]; [done |].
  assert (PQ.dequeue (top :: l ++ [x]) = (Some top, PQ.bubbleDown (x :: l) 0%nat)) as ->.
  { unfold PQ.dequeue. change (top :: l ++ [x]) with ((top :: l) ++ [x]).
    rewrite pop_snoc. simpl. by destruct l. }
  rewrite (Permutation_length (bubbleDown_Permutation _ _)).
  simpl. rewrite length_app. simpl. lia.
Qed.

(** More fuel than the queue is long changes nothing: [dequeue] has
    returned [null] by then. *)
Lemma drain_loop_fuel fuel : forall fuel' heap,
  (length heap <= fuel)%nat -> (length heap <= fuel')%nat ->
  PQ.drain_loop fuel heap = PQ.drain_loop fuel' heap.
Proof.
  induction fuel as [|fuel IH]; intros fuel' heap Hfuel Hfuel'.
  - destruct heap; [| simpl in Hfuel; lia]. by destruct fuel'.
  - destruct fuel' as [|fuel'].
    { destruct heap; [done | simpl in Hfuel'; lia]. }
    cbn [PQ.drain_loop]. pose proof (dequeue_length heap) as Hlen.
    destruct (PQ.dequeue heap) as [[o|] heap']; [| done].
    f_equal. apply IH; lia.
Qed.

Lemma StronglySorted_lookup_lt {A} (R : A -> A -> Prop) (l : list A) i j a b :
  StronglySorted R l -> i < j -> l !! i = Some a -> l !! j = Some b -> R a b.
Proof.
  intros Hs. revert i j. induction Hs as [|x l Hs IH Hall]; intros i j Hij Ha Hb; [done |].
  destruct j as [|j]; [lia |]. destruct i as [|i]; simpl in *.
  - simplify_eq. rewrite Forall_forall in Hall. apply Hall.
    by eapply list_elem_of_lookup_2.
  - apply (IH i j); [lia | done | done].
Qed.

(** C4 (queue ordering).  Whatever orders are enqueued, in whatever
    sequence, dequeuing until the queue is empty hands out exactly those
    orders, no Emergency order after a Resupply order, and within one
    priority class never an earlier arrival after a later one. *)
Theorem queue_ordering (orders : list Order) :
  let out := PQ.drain (PQ.enqueueAll orders) in
  out ≡ₚ orders /\
  forall i j a b, i < j -> out !! i = Some a -> out !! j = Some b ->
    (priority a = Resupply -> priority b = Resupply) /\
    (priority a = priority b -> (time a <= time b)%Z).
Proof.
  intros out.
  destruct (drain_loop_spec (length (PQ.enqueueAll orders)) (PQ.enqueueAll orders))
    as [Hperm Hsorted]; [done | apply enqueueAll_heapOrdered |].
  fold (PQ.drain (PQ.enqueueAll orders)) in Hperm, Hsorted. fold out in Hperm, Hsorted.
  split; [by rewrite Hperm, enqueueAll_Permutation |].
  intros i j a b Hij Ha Hb.
  pose proof (StronglySorted_lookup_lt _ _ _ _ _ _ Hsorted Hij Ha Hb) as Hab.
  apply compare_key in Hab.
  destruct Hab as [Hlt | [Heq Hle]];
    destruct (priority a), (priority b); simpl in *; split; intros;
    try done; try lia.
Qed.

(** C5 (removal correctness).  On an ordered heap that holds an order
    with the given id, [dequeueById] returns the first such order of the
    array, the heap that is left holds every other slot's order and
    nothing else, it is ordered again, and it is one shorter.  On a heap
    without the id the call returns [null] and the heap is the same. *)
Theorem removal_correctness (heap : PQ.t) (id0 : string) :
  heapOrdered heap ->
  let '(removed, heap') := PQ.dequeueById heap id0 in
  (forall o, o ∈ heap -> id o = id0 ->
     exists index o',
       heap !! index = Some o' /\ id o' = id0 /\
       (forall j y, heap !! j = Some y -> j < index -> id y <> id0) /\
       removed = Some o' /\
       heap' ≡ₚ delete index heap /\
       heapOrdered heap' /\
       PQ.size heap' = PQ.size heap - 1) /\
  ((forall o, o ∈ heap -> id o <> id0) -> removed = None /\ heap' = heap).
Proof.
  intros Hh. pose proof (dequeueById_heapOrdered heap id0 Hh) as Hh'.
  destruct (PQ.findIndex id0 heap) as [index|] eqn:Hf.
  - destruct (dequeueById_found _ _ _ Hf) as (o' & heap' & Hd & Ho' & Hid & Hperm).
    destruct (findIndex_Some _ _ _ Hf) as (o'' & Ho'' & _ & Hfirst).
    rewrite Hd in *. simpl in Hh'. split.
    + intros o Ho Hido. exists index, o'. repeat split; try done.
      * apply (Permutation_cons_inv (a := o')). rewrite <- Hperm.
        by apply delete_Permutation.
      * apply Permutation_length in Hperm. unfold PQ.size. simpl in Hperm. lia.
    + intros Hnone. exfalso. apply (Hnone o'); [by eapply list_elem_of_lookup_2 | done].
  - rewrite dequeueById_missing by done. split; [| done].
    intros o Ho Hido. exfalso. by apply (proj1 (findIndex_None id0 heap) Hf o).
Qed.

Lemma removal_correctness_witness :
  let heap := PQ.enqueueAll
    [mkOrder "r1" (mkHospital "A" 1000 1000) Resupply 5;
     mkOrder "e1" (mkHospital "B" 2000 2000) Emergency 9;
     mkOrder "r2" (mkHospital "C" 3000 3000) Resupply 2;
     mkOrder "e2" (mkHospital "A" 1000 1000) Emergency 3] in
  heapOrdered heap /\
  let '(removed, heap') := PQ.dequeueById heap "e1" in
  (forall o, o ∈ heap -> id o = "e1" ->
     exists index o',
       heap !! index = Some o' /\ id o' = "e1" /\
       (forall j y, heap !! j = Some y -> j < index -> id y <> "e1") /\
       removed = Some o' /\
       heap' ≡ₚ delete index heap /\
       heapOrdered heap' /\
       PQ.size heap' = PQ.size heap - 1) /\
  ((forall o, o ∈ heap -> id o <> "e1") -> removed = None /\ heap' = heap).
Proof.
  intros heap. split; [apply enqueueAll_heapOrdered |].
  apply (removal_correctness heap "e1"), enqueueAll_heapOrdered.
Defined.

Example dequeueById_example :
  PQ.dequeueById
    (PQ.enqueueAll
      [mkOrder "r1" (mkHospital "A" 1000 1000) Resupply 5;
       mkOrder "e1" (mkHospital "B" 2000 2000) Emergency 9;
       mkOrder "r2" (mkHospital "C" 3000 3000) Resupply 2;
       mkOrder "e2" (mkHospital "A" 1000 1000) Emergency 3]) "e1"
  = (Some (mkOrder "e1" (mkHospital "B" 2000 2000) Emergency 9),
     [mkOrder "e2" (mkHospital "A" 1000 1000) Emergency 3;
      mkOrder "r1" (mkHospital "A" 1000 1000) Resupply 5;
      mkOrder "r2" (mkHospital "C" 3000 3000) Resupply 2]).
Proof. vm_compute. reflexivity. Qed.

(** ** Distances *)

Local Open Scope R_scope.

Lemma calculateDistance_nonneg a b : 0 <= calculateDistance a b.
Proof. unfold calculateDistance. apply sqrt_pos. Qed.

Lemma calculateDistance_sym a b : calculateDistance a b = calculateDistance b a.
Proof. unfold calculateDistance. f_equal. ring. Qed.

Local Close Scope R_scope.

Lemma toArray_id heap : PQ.toArray heap = heap.
Proof. unfold PQ.toArray. apply list_fmap_id. Qed.

(** ** Choosing the next stop *)

Lemma indexOf_elem_of availableOrders order :
  order ∈ availableOrders ->
  exists i, indexOf availableOrders order = Some i /\ availableOrders !! i = Some order.
Proof.
  intros Hin. unfold indexOf.
  destruct (list_find_elem_of (fun o => o = order) availableOrders order Hin eq_refl)
    as [[i y] Hf].
  rewrite Hf. apply list_find_Some in Hf as (Hl & -> & _). simpl. eauto.
Qed.

Lemma findNearestOrder_scan availableOrders currentLocation rest : forall seen acc,
  nearestOf availableOrders currentLocation seen acc ->
  nearestOf availableOrders currentLocation (seen ++ rest)
    (foldl (nearestStep availableOrders currentLocation) acc rest).
Proof.
  induction rest as [|o rest IH]; intros seen acc Hacc; simpl.
  - by rewrite app_nil_r.
  - replace (seen ++ o :: rest) with ((seen ++ [o]) ++ rest) by by rewrite <- app_assoc.
    apply IH. unfold nearestStep.
    destruct acc as [[[o0 i0] d0]|]; simpl in *.
    + destruct Hacc as (Hin & Hi & Hd & Hmin). case_decide as Hlt; simpl.
      * repeat split; [set_solver | ].
        intros o' [Ho' | Ho']%elem_of_app.
        -- specialize (Hmin o' Ho'). lra.
        -- apply list_elem_of_singleton in Ho' as ->. lra.
      * repeat split; [set_solver | done | done |].
        intros o' [Ho' | Ho']%elem_of_app; [by apply Hmin |].
        apply list_elem_of_singleton in Ho' as ->. lra.
    + subst seen. repeat split; [set_solver |].
      intros o' Ho'. apply list_elem_of_singleton in Ho' as ->. simpl. lra.
Qed.

Lemma findNearestOrder_spec availableOrders currentLocation pool :
  nearestOf availableOrders currentLocation pool
    (findNearestOrder availableOrders currentLocation pool).
Proof. apply (findNearestOrder_scan _ _ pool [] None). done. Qed.

(** The order the planning loop looks at next. *)
Lemma selectOrder_spec availableOrders currentLocation :
  match selectOrder availableOrders currentLocation with
  | None => availableOrders = []
  | Some (o, i, d) =>
      (exists index, i = Some index /\ availableOrders !! index = Some o) /\
      d = calculateDistance currentLocation (locationOf (hospital o)) /\
      ((exists e, e ∈ availableOrders /\ priority e = Emergency) ->
       priority o = Emergency) /\
      (forall o', o' ∈ availableOrders -> priority o' = priority o ->
         (d <= calculateDistance currentLocation (locationOf (hospital o')))%R)
  end.
Proof.
  unfold selectOrder.
  pose proof (findNearestOrder_spec availableOrders currentLocation
    (filter (fun o => priority o = Emergency) availableOrders)) as He.
  pose proof (findNearestOrder_spec availableOrders currentLocation
    (filter (fun o => priority o <> Emergency) availableOrders)) as Hn.
  destruct (findNearestOrder _ _ (filter (fun o => priority o = Emergency) _))
    as [[[o i] d]|].
  - destruct He as (Hin & Hi & Hd & Hmin).
    apply list_elem_of_filter in Hin as [Hp Hin].
    split; [| split; [done | split; [done |]]].
    + destruct (indexOf_elem_of _ _ Hin) as (index & Hidx & Hl). exists index.
      split; [congruence | done].
    + intros o' Ho' Hp'. apply Hmin. apply list_elem_of_filter. split; congruence.
  - simpl in He.
    destruct (findNearestOrder _ _ (filter (fun o => priority o <> Emergency) _))
      as [[[o i] d]|].
    + destruct Hn as (Hin & Hi & Hd & Hmin).
      apply list_elem_of_filter in Hin as [Hp Hin].
      split; [| split; [done | split]].
      * destruct (indexOf_elem_of _ _ Hin) as (index & Hidx & Hl). exists index.
        split; [congruence | done].
      * intros (e & Hein & Hep). exfalso.
        assert (e ∈ filter (fun o => priority o = Emergency) availableOrders) as H
          by (by apply list_elem_of_filter).
        rewrite He in H. by apply elem_of_nil in H.
      * intros o' Ho' Hp'. apply Hmin. apply list_elem_of_filter. split; congruence.
    + simpl in Hn. destruct availableOrders as [|o l]; [done |]. exfalso.
      destruct (decide (priority o = Emergency)) as [Hp | Hp].
      * assert (o ∈ filter (fun o => priority o = Emergency) (o :: l)) as H
          by (apply list_elem_of_filter; split; [done | by left]).
        rewrite He in H. by apply elem_of_nil in H.
      * assert (o ∈ filter (fun o => priority o <> Emergency) (o :: l)) as H
          by (apply list_elem_of_filter; split; [done | by left]).
        rewrite Hn in H. by apply elem_of_nil in H.
Qed.

(** ** The planning loop *)

Local Open Scope R_scope.

(** One turn of the loop, spelled out: the guard, the selection, and the
    two branches of the range test. *)
Lemma planFlight_loop_S fuel s flightOrders totalDistance currentLocation availableOrders :
  planFlight_loop (S fuel) s flightOrders totalDistance currentLocation availableOrders =
    if (length flightOrders <? maxPackagesPerZip s)%nat
       && (0 <? length availableOrders)%nat
    then
      match selectOrder availableOrders currentLocation with
      | Some (selectedOrder, Some selectedOrderIndex, nearestDistance) =>
          if decide (totalDistance + nearestDistance
                     + calculateDistance (locationOf (hospital selectedOrder)) Nest
                     <= zipMaxCumulativeRangeM s)
          then planFlight_loop fuel s (flightOrders ++ [selectedOrder])
                 (totalDistance + nearestDistance)
                 (locationOf (hospital selectedOrder))
                 (delete selectedOrderIndex availableOrders)
          else planFlight_loop fuel s flightOrders totalDistance currentLocation
                 (delete selectedOrderIndex availableOrders)
      | _ => (flightOrders, totalDistance, currentLocation)
      end
    else (flightOrders, totalDistance, currentLocation).
Proof. reflexivity. Qed.

(** Invariants of the planning loop: a property of the loop variables
    that survives the turn that appends the selected order and the turn
    that discards it holds when the loop is left. *)
Lemma planFlight_loop_invariant s
    (P : list Order -> R -> Location -> list Order -> Prop) :
  (forall fo td cur avail o index,
     P fo td cur avail ->
     (length fo < maxPackagesPerZip s)%nat ->
     selectOrder avail cur =
       Some (o, Some index, calculateDistance cur (locationOf (hospital o))) ->
     avail !! index = Some o ->
     td + calculateDistance cur (locationOf (hospital o))
        + calculateDistance (locationOf (hospital o)) Nest <= zipMaxCumulativeRangeM s ->
     P (fo ++ [o]) (td + calculateDistance cur (locationOf (hospital o)))
       (locationOf (hospital o)) (delete index avail)) ->
  (forall fo td cur avail o index,
     P fo td cur avail ->
     (length fo < maxPackagesPerZip s)%nat ->
     selectOrder avail cur =
       Some (o, Some index, calculateDistance cur (locationOf (hospital o))) ->
     avail !! index = Some o ->
     ~ (td + calculateDistance cur (locationOf (hospital o))
        + calculateDistance (locationOf (hospital o)) Nest <= zipMaxCumulativeRangeM s) ->
     P fo td cur (delete index avail)) ->
  forall fuel fo td cur avail,
    P fo td cur avail ->
    exists avail',
      P (fst (fst (planFlight_loop fuel s fo td cur avail)))
        (snd (fst (planFlight_loop fuel s fo td cur avail)))
        (snd (planFlight_loop fuel s fo td cur avail)) avail'.
Proof.
  intros Hadd Hskip. induction fuel as [|fuel IH]; intros fo td cur avail HP.
  - simpl. eauto.
  - rewrite planFlight_loop_S.
    destruct (length fo <? maxPackagesPerZip s)%nat eqn:Hlen; [| simpl; eauto].
    apply Nat.ltb_lt in Hlen.
    destruct (0 <? length avail)%nat; [| simpl; eauto]. cbn [andb].
    pose proof (selectOrder_spec avail cur) as Hsel.
    destruct (selectOrder avail cur) as [[[o [index|]] d]|] eqn:Hs; [| simpl; eauto ..].
    destruct Hsel as ((index' & [= <-] & Hl) & -> & _).
    case_decide as Hrange.
    + apply IH. by apply (Hadd fo td cur avail o index).
    + apply IH. by apply (Hskip fo td cur avail o index).
Qed.

Lemma planFlight_loop_prefix s fuel fo td cur avail :
  exists more, fst (fst (planFlight_loop fuel s fo td cur avail)) = fo ++ more.
Proof.
  destruct (planFlight_loop_invariant s (fun fo' _ _ _ => exists more, fo' = fo ++ more))
    with (fuel := fuel) (fo := fo) (td := td) (cur := cur) (avail := avail) as [_ H].
  - intros fo' _ _ _ o _ [more ->] _ _ _ _. exists (more ++ [o]). by rewrite app_assoc.
  - by intros fo' _ _ _ _ _ H _ _ _ _.
  - exists []. by rewrite app_nil_r.
  - done.
Qed.

(** More fuel than [availableOrders] is long changes nothing: the loop
    has left through its guard or a [break] by then. *)
Lemma planFlight_loop_fuel s fuel : forall fuel' fo td cur avail,
  (length avail <= fuel)%nat -> (length avail <= fuel')%nat ->
  planFlight_loop fuel s fo td cur avail = planFlight_loop fuel' s fo td cur avail.
Proof.
  assert (forall fuel fo td cur, planFlight_loop fuel s fo td cur [] = (fo, td, cur)) as Hnil.
  { intros [|f] fo td cur; [done |]. rewrite planFlight_loop_S. simpl.
    by rewrite andb_false_r. }
  induction fuel as [|fuel IH]; intros fuel' fo td cur avail Hfuel Hfuel'.
  - destruct avail; [| simpl in Hfuel; lia]. by rewrite !Hnil.
  - destruct fuel' as [|fuel'].
    { destruct avail; [| simpl in Hfuel'; lia]. by rewrite !Hnil. }
    rewrite !planFlight_loop_S.
    destruct ((length fo <? maxPackagesPerZip s)%nat && (0 <? length avail)%nat); [| done].
    pose proof (selectOrder_spec avail cur) as Hsel.
    destruct (selectOrder avail cur) as [[[o [index|]] d]|]; [| done ..].
    destruct Hsel as ((index' & [= <-] & Hl) & _).
    assert (length (delete index avail) = length avail - 1)%nat as Hlen
      by (apply length_delete; eauto).
    pose proof (lookup_lt_Some _ _ _ Hl).
    case_decide; apply IH; lia.
Qed.

(** What [planFlight] returns for an array of pending orders: at most
    [maxPackagesPerZip] stops, each taken from a different slot of the
    array, and either no stop and distance 0, or a round trip within the
    range. *)
Lemma planFlightFrom_spec s avail :
  let '(flightOrders, totalDistance) := planFlightFrom s avail in
  (length flightOrders <= maxPackagesPerZip s)%nat /\
  flightOrders ⊆+ avail /\
  ((flightOrders = [] /\ totalDistance = 0) \/
   (flightOrders <> [] /\ totalDistance <= zipMaxCumulativeRangeM s)).
Proof.
  unfold planFlightFrom.
  destruct (planFlight_loop_invariant s (fun fo td cur av =>
      (length fo <= maxPackagesPerZip s)%nat /\ fo ++ av ⊆+ avail /\
      ((fo = [] /\ td = 0) \/
       (fo <> [] /\ td + calculateDistance cur Nest <= zipMaxCumulativeRangeM s))))
    with (fuel := length avail) (fo := @nil Order) (td := 0) (cur := Nest) (avail := avail)
    as [av (Hlen & Hsub & Hrange)].
  - intros fo td cur av o index (Hlen & Hsub & Hrange) Hlt Hsel Hl Hle.
    split; [rewrite length_app; simpl; lia | split].
    + rewrite <- Hsub, <- app_assoc. apply submseteq_app; [done |].
      simpl. by rewrite <- (delete_Permutation av index o Hl).
    + right. split; [by destruct fo | done].
  - intros fo td cur av o index (Hlen & Hsub & Hrange) Hlt Hsel Hl Hle.
    split; [done | split; [| done]].
    rewrite <- Hsub. apply submseteq_app; [done |].
    apply sublist_submseteq, sublist_delete.
  - split; [simpl; lia | split; [done | by left]].
  - destruct (planFlight_loop (length avail) s [] 0 Nest avail) as [[fo td] cur].
    simpl in *. destruct (0 <? length fo)%nat eqn:Hpos.
    + split; [done | split].
      * rewrite <- Hsub. by apply submseteq_inserts_r.
      * right. destruct Hrange as [[-> _] | [Hne Hr]]; [done | done].
    + split; [done | split].
      * rewrite <- Hsub. by apply submseteq_inserts_r.
      * apply Nat.ltb_ge in Hpos. destruct fo; [| simpl in Hpos; lia].
        left. destruct Hrange as [[_ ->] | [Hne _]]; done.
Qed.

(** With an Emergency order pending and every pending order admitted by
    [queueOrder], a flight that has stops starts with an Emergency order. *)
Lemma planFlightFrom_emergency_first s avail :
  (forall o, o ∈ avail -> withinRange s o) ->
  (exists e, e ∈ avail /\ priority e = Emergency) ->
  fst (planFlightFrom s avail) = [] \/
  exists o rest, fst (planFlightFrom s avail) = o :: rest /\ priority o = Emergency.
Proof.
  intros Hrange Hem. unfold planFlightFrom.
  destruct avail as [|a avail]; [destruct Hem as (e & He & _); by apply elem_of_nil in He |].
  cbn [length]. rewrite planFlight_loop_S. cbn [length].
  destruct (0 <? maxPackagesPerZip s)%nat eqn:Hmax; [| left; done].
  change (0 <? S (length avail))%nat with true. cbn [andb].
  pose proof (selectOrder_spec (a :: avail) Nest) as Hsel.
  destruct (selectOrder (a :: avail) Nest) as [[[o [index|]] d]|]; [| by left ..].
  destruct Hsel as ((index' & [= <-] & Hl) & -> & Hprio & _).
  specialize (Hprio Hem).
  assert (withinRange s o) as Ho by (apply Hrange; by eapply list_elem_of_lookup_2).
  unfold withinRange in Ho.
  rewrite decide_True.
  2:{ rewrite (calculateDistance_sym (locationOf (hospital o)) Nest). lra. }
  right.
  match goal with |- context [planFlight_loop ?f s ?fo ?td ?cur ?av] =>
    destruct (planFlight_loop_prefix s f fo td cur av) as [more Hmore];
    destruct (planFlight_loop f s fo td cur av) as [[fo' td'] cur'] end.
  simpl in Hmore. subst fo'. exists o, more.
  by destruct (0 <? length ([] ++ [o] ++ more))%nat.
Qed.

Local Close Scope R_scope.

(** ** Taking the planned orders out of the queue *)

Lemma dequeueById_submseteq heap id0 : snd (PQ.dequeueById heap id0) ⊆+ heap.
Proof.
  destruct (PQ.findIndex id0 heap) as [index|] eqn:Hf.
  - destruct (dequeueById_found _ _ _ Hf) as (o & heap' & -> & _ & _ & Hperm).
    simpl. rewrite Hperm. by apply submseteq_cons.
  - by rewrite dequeueById_missing.
Qed.

Lemma dequeueFlightOrders_fold flightOrders : forall heap log,
  foldl dequeueFlightOrder (heap, log) flightOrders =
    (fst (dequeueFlightOrders heap flightOrders),
     log ++ snd (dequeueFlightOrders heap flightOrders)).
Proof.
  unfold dequeueFlightOrders.
  induction flightOrders as [|o fo IH]; intros heap log; simpl.
  - by rewrite app_nil_r.
  - destruct (PQ.dequeueById heap (id o)) as [[r|] heap']; simpl.
    + by rewrite IH.
    + rewrite (IH heap' (log ++ _)), (IH heap' [_]). simpl. by rewrite <- app_assoc.
Qed.

Lemma dequeueFlightOrders_cons heap o flightOrders :
  dequeueFlightOrders heap (o :: flightOrders) =
    let '(removed, heap') := PQ.dequeueById heap (id o) in
    (fst (dequeueFlightOrders heap' flightOrders),
     (if removed is Some _ then [] else [FailedToDequeueOrder (id o)])
       ++ snd (dequeueFlightOrders heap' flightOrders)).
Proof.
  unfold dequeueFlightOrders at 1. simpl.
  destruct (PQ.dequeueById heap (id o)) as [[r|] heap']; apply dequeueFlightOrders_fold.
Qed.

Lemma dequeueFlightOrders_app heap fo1 fo2 :
  fst (dequeueFlightOrders heap (fo1 ++ fo2)) =
  fst (dequeueFlightOrders (fst (dequeueFlightOrders heap fo1)) fo2).
Proof.
  revert heap. induction fo1 as [|o fo1 IH]; intros heap; [done |].
  simpl. rewrite !dequeueFlightOrders_cons.
  destruct (PQ.dequeueById heap (id o)) as [r heap']. simpl. apply IH.
Qed.

Lemma dequeueFlightOrders_submseteq flightOrders : forall heap,
  fst (dequeueFlightOrders heap flightOrders) ⊆+ heap.
Proof.
  induction flightOrders as [|o fo IH]; intros heap; [done |].
  rewrite dequeueFlightOrders_cons.
  pose proof (dequeueById_submseteq heap (id o)) as Hsub.
  destruct (PQ.dequeueById heap (id o)) as [r heap']. simpl in *.
  by rewrite IH.
Qed.

Lemma dequeueFlightOrders_heapOrdered flightOrders : forall heap,
  heapOrdered heap -> heapOrdered (fst (dequeueFlightOrders heap flightOrders)).
Proof.
  induction flightOrders as [|o fo IH]; intros heap Hh; [done |].
  rewrite dequeueFlightOrders_cons.
  pose proof (dequeueById_heapOrdered heap (id o) Hh) as Hh'.
  destruct (PQ.dequeueById heap (id o)) as [r heap']. simpl in *. by apply IH.
Qed.

(** When the ids of the planned orders are among the ids in the queue,
    counted with multiplicity, every removal finds an order: nothing is
    logged and the queue shrinks by the number of planned orders. *)
Lemma dequeueFlightOrders_all_found flightOrders : forall heap,
  id <$> flightOrders ⊆+ id <$> heap ->
  snd (dequeueFlightOrders heap flightOrders) = [] /\
  length (fst (dequeueFlightOrders heap flightOrders)) + length flightOrders = length heap.
Proof.
  induction flightOrders as [|o fo IH]; intros heap Hsub; [done |].
  rewrite dequeueFlightOrders_cons.
  destruct (PQ.findIndex (id o) heap) as [index|] eqn:Hf.
  - destruct (dequeueById_found _ _ _ Hf) as (o' & heap' & -> & _ & Hid & Hperm).
    assert (id <$> fo ⊆+ id <$> heap') as Hsub'.
    { rewrite Hperm in Hsub. rewrite !fmap_cons, Hid in Hsub.
      by apply (submseteq_app_inv_l _ _ [id o]). }
    destruct (IH heap' Hsub') as [Hlog Hlen]. simpl. split; [done |].
    apply Permutation_length in Hperm. simpl in *. lia.
  - assert (id o ∈ id <$> heap) as Hin.
    { eapply elem_of_submseteq; [| exact Hsub]. rewrite fmap_cons. by left. }
    apply list_elem_of_fmap in Hin as (y & Hy & Hyin).
    exfalso. by apply (proj1 (findIndex_None _ _) Hf y).
Qed.

(** ** The dispatch loop *)

Lemma sameConfig_refl s : sameConfig s s.
Proof. by repeat split. Qed.

Lemma sameConfig_trans s1 s2 s3 : sameConfig s1 s2 -> sameConfig s2 s3 -> sameConfig s1 s3.
Proof. unfold sameConfig. intros (? & ? & ? & ?) (? & ? & ? & ?). repeat split; congruence. Qed.

Lemma planFlight_unfold s : planFlight s = planFlightFrom s (_unfulfilledOrders s).
Proof. unfold planFlight, getUnfulfilledOrders. by rewrite toArray_id. Qed.

Lemma countByPriority_pos s p :
  (0 < countByPriority s p)%nat <-> exists o, o ∈ _unfulfilledOrders s /\ priority o = p.
Proof.
  unfold countByPriority. rewrite toArray_id. split.
  - intros H. destruct (filter _ _) as [|o l] eqn:Hf; [simpl in H; lia |].
    assert (o ∈ filter (fun o => priority o = p) (_unfulfilledOrders s)) as Hin
      by (rewrite Hf; by left).
    apply list_elem_of_filter in Hin as [? ?]. eauto.
  - intros (o & Hin & Hp).
    assert (o ∈ filter (fun o => priority o = p) (_unfulfilledOrders s)) as Hin'
      by (by apply list_elem_of_filter).
    destruct (filter _ _); [by apply elem_of_nil in Hin' | simpl; lia].
Qed.

Lemma commitFlight_unfold s currentTime flightOrders totalDistance :
  commitFlight s currentTime flightOrders totalDistance =
    (newFlight currentTime flightOrders totalDistance,
     mkZipScheduler (numZips s) (maxPackagesPerZip s) (zipSpeedMps s)
       (zipMaxCumulativeRangeM s) (completeOrderCount s)
       (fst (dequeueFlightOrders (_unfulfilledOrders s) flightOrders))
       (activeFlights s ++
          [mkActiveFlight (calculateReturnTime s currentTime totalDistance)
             (newFlight currentTime flightOrders totalDistance)]),
     snd (dequeueFlightOrders (_unfulfilledOrders s) flightOrders)).
Proof.
  unfold commitFlight. by destruct (dequeueFlightOrders _ _).
Qed.

Lemma launchFlights_loop_S fuel s currentTime availableZips :
  launchFlights_loop (S fuel) s currentTime availableZips =
    if (0 <? availableZips)%Z && negb (PQ.isEmpty (_unfulfilledOrders s))
    then
      let emergencyCount := countByPriority s Emergency in
      let '(flightOrders, totalDistance) := planFlight s in
      if (length flightOrders =? 0)%nat then ([], s, [])
      else if (0 <? emergencyCount)%nat && (availableZips <? 1)%Z
      then ([], s, [SkippingEmergencyFlight
                      (numZips s - Z.of_nat (length (activeFlights s)))%Z])
      else if (emergencyCount =? 0)%nat && (availableZips <? RESERVED_EMERGENCY_ZIPS)%Z
      then ([], s, [])
      else
        let '(flight, s', log) := commitFlight s currentTime flightOrders totalDistance in
        let '(flights, s'', log') :=
          launchFlights_loop fuel s' currentTime (availableZips - 1)%Z in
        (flight :: flights, s'', log ++ log')
    else ([], s, []).
Proof. reflexivity. Qed.

(** Invariants of the dispatch loop: a property of the scheduler and of
    [availableZips] that survives a committed flight holds for every flight
    of the result. *)
Lemma launchFlights_loop_spec fuel : forall s currentTime availableZips,
  let '(flights, s', log) := launchFlights_loop fuel s currentTime availableZips in
  sameConfig s s' /\
  completeOrderCount s' = completeOrderCount s /\
  _unfulfilledOrders s' =
    fst (dequeueFlightOrders (_unfulfilledOrders s) (concat (orders <$> flights))) /\
  activeFlights s' = activeFlights s ++ (activeEntry s <$> flights) /\
  Forall (fun f => launchTime f = currentTime /\ orders f <> [] /\
                   (length (orders f) <= maxPackagesPerZip s)%nat /\
                   (totalDistance f <= zipMaxCumulativeRangeM s)%R /\
                   forall o, o ∈ orders f -> o ∈ _unfulfilledOrders s) flights /\
  (Z.of_nat (length flights) <= Z.max 0 availableZips)%Z /\
  log = [].
Proof.
  induction fuel as [|fuel IH]; intros s t a.
  - simpl. rewrite app_nil_r. repeat split; try done. lia.
  - rewrite launchFlights_loop_S.
    destruct (0 <? a)%Z eqn:Ha; cbn [andb];
      [| rewrite app_nil_r; repeat split; try done; simpl; lia].
    destruct (PQ.isEmpty (_unfulfilledOrders s)); cbn [negb];
      [rewrite app_nil_r; repeat split; try done; simpl; lia |].
    cbv zeta. rewrite planFlight_unfold.
    pose proof (planFlightFrom_spec s (_unfulfilledOrders s)) as Hplan.
    destruct (planFlightFrom s (_unfulfilledOrders s)) as [fo td].
    destruct Hplan as (Hlen & Hsub & Hrange).
    destruct (length fo =? 0)%nat eqn:Hfo;
      [rewrite app_nil_r; repeat split; try done; simpl; lia |].
    replace (a <? 1)%Z with false by lia. rewrite andb_false_r.
    destruct ((countByPriority s Emergency =? 0)%nat && (a <? RESERVED_EMERGENCY_ZIPS)%Z);
      [rewrite app_nil_r; repeat split; try done; simpl; lia |].
    rewrite commitFlight_unfold.
    match goal with |- context [launchFlights_loop fuel ?s1 t (a - 1)%Z] =>
      specialize (IH s1 t (a - 1)%Z); set (s1' := s1) in *;
      destruct (launchFlights_loop fuel s1' t (a - 1)%Z) as [[flights s''] log'] end.
    destruct IH as (Hcfg & Hcount & Hq & Hact & Hall & Hn & ->).
    assert (fo <> []) as Hne by (destruct fo; [done | done]).
    destruct (dequeueFlightOrders_all_found fo (_unfulfilledOrders s)) as [Hlog _];
      [by apply fmap_submseteq |].
    split; [apply sameConfig_trans with s1'; [by repeat split | done] |].
    split; [done |]. split; [| split; [| split; [| split]]].
    + rewrite Hq. simpl. by rewrite dequeueFlightOrders_app.
    + rewrite Hact. simpl. by rewrite <- app_assoc.
    + constructor.
      * simpl. split; [done | split; [done | split; [done | split]]].
        -- destruct Hrange as [[? _] | [_ ?]]; done.
        -- intros o Ho. eapply elem_of_submseteq; [exact Ho | exact Hsub].
      * eapply Forall_impl; [exact Hall |]. simpl.
        intros f (? & ? & ? & ? & Hin). repeat split; try done.
        intros o Ho. specialize (Hin o Ho).
        eapply elem_of_submseteq; [exact Hin |]. apply dequeueFlightOrders_submseteq.
    + simpl length. lia.
    + by rewrite Hlog.
Qed.

(** ** Release, and [launchFlights] as a whole *)

Lemma releaseFilter_spec currentTime entries : forall completed,
  releaseFilter currentTime entries completed =
    (filter (fun e => ~ (returnTime e <= currentTime)%R) entries,
     completed + sum_list (length ∘ orders ∘ flight <$>
                   filter (fun e => (returnTime e <= currentTime)%R) entries)).
Proof.
  induction entries as [|e entries IH]; intros completed; simpl.
  - by rewrite Nat.add_0_r.
  - rewrite !filter_cons. case_decide as Hle.
    + rewrite decide_False by tauto. rewrite IH. simpl. f_equal.
      symmetry. apply Nat.add_assoc.
    + rewrite decide_True by done. by rewrite IH.
Qed.

Lemma releaseReturningZips_spec s currentTime :
  releaseReturningZips s currentTime =
    mkZipScheduler (numZips s) (maxPackagesPerZip s) (zipSpeedMps s)
      (zipMaxCumulativeRangeM s)
      (completeOrderCount s +
         sum_list (length ∘ orders ∘ flight <$>
           filter (fun e => (returnTime e <= currentTime)%R) (activeFlights s)))
      (_unfulfilledOrders s)
      (filter (fun e => ~ (returnTime e <= currentTime)%R) (activeFlights s)).
Proof. unfold releaseReturningZips. by rewrite releaseFilter_spec. Qed.

Lemma launchFlights_spec s currentTime :
  let '(flights, s', log) := launchFlights s currentTime in
  sameConfig s s' /\
  _unfulfilledOrders s' =
    fst (dequeueFlightOrders (_unfulfilledOrders s) (concat (orders <$> flights))) /\
  activeFlights s' =
    activeFlights (releaseReturningZips s currentTime) ++ (activeEntry s <$> flights) /\
  Forall (fun f => launchTime f = currentTime /\ orders f <> [] /\
                   (length (orders f) <= maxPackagesPerZip s)%nat /\
                   (totalDistance f <= zipMaxCumulativeRangeM s)%R /\
                   forall o, o ∈ orders f -> o ∈ _unfulfilledOrders s) flights /\
  (Z.of_nat (length flights) <= Z.max 0 (availableAfterRelease s currentTime))%Z /\
  log = [].
Proof.
  unfold launchFlights, availableAfterRelease.
  set (s0 := releaseReturningZips s currentTime).
  assert (sameConfig s s0 /\ _unfulfilledOrders s0 = _unfulfilledOrders s) as [Hcfg Hq].
  { unfold s0. rewrite releaseReturningZips_spec. by repeat split. }
  destruct (PQ.isEmpty (_unfulfilledOrders s0)).
  - rewrite app_nil_r. repeat split; try done; try apply Hcfg. simpl. lia.
  - pose proof (launchFlights_loop_spec
      (Z.to_nat (numZips s0 - Z.of_nat (length (activeFlights s0)))) s0 currentTime
      (numZips s0 - Z.of_nat (length (activeFlights s0)))) as H.
    destruct (launchFlights_loop _ s0 currentTime _) as [[flights s'] log].
    destruct H as (Hcfg' & _ & Hq' & Hact & Hall & Hn & ->).
    destruct Hcfg as (Hc1 & Hc2 & Hc3 & Hc4).
    split; [by apply sameConfig_trans with s0 |].
    split; [by rewrite Hq', Hq |]. split; [| split; [| split; [| done]]].
    + rewrite Hact. f_equal. apply list_fmap_ext. intros i f _.
      unfold activeEntry, calculateReturnTime. by rewrite Hc3.
    + eapply Forall_impl; [exact Hall |]. simpl. rewrite Hq, Hc2, Hc4. tauto.
    + by rewrite <- Hc1.
Qed.

(** ** Reachable states *)

Lemma withinRange_config s s' o : sameConfig s s' -> withinRange s o -> withinRange s' o.
Proof. intros (_ & _ & _ & Hr). unfold withinRange. by rewrite Hr. Qed.

Lemma step_sameConfig s s' : step s s' -> sameConfig s s'.
Proof.
  intros [s0 o | s0 t | s0 t].
  - unfold queueOrder. case_decide; simpl; by repeat split.
  - rewrite releaseReturningZips_spec. by repeat split.
  - pose proof (launchFlights_spec s0 t) as H.
    destruct (launchFlights s0 t) as [[flights s1] log]. simpl. apply H.
Qed.

Lemma step_queueInv s s' : step s s' -> queueInv s -> queueInv s'.
Proof.
  intros Hstep [Hrange Hheap]. pose proof (step_sameConfig _ _ Hstep) as Hcfg.
  destruct Hstep as [s0 o | s0 t | s0 t].
  - unfold queueOrder in *.
    case_decide as Hfar; simpl in *; [done |]. split.
    + intros o' Ho'. simpl in Ho'. rewrite enqueue_Permutation in Ho'.
      apply elem_of_cons in Ho' as [-> | Ho']; [done | by apply Hrange].
    + by apply enqueue_heapOrdered.
  - rewrite releaseReturningZips_spec in *. done.
  - pose proof (launchFlights_spec s0 t) as H.
    destruct (launchFlights s0 t) as [[flights s1] log]. simpl in *.
    destruct H as (_ & Hq & _). split.
    + intros o Ho. rewrite Hq in Ho. apply (withinRange_config s0); [done |].
      apply Hrange.
      eapply elem_of_submseteq; [exact Ho | apply dequeueFlightOrders_submseteq].
    + rewrite Hq. by apply dequeueFlightOrders_heapOrdered.
Qed.

Lemma rtc_step_sameConfig s s' : rtc step s s' -> sameConfig s s'.
Proof.
  induction 1 as [|s1 s2 s3 Hstep _ IH]; [apply sameConfig_refl |].
  eapply sameConfig_trans; [by apply step_sameConfig | done].
Qed.

Lemma rtc_step_queueInv s s' : rtc step s s' -> queueInv s -> queueInv s'.
Proof.
  induction 1 as [|s1 s2 s3 Hstep _ IH]; [done |].
  intros H. apply IH. by eapply step_queueInv.
Qed.

Lemma reachable_queueInv s : reachable s -> queueInv s.
Proof.
  intros (n & m & v & r & Hrtc). eapply rtc_step_queueInv; [exact Hrtc |].
  split; [intros o Ho; by apply elem_of_nil in Ho | apply heapOrdered_nil].
Qed.

Lemma reachable_step s s' : reachable s -> rtc step s s' -> reachable s'.
Proof.
  intros (n & m & v & r & Hrtc) Hrtc'. exists n, m, v, r. by etrans.
Qed.

(** ** The emergency reservation *)

Lemma countByPriority_zero s p :
  countByPriority s p = 0 <-> forall o, o ∈ _unfulfilledOrders s -> priority o <> p.
Proof.
  split.
  - intros H o Ho Hp.
    assert (0 < countByPriority s p) by (apply countByPriority_pos; eauto). lia.
  - intros H. destruct (countByPriority s p) eqn:E; [done |].
    assert (0 < countByPriority s p) as Hpos by lia.
    apply countByPriority_pos in Hpos as (o & Ho & Hp). by destruct (H o Ho).
Qed.

(** In the loop, a flight without an Emergency stop is committed only
    with [RESERVED_EMERGENCY_ZIPS] or more Zips available. *)
Lemma launchFlights_loop_reservation fuel : forall s currentTime availableZips,
  (forall o, o ∈ _unfulfilledOrders s -> withinRange s o) ->
  forall k f,
    fst (fst (launchFlights_loop fuel s currentTime availableZips)) !! k = Some f ->
    Forall (fun o => priority o = Resupply) (orders f) ->
    (RESERVED_EMERGENCY_ZIPS <= availableZips - Z.of_nat k)%Z.
Proof.
  induction fuel as [|fuel IH]; intros s t a Hrange k f; [done |].
  rewrite launchFlights_loop_S.
  destruct ((0 <? a)%Z && negb (PQ.isEmpty (_unfulfilledOrders s))); [| done].
  cbv zeta. rewrite planFlight_unfold.
  pose proof (planFlightFrom_emergency_first s (_unfulfilledOrders s) Hrange) as Hfirst.
  destruct (planFlightFrom s (_unfulfilledOrders s)) as [fo td]. simpl in Hfirst.
  destruct (length fo =? 0)%nat eqn:Hfo; [done |].
  destruct ((0 <? countByPriority s Emergency)%nat && (a <? 1)%Z); [done |].
  destruct (countByPriority s Emergency =? 0)%nat eqn:Hem; cbn [andb].
  - destruct (a <? RESERVED_EMERGENCY_ZIPS)%Z eqn:Hres; [done |].
    rewrite commitFlight_unfold.
    match goal with |- context [launchFlights_loop fuel ?s1 t (a - 1)%Z] =>
      specialize (IH s1 t (a - 1)%Z); set (s1' := s1) in *;
      destruct (launchFlights_loop fuel s1' t (a - 1)%Z) as [[flights s''] log'] end.
    simpl. destruct k as [|k]; simpl; [intros _ _; lia |].
    intros Hk Hall. 
    assert (RESERVED_EMERGENCY_ZIPS <= a - 1 - Z.of_nat k)%Z; [| lia].
    apply (IH) with (f := f); try done.
    intros o Ho. simpl in Ho. apply (withinRange_config s); [by repeat split |].
    apply Hrange. eapply elem_of_submseteq; [exact Ho | apply dequeueFlightOrders_submseteq].
  - rewrite commitFlight_unfold.
    match goal with |- context [launchFlights_loop fuel ?s1 t (a - 1)%Z] =>
      specialize (IH s1 t (a - 1)%Z); set (s1' := s1) in *;
      destruct (launchFlights_loop fuel s1' t (a - 1)%Z) as [[flights s''] log'] end.
    simpl. destruct k as [|k]; simpl.
    + intros [= <-] Hall. simpl in Hall. exfalso.
      apply Nat.eqb_neq in Hem.
      assert (exists e, e ∈ _unfulfilledOrders s /\ priority e = Emergency) as Hex
        by (apply countByPriority_pos; lia).
      destruct (Hfirst Hex) as [-> | (o & rest & -> & Hp)]; [done |].
      apply Forall_cons in Hall as [Hall _]. congruence.
    + intros Hk Hall.
      assert (RESERVED_EMERGENCY_ZIPS <= a - 1 - Z.of_nat k)%Z; [| lia].
      apply (IH) with (f := f); try done.
      intros o Ho. simpl in Ho. apply (withinRange_config s); [by repeat split |].
      apply Hrange.
      eapply elem_of_submseteq; [exact Ho | apply dequeueFlightOrders_submseteq].
Qed.

(** C1 (reservation invariant).  In every state reached through
    [queueOrder] and [launchFlights] calls, a call of [launchFlights]
    launches its [k]-th flight with only Resupply stops only if, before
    that launch, the Zips available (the fleet less the flights still
    active after the release, less the [k] flights already launched by
    this call) number [RESERVED_EMERGENCY_ZIPS] or more.  With no Emergency
    order pending and fewer Zips than that available, nothing is launched
    and the queue is as it was; in every case the queue afterwards is the
    queue before less the orders of the launched flights. *)
Theorem reservation_invariant (s : ZipScheduler) (currentTime : R) :
  reachable s ->
  let '(flights, s', _) := launchFlights s currentTime in
  (forall k f,
     flights !! k = Some f ->
     (availableAfterRelease s currentTime - Z.of_nat k < RESERVED_EMERGENCY_ZIPS)%Z ->
     Exists (fun o => priority o = Emergency) (orders f)) /\
  (countByPriority s Emergency = 0 ->
   (availableAfterRelease s currentTime < RESERVED_EMERGENCY_ZIPS)%Z ->
   flights = [] /\ _unfulfilledOrders s' = _unfulfilledOrders s) /\
  _unfulfilledOrders s' =
    fst (dequeueFlightOrders (_unfulfilledOrders s) (concat (orders <$> flights))).
Proof.
  intros Hreach. destruct (reachable_queueInv s Hreach) as [Hrange _].
  pose proof (launchFlights_spec s currentTime) as Hspec.
  assert (forall k f,
    fst (fst (launchFlights s currentTime)) !! k = Some f ->
    Forall (fun o => priority o = Resupply) (orders f) ->
    (RESERVED_EMERGENCY_ZIPS <= availableAfterRelease s currentTime - Z.of_nat k)%Z) as Hres.
  { unfold launchFlights, availableAfterRelease.
    replace (numZips s) with (numZips (releaseReturningZips s currentTime))
      by (by rewrite releaseReturningZips_spec).
    destruct (PQ.isEmpty _); [done |].
    apply launchFlights_loop_reservation.
    rewrite releaseReturningZips_spec. simpl. exact Hrange. }
  assert (countByPriority s Emergency = 0 ->
          (availableAfterRelease s currentTime < RESERVED_EMERGENCY_ZIPS)%Z ->
          fst (fst (launchFlights s currentTime)) = []) as Hnone.
  { intros Hem Hav.
    destruct (fst (fst (launchFlights s currentTime))) as [|f fs] eqn:E; [done |].
    exfalso. specialize (Hres 0 f eq_refl).
    destruct (launchFlights s currentTime) as [[flights s'] log].
    destruct Hspec as (_ & _ & _ & Hall & _). simpl in E. subst flights.
    apply Forall_cons in Hall as [(_ & _ & _ & _ & Hin) _].
    assert (Forall (fun o => priority o = Resupply) (orders f)) as HR.
    { apply Forall_forall. intros o Ho.
      pose proof (proj1 (countByPriority_zero s Emergency) Hem o (Hin o Ho)).
      by destruct (priority o). }
    specialize (Hres HR). lia. }
  destruct (launchFlights s currentTime) as [[flights s'] log].
  destruct Hspec as (_ & Hq & _). simpl in *.
  split; [| split; [| done]].
  - intros k f Hk Hav.
    destruct (decide (Forall (fun o => priority o = Resupply) (orders f))) as [HR | HR].
    + specialize (Hres k f Hk HR). lia.
    + apply not_Forall_Exists in HR; [| intros x; apply _].
      eapply Exists_impl; [exact HR |].
      intros o Ho. simpl in Ho. by destruct (priority o).
  - intros Hem Hav. rewrite Hq, (Hnone Hem Hav). done.
Qed.

Lemma reachable_new n m v r : reachable (newZipScheduler n m v r).
Proof. exists n, m, v, r. apply rtc_refl. Qed.

Lemma reachable_queueOrder s order : reachable s -> reachable (fst (queueOrder s order)).
Proof. intros H. apply (reachable_step s); [done |]. apply rtc_once, step_queueOrder. Qed.

Lemma reachable_launchFlights s currentTime :
  reachable s -> reachable (snd (fst (launchFlights s currentTime))).
Proof. intros H. apply (reachable_step s); [done |]. apply rtc_once, step_launchFlights. Qed.

(** ** Admission *)

(** C3 (range rejection).  In a reachable state, [queueOrder] on an
    order whose round trip from the Nest exceeds the range leaves the
    scheduler as it is (so the queue and its size too), logs the rejection
    as an error, the order is not in the queue, and no flight of any later
    [launchFlights] call carries it; on any other order it logs nothing and
    enqueues the order, which makes the queue one longer. *)
Theorem range_rejection (s : ZipScheduler) (order : Order) :
  reachable s ->
  let distance := (2 * calculateDistance Nest (locationOf (hospital order)))%R in
  let '(s1, log) := queueOrder s order in
  ((distance > zipMaxCumulativeRangeM s)%R ->
     s1 = s /\ log = [OrderExceedsMaximumRange order distance] /\
     (order ∉ _unfulfilledOrders s1) /\
     unfulfilledOrdersCount s1 = unfulfilledOrdersCount s /\
     forall s' currentTime f,
       rtc step s1 s' -> f ∈ fst (fst (launchFlights s' currentTime)) ->
       order ∉ orders f) /\
  (~ (distance > zipMaxCumulativeRangeM s)%R ->
     log = [] /\
     _unfulfilledOrders s1 = PQ.enqueue (_unfulfilledOrders s) order /\
     order ∈ _unfulfilledOrders s1 /\
     unfulfilledOrdersCount s1 = S (unfulfilledOrdersCount s)).
Proof.
  intros Hreach distance. unfold queueOrder. fold distance.
  destruct (reachable_queueInv s Hreach) as [Hrange _].
  case_decide as Hfar; (split; [intros Hd | intros Hd; try done]).
  - repeat split; try done.
    + intros Hin. by apply (Hrange _ Hin).
    + intros s' t f Hrtc Hf Hin.
      pose proof (reachable_queueInv s' (reachable_step _ _ Hreach Hrtc)) as [Hrange' _].
      pose proof (rtc_step_sameConfig _ _ Hrtc) as Hcfg.
      pose proof (launchFlights_spec s' t) as Hspec.
      destruct (launchFlights s' t) as [[flights s''] log']. simpl in Hf.
      destruct Hspec as (_ & _ & _ & Hall & _).
      rewrite Forall_forall in Hall. destruct (Hall f Hf) as (_ & _ & _ & _ & Hq).
      specialize (Hrange' order (Hq order Hin)).
      apply Hrange'. destruct Hcfg as (_ & _ & _ & ->). exact Hd.
  - done.
  - simpl. repeat split.
    + rewrite enqueue_Permutation. by left.
    + unfold unfulfilledOrdersCount, PQ.size. simpl.
      by rewrite (Permutation_length (enqueue_Permutation _ _)).
Qed.

Lemma range_rejection_witness :
  let s := newZipScheduler 5 10 10 10000 in
  let order := mkOrder "order2" (mkHospital "Far Hospital" 5000 5000) Resupply 1 in
  reachable s /\
  let distance := (2 * calculateDistance Nest (locationOf (hospital order)))%R in
  let '(s1, log) := queueOrder s order in
  ((distance > zipMaxCumulativeRangeM s)%R ->
     s1 = s /\ log = [OrderExceedsMaximumRange order distance] /\
     (order ∉ _unfulfilledOrders s1) /\
     unfulfilledOrdersCount s1 = unfulfilledOrdersCount s /\
     forall s' currentTime f,
       rtc step s1 s' -> f ∈ fst (fst (launchFlights s' currentTime)) ->
       order ∉ orders f) /\
  (~ (distance > zipMaxCumulativeRangeM s)%R ->
     log = [] /\
     _unfulfilledOrders s1 = PQ.enqueue (_unfulfilledOrders s) order /\
     order ∈ _unfulfilledOrders s1 /\
     unfulfilledOrdersCount s1 = S (unfulfilledOrdersCount s)).
Proof.
  intros s order. split; [apply reachable_new |].
  apply (range_rejection s order), reachable_new.
Defined.

(** ** Scenarios *)

Local Open Scope R_scope.

Lemma queueOrder_accept s order :
  2 * calculateDistance Nest (locationOf (hospital order)) <= zipMaxCumulativeRangeM s ->
  queueOrder s order =
    (set_unfulfilledOrders s (PQ.enqueue (_unfulfilledOrders s) order), []).
Proof. intros H. unfold queueOrder. rewrite decide_False by lra. done. Qed.

Lemma queueOrder_reject s order :
  2 * calculateDistance Nest (locationOf (hospital order)) > zipMaxCumulativeRangeM s ->
  queueOrder s order =
    (s, [OrderExceedsMaximumRange order
           (2 * calculateDistance Nest (locationOf (hospital order)))]).
Proof. intros H. unfold queueOrder. by rewrite decide_True. Qed.

(** Evaluation of one callback of the nearest-order scan. *)
Lemma nearestStep_first av cur o :
  nearestStep av cur None o =
    Some (o, indexOf av o, calculateDistance cur (locationOf (hospital o))).
Proof. reflexivity. Qed.

Lemma nearestStep_closer av cur o0 i0 d0 o :
  calculateDistance cur (locationOf (hospital o)) < d0 ->
  nearestStep av cur (Some (o0, i0, d0)) o =
    Some (o, indexOf av o, calculateDistance cur (locationOf (hospital o))).
Proof. intros H. unfold nearestStep. by rewrite decide_True. Qed.

Lemma nearestStep_keep av cur o0 i0 d0 o :
  ~ (calculateDistance cur (locationOf (hospital o)) < d0) ->
  nearestStep av cur (Some (o0, i0, d0)) o = Some (o0, i0, d0).
Proof. intros H. unfold nearestStep. by rewrite decide_False. Qed.

(** Evaluation of one turn of the planning loop. *)
Lemma planFlight_loop_append fuel s fo td cur av o index d :
  (length fo <? maxPackagesPerZip s)%nat && (0 <? length av)%nat = true ->
  selectOrder av cur = Some (o, Some index, d) ->
  td + d + calculateDistance (locationOf (hospital o)) Nest <= zipMaxCumulativeRangeM s ->
  planFlight_loop (S fuel) s fo td cur av =
    planFlight_loop fuel s (fo ++ [o]) (td + d) (locationOf (hospital o)) (delete index av).
Proof.
  intros Hg Hs Hr. rewrite planFlight_loop_S, Hg, Hs. by rewrite decide_True.
Qed.

Lemma planFlight_loop_discard fuel s fo td cur av o index d :
  (length fo <? maxPackagesPerZip s)%nat && (0 <? length av)%nat = true ->
  selectOrder av cur = Some (o, Some index, d) ->
  ~ (td + d + calculateDistance (locationOf (hospital o)) Nest <= zipMaxCumulativeRangeM s) ->
  planFlight_loop (S fuel) s fo td cur av =
    planFlight_loop fuel s fo td cur (delete index av).
Proof.
  intros Hg Hs Hr. rewrite planFlight_loop_S, Hg, Hs. by rewrite decide_False.
Qed.

Lemma planFlight_loop_exit fuel s fo td cur av :
  (length fo <? maxPackagesPerZip s)%nat && (0 <? length av)%nat = false ->
  planFlight_loop fuel s fo td cur av = (fo, td, cur).
Proof.
  intros Hg. destruct fuel; [done |]. by rewrite planFlight_loop_S, Hg.
Qed.

(** Distances along the north axis, as the scenarios use them. *)
Lemma distance_on_axis (n1 n2 : Z) :
  calculateDistance (mkLocation n1 0) (mkLocation n2 0) = Rabs (IZR n2 - IZR n1).
Proof.
  unfold calculateDistance. cbn [locNorthM locEastM]. rewrite Rminus_diag.
  replace ((IZR n2 - IZR n1) ^ 2 + 0 ^ 2) with ((IZR n2 - IZR n1)²) by (unfold Rsqr; ring).
  apply sqrt_Rsqr_abs.
Qed.

Ltac axis :=
  repeat match goal with
  | |- context [calculateDistance ?a ?b] =>
      let a' := eval cbv in a in
      let b' := eval cbv in b in
      progress change (calculateDistance a b) with (calculateDistance a' b')
  end;
  rewrite ?distance_on_axis;
  repeat match goal with
  | |- context [Rabs ?x] =>
      first [rewrite (Rabs_pos_eq x) by lra | rewrite (Rabs_left x) by lra]
  end.

Ltac config :=
  repeat match goal with
  | |- context [zipMaxCumulativeRangeM ?s] =>
      let s' := eval hnf in s in
      change (zipMaxCumulativeRangeM s) with (zipMaxCumulativeRangeM s');
      cbn [zipMaxCumulativeRangeM]
  | |- context [zipSpeedMps ?s] =>
      let s' := eval hnf in s in
      change (zipSpeedMps s) with (zipSpeedMps s');
      cbn [zipSpeedMps]
  end.

Ltac solveR := config; axis; lra.

(** Evaluation of one turn of the dispatch loop. *)
Lemma launchFlights_loop_launch fuel s currentTime availableZips flightOrders totalDistance :
  (0 < availableZips)%Z ->
  _unfulfilledOrders s <> [] ->
  planFlight s = (flightOrders, totalDistance) ->
  flightOrders <> [] ->
  (countByPriority s Emergency = 0%nat -> (RESERVED_EMERGENCY_ZIPS <= availableZips)%Z) ->
  launchFlights_loop (S fuel) s currentTime availableZips =
    let '(flight, s', log) := commitFlight s currentTime flightOrders totalDistance in
    let '(flights, s'', log') :=
      launchFlights_loop fuel s' currentTime (availableZips - 1)%Z in
    (flight :: flights, s'', log ++ log').
Proof.
  intros Ha Hq Hplan Hfo Hres. rewrite launchFlights_loop_S, Hplan.
  replace (0 <? availableZips)%Z with true by lia.
  replace (PQ.isEmpty (_unfulfilledOrders s)) with false
    by (by destruct (_unfulfilledOrders s)).
  replace (length flightOrders =? 0)%nat with false by (by destruct flightOrders).
  replace (availableZips <? 1)%Z with false by lia.
  cbn [andb negb]. rewrite andb_false_r.
  destruct (countByPriority s Emergency =? 0)%nat eqn:He; [| done].
  apply Nat.eqb_eq in He. specialize (Hres He).
  by replace (availableZips <? RESERVED_EMERGENCY_ZIPS)%Z with false by lia.
Qed.

Lemma launchFlights_loop_withheld fuel s currentTime availableZips :
  countByPriority s Emergency = 0%nat ->
  (availableZips < RESERVED_EMERGENCY_ZIPS)%Z ->
  launchFlights_loop fuel s currentTime availableZips = ([], s, []).
Proof.
  intros He Ha. destruct fuel; [done |]. rewrite launchFlights_loop_S.
  destruct ((0 <? availableZips)%Z && _); [| done].
  rewrite He. cbv zeta. destruct (planFlight s) as [fo td].
  destruct (length fo =? 0)%nat; [done |].
  replace (availableZips <? RESERVED_EMERGENCY_ZIPS)%Z with true by lia. done.
Qed.

Lemma launchFlights_loop_done fuel s currentTime availableZips :
  (availableZips <= 0)%Z \/ _unfulfilledOrders s = [] ->
  launchFlights_loop fuel s currentTime availableZips = ([], s, []).
Proof.
  intros H. destruct fuel; [done |]. rewrite launchFlights_loop_S.
  destruct H as [H | H].
  - by replace (0 <? availableZips)%Z with false by lia.
  - rewrite H. by rewrite andb_false_r.
Qed.

(** A single pending order that passed admission is planned as the only
    stop, there and back, whenever a Zip may carry a package at all. *)
Lemma planFlight_single s o :
  _unfulfilledOrders s = [o] -> withinRange s o -> (1 <= maxPackagesPerZip s)%nat ->
  planFlight s = ([o], 2 * calculateDistance Nest (locationOf (hospital o))).
Proof.
  intros Hq Hr Hm. rewrite planFlight_unfold, Hq. unfold planFlightFrom. cbn [length].
  assert (selectOrder [o] Nest =
          Some (o, Some 0%nat, calculateDistance Nest (locationOf (hospital o)))) as Hsel.
  { pose proof (selectOrder_spec [o] Nest) as H.
    destruct (selectOrder [o] Nest) as [[[o' i] d]|]; [| done].
    destruct H as ((index & -> & Hl) & -> & _).
    destruct index; simpl in Hl; [| done]. by simplify_eq. }
  unfold withinRange in Hr.
  erewrite planFlight_loop_append; [| | exact Hsel |].
  - rewrite planFlight_loop_exit by (cbn; by rewrite andb_false_r).
    cbn [app length Nat.ltb Nat.leb]. f_equal.
    rewrite (calculateDistance_sym (locationOf (hospital o)) Nest). lra.
  - cbn [length]. replace (0 <? maxPackagesPerZip s)%nat with true; [done |].
    symmetry. apply Nat.ltb_lt. lia.
  - rewrite (calculateDistance_sym (locationOf (hospital o)) Nest). lra.
Qed.

Lemma dequeueFlightOrders_single o :
  dequeueFlightOrders [o] [o] = ([], []).
Proof.
  rewrite dequeueFlightOrders_cons.
  assert (PQ.findIndex (id o) [o] = Some 0%nat) as Hf.
  { unfold PQ.findIndex. simpl. by rewrite decide_True. }
  pose proof (dequeueById_last [] o (id o) Hf) as H.
  change ([] ++ [o]) with [o] in H. by rewrite H.
Qed.

(** [launchFlights] with a single Resupply order pending: the reservation
    alone decides. *)
Lemma launchFlights_single_resupply s currentTime o :
  _unfulfilledOrders s = [o] -> priority o = Resupply -> withinRange s o ->
  (1 <= maxPackagesPerZip s)%nat ->
  let s0 := releaseReturningZips s currentTime in
  let totalDistance := 2 * calculateDistance Nest (locationOf (hospital o)) in
  ((RESERVED_EMERGENCY_ZIPS <= availableAfterRelease s currentTime)%Z ->
     launchFlights s currentTime =
       ([newFlight currentTime [o] totalDistance],
        snd (fst (commitFlight s0 currentTime [o] totalDistance)), [])) /\
  ((availableAfterRelease s currentTime < RESERVED_EMERGENCY_ZIPS)%Z ->
     launchFlights s currentTime = ([], s0, [])).
Proof.
  intros Hq Hp Hr Hm s0 td. unfold launchFlights, availableAfterRelease. fold s0.
  assert (sameConfig s s0 /\ _unfulfilledOrders s0 = [o]) as [Hcfg Hq0].
  { unfold s0. rewrite releaseReturningZips_spec. simpl. by repeat split. }
  destruct Hcfg as (Hn & Hm' & Hv & Hrange).
  rewrite Hn, Hq0. cbn [PQ.isEmpty length Nat.eqb].
  assert (countByPriority s0 Emergency = 0%nat) as Hem.
  { apply countByPriority_zero. intros o' Ho'. rewrite Hq0 in Ho'.
    apply list_elem_of_singleton in Ho' as ->. by rewrite Hp. }
  split; intros Ha.
  - unfold RESERVED_EMERGENCY_ZIPS in Ha.
    destruct (Z.to_nat (numZips s - Z.of_nat (length (activeFlights s0)))) as [|fuel] eqn:Hfuel;
      [lia |].
    rewrite (launchFlights_loop_launch _ _ _ _ [o] td); try done; try lia.
    + rewrite commitFlight_unfold, Hq0, dequeueFlightOrders_single.
      rewrite launchFlights_loop_done by (by right). done.
    + by rewrite Hq0.
    + apply planFlight_single; [done | | lia].
      unfold withinRange in *. by rewrite Hrange.
  - by apply launchFlights_loop_withheld.
Qed.

Lemma scenarioC_state :
  scenarioC = mkZipScheduler 5 3 30 10000 0 [orderC] [].
Proof.
  unfold scenarioC. rewrite queueOrder_accept by solveR. done.
Qed.

(** C2, as stated, fails: with five Zips available the comparison
    [5 < 4] is false and the Resupply flight is launched. *)
Lemma scenario_C_launches_one :
  numZips scenarioC = 5%Z /\ RESERVED_EMERGENCY_ZIPS = 4%Z /\
  getUnfulfilledOrders scenarioC = [orderC] /\
  countByPriority scenarioC Emergency = 0%nat /\
  fst (fst (launchFlights scenarioC 60)) = [newFlight 60 [orderC] 2000] /\
  fst (fst (launchFlights scenarioC 60)) <> [].
Proof.
  rewrite scenarioC_state. repeat split.
  - destruct (launchFlights_single_resupply
      (mkZipScheduler 5 3 30 10000 0 [orderC] []) 60 orderC) as [H _];
      try done; [unfold withinRange; solveR | simpl; lia |].
    rewrite H; [| vm_compute; discriminate]. simpl. do 2 f_equal. solveR.
  - destruct (launchFlights_single_resupply
      (mkZipScheduler 5 3 30 10000 0 [orderC] []) 60 orderC) as [H _];
      try done; [unfold withinRange; solveR | simpl; lia |].
    rewrite H; [| vm_compute; discriminate]. done.
Qed.

(** C2, amended.  With five Zips, a reserve of four, room for a package
    on a flight, and exactly one order pending, a Resupply one: the order is
    launched on one flight when at most one flight is still active after
    the release, which leaves four Zips or more available, and no flight is
    launched, the order staying queued, when two or more are active. *)
Theorem reservation_boundary (s : ZipScheduler) (currentTime : R) (o : Order) :
  reachable s -> numZips s = 5%Z -> (1 <= maxPackagesPerZip s)%nat ->
  _unfulfilledOrders s = [o] -> priority o = Resupply ->
  let '(flights, s', _) := launchFlights s currentTime in
  let active := length (activeFlights (releaseReturningZips s currentTime)) in
  ((active <= 1)%nat ->
     flights = [newFlight currentTime [o]
                  (2 * calculateDistance Nest (locationOf (hospital o)))] /\
     _unfulfilledOrders s' = []) /\
  ((1 < active)%nat -> flights = [] /\ _unfulfilledOrders s' = [o]).
Proof.
  intros Hreach Hn Hm Hq Hp.
  assert (withinRange s o) as Hr.
  { apply (reachable_queueInv s Hreach). rewrite Hq. by left. }
  destruct (launchFlights_single_resupply s currentTime o Hq Hp Hr Hm) as [Hgo Hstop].
  unfold availableAfterRelease, RESERVED_EMERGENCY_ZIPS in *. rewrite Hn in *.
  destruct (decide (length (activeFlights (releaseReturningZips s currentTime)) <= 1)%nat)
    as [Hact | Hact].
  - rewrite Hgo by lia. cbv zeta. split; [| intros; lia]. intros _. split; [done |].
    rewrite commitFlight_unfold. simpl. rewrite releaseReturningZips_spec. simpl.
    by rewrite Hq, dequeueFlightOrders_single.
  - rewrite Hstop by lia. cbv zeta. split; [intros; lia |]. intros _. split; [done |].
    rewrite releaseReturningZips_spec. simpl. done.
Qed.

Lemma reservation_boundary_witness :
  reachable scenarioC /\ numZips scenarioC = 5%Z /\
  (1 <= maxPackagesPerZip scenarioC)%nat /\
  _unfulfilledOrders scenarioC = [orderC] /\ priority orderC = Resupply /\
  let '(flights, s', _) := launchFlights scenarioC 60 in
  let active := length (activeFlights (releaseReturningZips scenarioC 60)) in
  ((active <= 1)%nat ->
     flights = [newFlight 60 [orderC]
                  (2 * calculateDistance Nest (locationOf (hospital orderC)))] /\
     _unfulfilledOrders s' = []) /\
  ((1 < active)%nat -> flights = [] /\ _unfulfilledOrders s' = [orderC]).
Proof.
  assert (reachable scenarioC) as Hreach by apply reachable_queueOrder, reachable_new.
  assert (scenarioC = mkZipScheduler 5 3 30 10000 0 [orderC] []) as Hs
    by apply scenarioC_state.
  assert (numZips scenarioC = 5%Z) as Hn by (by rewrite Hs).
  assert (1 <= maxPackagesPerZip scenarioC)%nat as Hm by (rewrite Hs; simpl; lia).
  assert (_unfulfilledOrders scenarioC = [orderC]) as Hq by (by rewrite Hs).
  repeat (split; [done |]).
  apply (reservation_boundary scenarioC 60 orderC Hreach Hn Hm Hq eq_refl).
Defined.

Lemma releaseReturningZips_idle s currentTime :
  activeFlights s = [] -> releaseReturningZips s currentTime = s.
Proof.
  intros H. rewrite releaseReturningZips_spec, H. destruct s. simpl in *.
  subst. by rewrite Nat.add_0_r.
Qed.

(** With room for one package, the planner takes the nearer of two
    pending Emergency orders, wherever it sits in the queue. *)
Lemma planFlight_nearer_of_two s oNear oFar queue :
  maxPackagesPerZip s = 1%nat ->
  priority oNear = Emergency -> priority oFar = Emergency -> oNear <> oFar ->
  queue = [oNear; oFar] \/ queue = [oFar; oNear] ->
  calculateDistance Nest (locationOf (hospital oNear))
    < calculateDistance Nest (locationOf (hospital oFar)) ->
  2 * calculateDistance Nest (locationOf (hospital oNear)) <= zipMaxCumulativeRangeM s ->
  planFlightFrom s queue =
    ([oNear], 2 * calculateDistance Nest (locationOf (hospital oNear))).
Proof.
  intros Hm Hp1 Hp2 Hne Hq Hlt Hr. unfold planFlightFrom.
  assert (exists index, selectOrder queue Nest =
            Some (oNear, Some index, calculateDistance Nest (locationOf (hospital oNear))))
    as [index Hsel].
  { pose proof (selectOrder_spec queue Nest) as H.
    destruct (selectOrder queue Nest) as [[[o i] d]|]; [| destruct Hq; by subst].
    destruct H as ((index & -> & Hl) & -> & _ & Hmin). exists index.
    assert (o ∈ queue) as Hin by (by eapply list_elem_of_lookup_2).
    assert (oNear ∈ queue) as Hnear
      by (destruct Hq; subst; repeat constructor).
    assert (o = oNear \/ o = oFar) as [-> | ->].
    { destruct Hq; subst; repeat (apply elem_of_cons in Hin as [-> | Hin]; eauto);
        by apply elem_of_nil in Hin. }
    { done. }
    specialize (Hmin oNear Hnear). rewrite Hp1, Hp2 in Hmin. specialize (Hmin eq_refl). lra. }
  assert (length queue = 2%nat) as Hlen by (destruct Hq; by subst).
  rewrite Hlen.
  erewrite planFlight_loop_append; [| | exact Hsel |].
  - rewrite planFlight_loop_exit by (cbn [length app]; by rewrite Hm).
    cbn [app length Nat.ltb Nat.leb]. f_equal.
    rewrite (calculateDistance_sym (locationOf (hospital oNear)) Nest). lra.
  - by rewrite Hm, Hlen.
  - rewrite (calculateDistance_sym (locationOf (hospital oNear)) Nest). lra.
Qed.

(** C7 (scenario A).  One Zip, one package per flight, a range of
    10,000 m, and two Emergency orders 3,000 m and 4,000 m out, arrived at
    t=0 and t=1: [launchFlights(1)] launches one flight, at time 1, whose
    stops are the 3,000 m order alone and whose distance is 6,000 m; that
    flight is the one in the air, and the 4,000 m order is still pending.
    The same holds
    when it is the 4,000 m order that arrived first: the nearer candidate
    is taken, not the earlier one. *)
Theorem scenario_A (speed : R) :
  let s0 := newZipScheduler 1 1 speed 10000 in
  (let s := fst (queueOrder (fst (queueOrder s0 orderA1)) orderA2) in
   let '(flights, s', _) := launchFlights s 1 in
   flights = [newFlight 1 [orderA1] 6000] /\
   (launchTime <$> flights) = [1] /\ (orders <$> flights) = [[orderA1]] /\
   (totalDistance <$> flights) = [6000] /\
   (orders ∘ flight <$> activeFlights s') = [[orderA1]] /\
   getUnfulfilledOrders s' = [orderA2]) /\
  (let s := fst (queueOrder (fst (queueOrder s0 orderB2)) orderB1) in
   getUnfulfilledOrders s = [orderB2; orderB1] /\
   let '(flights, s', _) := launchFlights s 1 in
   flights = [newFlight 1 [orderB1] 6000] /\
   (launchTime <$> flights) = [1] /\ (orders <$> flights) = [[orderB1]] /\
   (totalDistance <$> flights) = [6000] /\
   (orders ∘ flight <$> activeFlights s') = [[orderB1]] /\
   getUnfulfilledOrders s' = [orderB2]).
Proof.
  intros s0. split.
  - assert (fst (queueOrder (fst (queueOrder s0 orderA1)) orderA2) =
            mkZipScheduler 1 1 speed 10000 0 [orderA1; orderA2] []) as ->.
    { unfold s0. rewrite (queueOrder_accept _ orderA1) by solveR.
      cbn [fst]. rewrite (queueOrder_accept _ orderA2) by solveR. reflexivity. }
    unfold launchFlights. rewrite releaseReturningZips_idle by done.
    cbn [activeFlights length numZips _unfulfilledOrders PQ.isEmpty Nat.eqb].
    change (Z.to_nat (1 - Z.of_nat 0)) with 1%nat.
    rewrite (launchFlights_loop_launch _ _ _ _ [orderA1] 6000).
    + rewrite commitFlight_unfold.
      replace (dequeueFlightOrders _ [orderA1]) with ([orderA2], @nil LogEvent)
        by reflexivity.
      rewrite launchFlights_loop_done by (left; simpl; lia).
      split; [done |]. repeat (split; [reflexivity |]).
      unfold getUnfulfilledOrders. by rewrite toArray_id.
    + done.
    + done.
    + rewrite planFlight_unfold.
      rewrite (planFlight_nearer_of_two _ orderA1 orderA2); try done; try solveR;
        [f_equal; solveR | by left].
    + done.
    + intros H. vm_compute in H.  discriminate.
  - assert (fst (queueOrder (fst (queueOrder s0 orderB2)) orderB1) =
            mkZipScheduler 1 1 speed 10000 0 [orderB2; orderB1] []) as ->.
    { unfold s0. rewrite (queueOrder_accept _ orderB2) by solveR.
      cbn [fst]. rewrite (queueOrder_accept _ orderB1) by solveR. reflexivity. }
    split; [unfold getUnfulfilledOrders; by rewrite toArray_id |].
    unfold launchFlights. rewrite releaseReturningZips_idle by done.
    cbn [activeFlights length numZips _unfulfilledOrders PQ.isEmpty Nat.eqb].
    change (Z.to_nat (1 - Z.of_nat 0)) with 1%nat.
    rewrite (launchFlights_loop_launch _ _ _ _ [orderB1] 6000).
    + rewrite commitFlight_unfold.
      replace (dequeueFlightOrders _ [orderB1]) with ([orderB2], @nil LogEvent)
        by reflexivity.
      rewrite launchFlights_loop_done by (left; simpl; lia).
      split; [done |]. repeat (split; [reflexivity |]).
      unfold getUnfulfilledOrders. by rewrite toArray_id.
    + done.
    + done.
    + rewrite planFlight_unfold.
      rewrite (planFlight_nearer_of_two _ orderB1 orderB2); try done; try solveR;
        [f_equal; solveR | by right].
    + done.
    + intros H. vm_compute in H.  discriminate.
Qed.

Lemma scenarioD0_state :
  scenarioD0 = mkZipScheduler 1 1 30 10000 0 [orderD1; orderD2] [].
Proof.
  unfold scenarioD0. rewrite (queueOrder_accept _ orderD1) by solveR.
  cbn [fst]. rewrite (queueOrder_accept _ orderD2) by solveR. reflexivity.
Qed.

Lemma scenarioD_launch :
  launchFlights scenarioD0 100 =
    ([newFlight 100 [orderD1] 3000],
     mkZipScheduler 1 1 30 10000 0 [orderD2]
       [mkActiveFlight (100 + 3000 / 30) (newFlight 100 [orderD1] 3000)],
     []).
Proof.
  rewrite scenarioD0_state.
  unfold launchFlights. rewrite releaseReturningZips_idle by done.
  cbn [activeFlights length numZips _unfulfilledOrders PQ.isEmpty Nat.eqb].
  change (Z.to_nat (1 - Z.of_nat 0)) with 1%nat.
  rewrite (launchFlights_loop_launch _ _ _ _ [orderD1] 3000).
  - rewrite commitFlight_unfold.
    replace (dequeueFlightOrders _ [orderD1]) with ([orderD2], @nil LogEvent)
      by reflexivity.
    rewrite launchFlights_loop_done by (left; simpl; lia). reflexivity.
  - done.
  - done.
  - rewrite planFlight_unfold.
    rewrite (planFlight_nearer_of_two _ orderD1 orderD2); try done; try solveR;
      [f_equal; solveR | by left].
  - done.
  - intros H. vm_compute in H. discriminate.
Qed.

Lemma scenarioD_state :
  scenarioD = mkZipScheduler 1 1 30 10000 0 [orderD2]
                [mkActiveFlight (100 + 3000 / 30) (newFlight 100 [orderD1] 3000)].
Proof. unfold scenarioD. by rewrite scenarioD_launch. Qed.

(** The reservation at work: three Zips and one Resupply order, which is
    withheld; and one Zip and two Emergency orders, of which one is flown. *)
Lemma reservation_invariant_witness :
  let s := fst (queueOrder (newZipScheduler 3 3 30 10000) orderC) in
  (reachable s /\
   countByPriority s Emergency = 0%nat /\
   (availableAfterRelease s 60 < RESERVED_EMERGENCY_ZIPS)%Z /\
   let '(flights, s', _) := launchFlights s 60 in
   (forall k f,
      flights !! k = Some f ->
      (availableAfterRelease s 60 - Z.of_nat k < RESERVED_EMERGENCY_ZIPS)%Z ->
      Exists (fun o => priority o = Emergency) (orders f)) /\
   (countByPriority s Emergency = 0%nat ->
    (availableAfterRelease s 60 < RESERVED_EMERGENCY_ZIPS)%Z ->
    flights = [] /\ _unfulfilledOrders s' = _unfulfilledOrders s) /\
   _unfulfilledOrders s' =
     fst (dequeueFlightOrders (_unfulfilledOrders s) (concat (orders <$> flights)))) /\
  (reachable scenarioD0 /\
   fst (fst (launchFlights scenarioD0 100)) !! 0%nat = Some (newFlight 100 [orderD1] 3000) /\
   (availableAfterRelease scenarioD0 100 - Z.of_nat 0 < RESERVED_EMERGENCY_ZIPS)%Z /\
   let '(flights, s', _) := launchFlights scenarioD0 100 in
   (forall k f,
      flights !! k = Some f ->
      (availableAfterRelease scenarioD0 100 - Z.of_nat k < RESERVED_EMERGENCY_ZIPS)%Z ->
      Exists (fun o => priority o = Emergency) (orders f)) /\
   (countByPriority scenarioD0 Emergency = 0%nat ->
    (availableAfterRelease scenarioD0 100 < RESERVED_EMERGENCY_ZIPS)%Z ->
    flights = [] /\ _unfulfilledOrders s' = _unfulfilledOrders scenarioD0) /\
   _unfulfilledOrders s' =
     fst (dequeueFlightOrders (_unfulfilledOrders scenarioD0)
            (concat (orders <$> flights)))).
Proof.
  intros s.
  assert (s = mkZipScheduler 3 3 30 10000 0 [orderC] []) as Hs.
  { unfold s. rewrite queueOrder_accept by solveR. done. }
  assert (reachable s) as Hreach by apply reachable_queueOrder, reachable_new.
  assert (reachable scenarioD0) as HreachD
    by apply reachable_queueOrder, reachable_queueOrder, reachable_new.
  split.
  - split; [exact Hreach | split; [by rewrite Hs | split]].
    + unfold availableAfterRelease. rewrite releaseReturningZips_spec, Hs. simpl.
      unfold RESERVED_EMERGENCY_ZIPS. lia.
    + exact (reservation_invariant s 60 Hreach).
  - split; [exact HreachD | split; [by rewrite scenarioD_launch | split]].
    + unfold availableAfterRelease. rewrite releaseReturningZips_spec, scenarioD0_state.
      simpl. unfold RESERVED_EMERGENCY_ZIPS. lia.
    + exact (reservation_invariant scenarioD0 100 HreachD).
Defined.

(** C8 (return time and release).  Every flight that [launchFlights]
    launches carries the call's time as its launch time and becomes active
    with return time [launchTime + totalDistance / zipSpeedMps]; the active
    flights after the call are those whose return time is later than the
    call's time, followed by the new ones, and no more flights are launched
    than the release leaves Zips available.  In scenario D the flight
    launched at t=100 over 3,000 m at 30 m/s returns at t=200: it is still
    active after a release at t=199, where [launchFlights] can launch
    nothing, and it is freed by the release at t=200, where [launchFlights]
    sends the same Zip out again. *)
Theorem return_time_and_release :
  (forall s currentTime,
     let '(flights, s', _) := launchFlights s currentTime in
     activeFlights s' =
       filter (fun e => ~ (returnTime e <= currentTime)) (activeFlights s)
       ++ ((fun f => mkActiveFlight (launchTime f + totalDistance f / zipSpeedMps s) f)
             <$> flights) /\
     Forall (fun f => launchTime f = currentTime) flights /\
     (Z.of_nat (length flights) <=
        Z.max 0 (numZips s - Z.of_nat (length
                   (filter (fun e => ~ (returnTime e <= currentTime)%R)
                           (activeFlights s)))))%Z) /\
  (forall s currentTime,
     activeFlights (releaseReturningZips s currentTime) =
       filter (fun e => ~ (returnTime e <= currentTime)) (activeFlights s)) /\
  (fst (fst (launchFlights scenarioD0 100)) = [newFlight 100 [orderD1] 3000] /\
   (returnTime <$> activeFlights scenarioD) = [200] /\
   activeFlights (releaseReturningZips scenarioD 199) = activeFlights scenarioD /\
   fst (fst (launchFlights scenarioD 199)) = [] /\
   activeFlights (releaseReturningZips scenarioD 200) = [] /\
   fst (fst (launchFlights scenarioD 200)) = [newFlight 200 [orderD2] 4000]).
Proof.
  split; [| split].
  - intros s t. pose proof (launchFlights_spec s t) as H.
    destruct (launchFlights s t) as [[flights s'] log].
    destruct H as (_ & _ & Hact & Hall & Hn & _).
    unfold availableAfterRelease in Hn.
    rewrite releaseReturningZips_spec in Hact, Hn. simpl in Hact, Hn.
    split; [exact Hact | split; [| exact Hn]].
    eapply Forall_impl; [exact Hall |]. simpl. tauto.
  - intros s t. by rewrite releaseReturningZips_spec.
  - rewrite scenarioD_launch, scenarioD_state.
    assert (forall t, 200 <= t ->
      releaseReturningZips (mkZipScheduler 1 1 30 10000 0 [orderD2]
        [mkActiveFlight (100 + 3000 / 30) (newFlight 100 [orderD1] 3000)]) t =
      mkZipScheduler 1 1 30 10000 1 [orderD2] []) as Hfree.
    { intros t Ht. rewrite releaseReturningZips_spec. cbn [activeFlights].
      rewrite !filter_cons, !filter_nil. cbn [returnTime].
      rewrite (decide_True (P := 100 + 3000 / 30 <= t)) by lra.
      rewrite (decide_False (P := ~ 100 + 3000 / 30 <= t)) by lra. reflexivity. }
    assert (forall t, t < 200 ->
      releaseReturningZips (mkZipScheduler 1 1 30 10000 0 [orderD2]
        [mkActiveFlight (100 + 3000 / 30) (newFlight 100 [orderD1] 3000)]) t =
      mkZipScheduler 1 1 30 10000 0 [orderD2]
        [mkActiveFlight (100 + 3000 / 30) (newFlight 100 [orderD1] 3000)]) as Hkeep.
    { intros t Ht. rewrite releaseReturningZips_spec. cbn [activeFlights].
      rewrite !filter_cons, !filter_nil. cbn [returnTime].
      rewrite (decide_False (P := 100 + 3000 / 30 <= t)) by lra.
      rewrite (decide_True (P := ~ 100 + 3000 / 30 <= t)) by lra. reflexivity. }
    split; [done |]. split; [simpl; f_equal; lra |].
    split; [by rewrite Hkeep by lra |].
    split; [| split; [by rewrite Hfree by lra |]].
    + unfold launchFlights. rewrite Hkeep by lra. reflexivity.
    + unfold launchFlights. rewrite Hfree by lra.
      cbn [activeFlights length numZips _unfulfilledOrders PQ.isEmpty Nat.eqb].
      change (Z.to_nat (1 - Z.of_nat 0)) with 1%nat.
      rewrite (launchFlights_loop_launch _ _ _ _ [orderD2] 4000).
      * rewrite commitFlight_unfold. rewrite launchFlights_loop_done; [done |].
        left. simpl. lia.
      * done.
      * done.
      * rewrite (planFlight_single _ orderD2); try done;
          [f_equal; solveR | unfold withinRange; solveR].
      * done.
      * intros H. vm_compute in H. discriminate.
Qed.

Lemma planFlight_discards_and_goes_on :
  planFlight scenarioE = ([orderE1; orderR1], 9000).
Proof.
  rewrite planFlight_unfold. unfold planFlightFrom, scenarioE.
  cbn [_unfulfilledOrders length].
  assert (selectOrder [orderE1; orderE2; orderR1] Nest = Some (orderE1, Some 0%nat, 4000))
    as Hsel1.
  { unfold selectOrder.
    replace (filter (fun o => priority o = Emergency) [orderE1; orderE2; orderR1])
      with [orderE1; orderE2] by reflexivity.
    unfold findNearestOrder. cbn [foldl].
    rewrite nearestStep_first, nearestStep_keep by solveR.
    replace (indexOf [orderE1; orderE2; orderR1] orderE1) with (Some 0%nat) by reflexivity.
    do 3 f_equal. solveR. }
  assert (selectOrder [orderE2; orderR1] (locationOf (hospital orderE1)) =
          Some (orderE2, Some 0%nat, 8000)) as Hsel2.
  { unfold selectOrder.
    replace (filter (fun o => priority o = Emergency) [orderE2; orderR1])
      with [orderE2] by reflexivity.
    unfold findNearestOrder. cbn [foldl]. rewrite nearestStep_first.
    replace (indexOf [orderE2; orderR1] orderE2) with (Some 0%nat) by reflexivity.
    do 3 f_equal. solveR. }
  assert (selectOrder [orderR1] (locationOf (hospital orderE1)) =
          Some (orderR1, Some 0%nat, 500)) as Hsel3.
  { unfold selectOrder.
    replace (filter (fun o => priority o = Emergency) [orderR1]) with (@nil Order)
      by reflexivity.
    replace (filter (fun o => priority o <> Emergency) [orderR1]) with [orderR1]
      by reflexivity.
    unfold findNearestOrder. cbn [foldl]. rewrite nearestStep_first.
    replace (indexOf [orderR1] orderR1) with (Some 0%nat) by reflexivity.
    do 3 f_equal. solveR. }
  erewrite planFlight_loop_append; [| reflexivity | exact Hsel1 | solveR].
  cbn [delete list_delete app].
  erewrite planFlight_loop_discard; [| reflexivity | exact Hsel2 | solveR].
  cbn [delete list_delete].
  erewrite planFlight_loop_append; [| reflexivity | exact Hsel3 | solveR].
  cbn [delete list_delete app planFlight_loop length Nat.ltb Nat.leb].
  f_equal. solveR.
Qed.

(** C6 (planning bounds).  For every scheduler state, [planFlight]
    returns at most [maxPackagesPerZip] stops; with a stop, or with a range
    that is not negative, the returned distance, return leg included, is
    within the range, and without a stop it is 0.  A turn of the loop whose
    candidate would take the route beyond the range goes on with the same
    stops, distance and position and with that candidate alone taken out of
    the candidates, so that, as in [scenarioE], a later candidate is still
    appended. *)
Theorem planFlight_bounds (s : ZipScheduler) :
  (let '(flightOrders, totalDistance) := planFlight s in
   (length flightOrders <= maxPackagesPerZip s)%nat /\
   (flightOrders <> [] \/ 0 <= zipMaxCumulativeRangeM s ->
    totalDistance <= zipMaxCumulativeRangeM s) /\
   (flightOrders = [] -> totalDistance = 0)) /\
  (forall fuel flightOrders totalDistance currentLocation availableOrders
          candidate index distanceToOrder,
     (length flightOrders < maxPackagesPerZip s)%nat ->
     selectOrder availableOrders currentLocation =
       Some (candidate, Some index, distanceToOrder) ->
     totalDistance + distanceToOrder
       + calculateDistance (locationOf (hospital candidate)) Nest
       > zipMaxCumulativeRangeM s ->
     availableOrders !! index = Some candidate /\
     planFlight_loop (S fuel) s flightOrders totalDistance currentLocation availableOrders =
       planFlight_loop fuel s flightOrders totalDistance currentLocation
         (delete index availableOrders)) /\
  planFlight scenarioE = ([orderE1; orderR1], 9000).
Proof.
  split; [| split; [| apply planFlight_discards_and_goes_on]].
  - rewrite planFlight_unfold.
    pose proof (planFlightFrom_spec s (_unfulfilledOrders s)) as H.
    destruct (planFlightFrom s (_unfulfilledOrders s)) as [fo td].
    destruct H as (Hlen & _ & [[-> ->] | [Hne Hr]]).
    + split; [done | split; [| done]]. intros [? | ?]; [done | lra].
    + split; [done | split; [done |]]. intros ->. done.
  - intros fuel fo td cur av o index d Hlen Hsel Hfar.
    pose proof (selectOrder_spec av cur) as Hspec. rewrite Hsel in Hspec.
    destruct Hspec as ((index' & [= <-] & Hl) & _).
    split; [done |].
    apply (planFlight_loop_discard _ _ _ _ _ _ _ _ _) with (2 := Hsel); [| lra].
    apply andb_true_intro. split; [by apply Nat.ltb_lt |].
    apply Nat.ltb_lt. apply lookup_lt_Some in Hl. lia.
Qed.

(** ** [planFlight] leaves the queue alone *)

Lemma read_app_l (st : list (list Order)) extra r :
  (r < length st)%nat -> Arrays.read (st ++ extra) r = Arrays.read st r.
Proof. intros H. unfold Arrays.read. by rewrite lookup_app_l. Qed.

Lemma read_app_new (st : list (list Order)) a :
  Arrays.read (st ++ [a]) (length st) = a.
Proof. unfold Arrays.read. by rewrite lookup_app_r, Nat.sub_diag. Qed.

Lemma read_write_eq (st : list (list Order)) r a :
  (r < length st)%nat -> Arrays.read (Arrays.write st r a) r = a.
Proof. intros H. unfold Arrays.read, Arrays.write. by rewrite list_lookup_insert_eq. Qed.

Lemma read_write_ne (st : list (list Order)) r r' a :
  r <> r' -> Arrays.read (Arrays.write st r a) r' = Arrays.read st r'.
Proof. intros H. unfold Arrays.read, Arrays.write. by rewrite list_lookup_insert_ne. Qed.

Lemma length_write (st : list (list Order)) r a :
  length (Arrays.write st r a) = length st.
Proof. apply length_insert. Qed.

Lemma lookup_write_ne (st : list (list Order)) r r' a :
  r <> r' -> Arrays.write st r a !! r' = st !! r'.
Proof. intros H. unfold Arrays.write. by rewrite list_lookup_insert_ne. Qed.

(** The loop on references computes what the loop on values computes,
    and touches no array but its own two. *)
Lemma planFlight_loop_refines fuel : forall s fo av td cur (st : list (list Order)),
  fo <> av -> (fo < length st)%nat -> (av < length st)%nat ->
  let '(td', cur', st') := Arrays.planFlight_loop fuel s fo av td cur st in
  planFlight_loop fuel s (Arrays.read st fo) td cur (Arrays.read st av) =
    (Arrays.read st' fo, td', cur') /\
  (forall r, r <> fo -> r <> av -> (r < length st)%nat -> st' !! r = st !! r) /\
  (length st <= length st')%nat.
Proof.
  induction fuel as [|fuel IH]; intros s fo av td cur st Hne Hfo Hav.
  - simpl. done.
  - rewrite planFlight_loop_S. cbn [Arrays.planFlight_loop].
    destruct ((length (Arrays.read st fo) <? maxPackagesPerZip s)%nat
              && (0 <? length (Arrays.read st av))%nat); [| done].
    unfold Arrays.filterArray, Arrays.alloc.
    set (st1 := st ++ [filter (fun o => priority o = Emergency) (Arrays.read st av)]).
    assert (length st1 = S (length st)) as Hlen1
      by (unfold st1; rewrite length_app; simpl; lia).
    assert (Arrays.read st1 av = Arrays.read st av) as Hav1 by (by apply read_app_l).
    rewrite Hav1.
    set (st2 := st1 ++ [filter (fun o => priority o <> Emergency) (Arrays.read st av)]).
    assert (length st2 = S (S (length st))) as Hlen2
      by (unfold st2; rewrite length_app; simpl; lia).
    assert (Arrays.read st2 av = Arrays.read st av) as Hav2
      by (unfold st2; rewrite read_app_l by lia; done).
    assert (Arrays.read st2 fo = Arrays.read st fo) as Hfo2
      by (unfold st2; rewrite read_app_l by lia; unfold st1; by rewrite read_app_l by lia).
    assert (Arrays.read st2 (length st) =
            filter (fun o => priority o = Emergency) (Arrays.read st av)) as Hem.
    { unfold st2. rewrite read_app_l by lia. apply read_app_new. }
    assert (Arrays.read st2 (length st1) =
            filter (fun o => priority o <> Emergency) (Arrays.read st av)) as Hnon
      by apply read_app_new.
    assert (forall r, (r < length st)%nat -> st2 !! r = st !! r) as Hold.
    { intros r Hr. unfold st2. rewrite lookup_app_l by lia.
      unfold st1. by rewrite lookup_app_l by lia. }
    rewrite Hav2, Hem, Hnon. fold (selectOrder (Arrays.read st av) cur).
    destruct (selectOrder (Arrays.read st av) cur) as [[[o [index|]] d]|];
      [| split; [by rewrite Hfo2 | split; [intros; by apply Hold | lia]] ..].
    case_decide as Hrange.
    + unfold Arrays.push, Arrays.splice.
      match goal with |- context [Arrays.planFlight_loop fuel s fo av ?td' ?cur' ?st'] =>
        specialize (IH s fo av td' cur' st' Hne); set (st3 := st') in *;
        destruct (Arrays.planFlight_loop fuel s fo av td' cur' st3) as [[td'' cur''] st4]
      end.
      assert (length st3 = length st2) as Hlen3 by (unfold st3; by rewrite !length_write).
      destruct IH as (Heq & Hframe & Hle); [lia | lia |].
      assert (Arrays.read st3 fo = Arrays.read st fo ++ [o]) as Hfo3.
      { unfold st3. rewrite read_write_ne by done. rewrite read_write_eq by lia.
        by rewrite Hfo2. }
      assert (Arrays.read st3 av = delete index (Arrays.read st av)) as Hav3.
      { unfold st3. rewrite read_write_eq by (rewrite length_write; lia).
        rewrite read_write_ne by done. by rewrite Hav2. }
      rewrite Hfo3, Hav3 in Heq. split; [done | split; [| lia]].
      intros r Hr1 Hr2 Hr. rewrite Hframe by lia.
      unfold st3. rewrite !lookup_write_ne by done. by apply Hold.
    + unfold Arrays.splice.
      match goal with |- context [Arrays.planFlight_loop fuel s fo av ?td' ?cur' ?st'] =>
        specialize (IH s fo av td' cur' st' Hne); set (st3 := st') in *;
        destruct (Arrays.planFlight_loop fuel s fo av td' cur' st3) as [[td'' cur''] st4]
      end.
      assert (length st3 = length st2) as Hlen3 by (unfold st3; by rewrite !length_write).
      destruct IH as (Heq & Hframe & Hle); [lia | lia |].
      assert (Arrays.read st3 fo = Arrays.read st fo) as Hfo3.
      { unfold st3. rewrite read_write_ne by done. done. }
      assert (Arrays.read st3 av = delete index (Arrays.read st av)) as Hav3.
      { unfold st3. rewrite read_write_eq by lia. by rewrite Hav2. }
      rewrite Hfo3, Hav3 in Heq. split; [done | split; [| lia]].
      intros r Hr1 Hr2 Hr. rewrite Hframe by lia.
      unfold st3. rewrite !lookup_write_ne by done. by apply Hold.
Qed.

(** C10 (planning does not touch the queue).  For a queue whose heap
    array is in the store, a call of [planFlight] leaves that array, like
    every array that existed before the call, exactly as it was: the call
    splices only the copy that [toArray] allocated.  What it returns is what
    the planner computes from the contents of the heap array.  In
    [launchFlights] the queue after the call is the queue before it with the
    orders of the launched flights taken out by [dequeueById]. *)
Theorem planFlight_frame (s : ZipScheduler) (heap : Arrays.ref) (st : list (list Order)) :
  (heap < length st)%nat ->
  (let '(flightOrders, totalDistance, st') := Arrays.planFlight s heap st in
   st' !! heap = st !! heap /\
   (forall r, (r < length st)%nat -> st' !! r = st !! r) /\
   (Arrays.read st' flightOrders, totalDistance) = planFlightFrom s (Arrays.read st heap)) /\
  (forall currentTime,
     let '(flights, s', _) := launchFlights s currentTime in
     _unfulfilledOrders s' =
       fst (dequeueFlightOrders (_unfulfilledOrders s) (concat (orders <$> flights)))).
Proof.
  intros Hheap. split.
  - unfold Arrays.planFlight, Arrays.toArray, Arrays.alloc.
    set (st1 := st ++ [[]]).
    assert (length st1 = S (length st)) as Hlen1
      by (unfold st1; rewrite length_app; simpl; lia).
    rewrite list_fmap_id.
    assert (Arrays.read st1 heap = Arrays.read st heap) as -> by (by apply read_app_l).
    set (st2 := st1 ++ [Arrays.read st heap]).
    assert (length st2 = S (S (length st))) as Hlen2
      by (unfold st2; rewrite length_app; simpl; lia).
    assert (Arrays.read st2 (length st1) = Arrays.read st heap) as Hav by apply read_app_new.
    assert (Arrays.read st2 (length st) = []) as Hfo.
    { unfold st2. rewrite read_app_l by lia. apply read_app_new. }
    assert (forall r, (r < length st)%nat -> st2 !! r = st !! r) as Hold.
    { intros r Hr. unfold st2. rewrite lookup_app_l by lia.
      unfold st1. by rewrite lookup_app_l by lia. }
    rewrite Hav. unfold planFlightFrom.
    pose proof (planFlight_loop_refines (length (Arrays.read st heap)) s
                  (length st) (length st1) 0%R Nest st2) as H.
    destruct (Arrays.planFlight_loop _ s (length st) (length st1) 0%R Nest st2)
      as [[td cur] st3].
    destruct H as (Heq & Hframe & _); [lia | lia | lia |].
    rewrite Hfo, Hav in Heq. rewrite Heq.
    assert (forall r, (r < length st)%nat -> st3 !! r = st !! r) as Hall.
    { intros r Hr. rewrite Hframe by lia. by apply Hold. }
    destruct (0 <? length (Arrays.read st3 (length st)))%nat; auto.
  - intros t. pose proof (launchFlights_spec s t) as H.
    destruct (launchFlights s t) as [[flights s'] log]. apply H.
Qed.

Lemma planFlight_frame_witness :
  let st := [[orderE1; orderE2; orderR1]] in
  (0 < length st)%nat /\
  (let '(flightOrders, totalDistance, st') := Arrays.planFlight scenarioE 0%nat st in
   st' !! 0%nat = st !! 0%nat /\
   (forall r, (r < length st)%nat -> st' !! r = st !! r) /\
   (Arrays.read st' flightOrders, totalDistance) =
     planFlightFrom scenarioE (Arrays.read st 0%nat)) /\
  (forall currentTime,
     let '(flights, s', _) := launchFlights scenarioE currentTime in
     _unfulfilledOrders s' =
       fst (dequeueFlightOrders (_unfulfilledOrders scenarioE)
              (concat (orders <$> flights)))).
Proof.
  intros st. split; [simpl; lia |].
  apply (planFlight_frame scenarioE 0%nat st). simpl. lia.
Defined.

(** ** Fuel of the dispatch loop and further checks *)

(** More fuel than [availableZips] changes nothing: the dispatch loop
    has left through its guard or a [break] by then. *)
Lemma launchFlights_loop_fuel fuel : forall fuel' s currentTime availableZips,
  (Z.to_nat availableZips <= fuel)%nat -> (Z.to_nat availableZips <= fuel')%nat ->
  launchFlights_loop fuel s currentTime availableZips =
  launchFlights_loop fuel' s currentTime availableZips.
Proof.
  induction fuel as [|fuel IH]; intros fuel' s t a Hfuel Hfuel'.
  - rewrite !launchFlights_loop_done by (left; lia). done.
  - destruct fuel' as [|fuel']; [rewrite !launchFlights_loop_done by (left; lia); done |].
    destruct (decide (a <= 0)%Z) as [Ha | Ha];
      [rewrite !launchFlights_loop_done by (by left); done |].
    rewrite !launchFlights_loop_S.
    destruct ((0 <? a)%Z && negb (PQ.isEmpty (_unfulfilledOrders s))); [| done].
    cbv zeta. destruct (planFlight s) as [fo td].
    destruct (length fo =? 0)%nat; [done |].
    destruct ((0 <? countByPriority s Emergency)%nat && (a <? 1)%Z); [done |].
    destruct ((countByPriority s Emergency =? 0)%nat && (a <? RESERVED_EMERGENCY_ZIPS)%Z);
      [done |].
    destruct (commitFlight s t fo td) as [[f s1] log].
    by rewrite (IH fuel' s1 t (a - 1)%Z) by lia.
Qed.

(** The far hospital of the test suite is turned away. *)
Example queueOrder_rejects_far :
  let s := newZipScheduler 5 10 10 10000 in
  let order := mkOrder "order2" (mkHospital "Far Hospital" 5000 5000) Resupply 1 in
  exists distance, queueOrder s order = (s, [OrderExceedsMaximumRange order distance]).
Proof.
  intros s order. eexists. apply queueOrder_reject.
  unfold calculateDistance, s, order, newZipScheduler.
  cbn [locationOf hospital northM eastM locNorthM locEastM Nest zipMaxCumulativeRangeM].
  assert (5000 < sqrt ((5000 - 0) ^ 2 + (5000 - 0) ^ 2))%R; [| lra].
  rewrite <- (sqrt_square 5000) at 1 by lra. apply sqrt_lt_1; nra.
Qed.

(** Draining a queue filled in arrival order. *)
Example drain_example :
  PQ.drain (PQ.enqueueAll
    [mkOrder "r1" (mkHospital "A" 1000 1000) Resupply 5;
     mkOrder "e1" (mkHospital "B" 2000 2000) Emergency 9;
     mkOrder "r2" (mkHospital "C" 3000 3000) Resupply 2;
     mkOrder "e2" (mkHospital "A" 1000 1000) Emergency 3])
  = [mkOrder "e2" (mkHospital "A" 1000 1000) Emergency 3;
     mkOrder "e1" (mkHospital "B" 2000 2000) Emergency 9;
     mkOrder "r2" (mkHospital "C" 3000 3000) Resupply 2;
     mkOrder "r1" (mkHospital "A" 1000 1000) Resupply 5].
Proof. vm_compute. reflexivity. Qed.

(** ** The position that [indexOf] finds

    [indexOf] compares orders field by field where the source compares
    object identities.  The two agree on the order that the scan keeps:
    the scan keeps the first order of its pool at the least distance, and
    every order of the same pool that [availableOrders] holds before the
    position found is strictly farther away, so the position found is the
    one the kept object itself came from. *)

Lemma first_occurrence_unique {A} (x : A) (l1 l2 l3 l4 : list A) :
  l1 ++ x :: l2 = l3 ++ x :: l4 -> x ∉ l1 -> x ∉ l3 -> l1 = l3.
Proof.
  revert l3. induction l1 as [|a l1 IH]; intros [|b l3] Heq H1 H3; simpl in *.
  - done.
  - injection Heq as <- _. exfalso. apply H3. by left.
  - injection Heq as -> _. exfalso. apply H1. by left.
  - injection Heq as <- Heq. f_equal. apply IH; [done | |].
    + intros H. apply H1. by right.
    + intros H. apply H3. by right.
Qed.

Lemma findNearestOrder_scan_first availableOrders currentLocation rest : forall seen acc,
  nearestOf availableOrders currentLocation seen acc ->
  keptFirst currentLocation seen acc ->
  keptFirst currentLocation (seen ++ rest)
    (foldl (nearestStep availableOrders currentLocation) acc rest).
Proof.
  induction rest as [|o rest IH]; intros seen acc Hacc Hfirst; simpl.
  - by rewrite app_nil_r.
  - replace (seen ++ o :: rest) with ((seen ++ [o]) ++ rest) by by rewrite <- app_assoc.
    apply IH.
    { apply (findNearestOrder_scan availableOrders currentLocation [o] seen acc Hacc). }
    unfold nearestStep. destruct acc as [[[o0 i0] d0]|]; simpl in *.
    + destruct Hacc as (_ & _ & _ & Hmin). destruct Hfirst as (pre & post & -> & Hpre).
      case_decide as Hlt; simpl.
      * exists (pre ++ o0 :: post), []. split; [done |].
        intros o' Ho'. specialize (Hmin o' Ho'). lra.
      * exists pre, (post ++ [o]). split; [by rewrite <- app_assoc | done].
    + subst seen. exists [], []. split; [done |]. intros o' Ho'. by apply elem_of_nil in Ho'.
Qed.

Lemma findNearestOrder_position (P : Order -> Prop) `{forall o, Decision (P o)}
    availableOrders currentLocation o index d :
  findNearestOrder availableOrders currentLocation (filter P availableOrders)
    = Some (o, Some index, d) ->
  availableOrders !! index = Some o /\
  forall j o', (j < index)%nat -> availableOrders !! j = Some o' -> P o' ->
    (d < calculateDistance currentLocation (locationOf (hospital o')))%R.
Proof.
  intros Hfind.
  pose proof (findNearestOrder_spec availableOrders currentLocation
                (filter P availableOrders)) as Hspec.
  pose proof (findNearestOrder_scan_first availableOrders currentLocation
                (filter P availableOrders) [] None eq_refl I) as Hfirst.
  fold (findNearestOrder availableOrders currentLocation (filter P availableOrders))
    in Hfirst.
  rewrite Hfind in Hspec, Hfirst. simpl in Hspec, Hfirst.
  destruct Hspec as (Hin & Hidx & Hd & _). destruct Hfirst as (pre & post & Hpool & Hpre).
  apply list_elem_of_filter in Hin as [HP _].
  unfold indexOf in Hidx. destruct (list_find _ availableOrders) as [[i y]|] eqn:Hf; [| done].
  simpl in Hidx. injection Hidx as ->.
  apply list_find_Some in Hf as (Hl & -> & Hbefore). split; [done |].
  intros j o' Hj Hl' HP'. apply Hpre.
  assert (o ∉ pre) as Hnotpre.
  { intros Ho. specialize (Hpre o Ho). lra. }
  assert (o ∉ take i availableOrders) as Hnottake.
  { intros Ho. apply list_elem_of_lookup in Ho as [k Hk].
    pose proof (lookup_lt_Some _ _ _ Hk) as Hlen. rewrite length_take in Hlen.
    rewrite lookup_take_lt in Hk by lia. apply (Hbefore k o Hk); [lia | done]. }
  rewrite <- (take_drop_middle availableOrders i o Hl) in Hpool.
  rewrite filter_app, filter_cons_True in Hpool by done.
  assert (pre = filter P (take i availableOrders)) as ->.
  { symmetry. eapply first_occurrence_unique; [exact Hpool | | done].
    intros Ho. apply list_elem_of_filter in Ho as [_ Ho]. done. }
  apply list_elem_of_filter. split; [done |].
  apply list_elem_of_lookup. exists j. by rewrite lookup_take_lt.
Qed.

(* ================================================================== *)
(** * Further properties of the queue and the scheduler *)

Local Close Scope R_scope.

(** ** The queue *)

(** X1 ([enqueue]).  Enqueuing into an ordered heap gives an ordered
    heap that holds the new order and the old ones, each as often as
    before, and is one longer. *)
Theorem enqueue_correct (heap : PQ.t) (order : Order) :
  heapOrdered heap ->
  heapOrdered (PQ.enqueue heap order) /\
  PQ.enqueue heap order ≡ₚ order :: heap /\
  PQ.size (PQ.enqueue heap order) = S (PQ.size heap).
Proof.
  intros Hh. split; [by apply enqueue_heapOrdered |].
  split; [apply enqueue_Permutation |].
  unfold PQ.size. by rewrite (Permutation_length (enqueue_Permutation heap order)).
Qed.

Lemma enqueue_correct_witness :
  let heap := PQ.enqueueAll [orderE1; orderR1; orderE2] in
  heapOrdered heap /\
  heapOrdered (PQ.enqueue heap orderA1) /\
  PQ.enqueue heap orderA1 ≡ₚ orderA1 :: heap /\
  PQ.size (PQ.enqueue heap orderA1) = S (PQ.size heap).
Proof.
  intros heap. split; [apply enqueueAll_heapOrdered |].
  apply (enqueue_correct heap orderA1), enqueueAll_heapOrdered.
Defined.

(** X2 ([dequeue]).  On the empty queue [dequeue] returns [null] and the
    queue stays empty.  On an ordered heap with orders it returns the order
    at the root, which is served no later than any order of the queue, and
    leaves an ordered heap of the other orders, one shorter. *)
Theorem dequeue_correct (heap : PQ.t) :
  heapOrdered heap ->
  match PQ.dequeue heap with
  | (None, heap') => heap = [] /\ heap' = []
  | (Some top, heap') =>
      PQ.peek heap = Some top /\
      (forall o, o ∈ heap -> servedBefore top o) /\
      heap ≡ₚ top :: heap' /\
      heapOrdered heap' /\
      S (PQ.size heap') = PQ.size heap
  end.
Proof.
  intros Hh. pose proof (dequeue_spec heap Hh) as H.
  destruct (PQ.dequeue heap) as [[top|] heap']; [| done].
  destruct H as (Hperm & Hh' & Htop). split; [done |]. split; [| split; [done | split; [done |]]].
  - intros o Ho. apply list_elem_of_lookup in Ho as [i Hi].
    exact (root_minimal heap top Hh Htop i o Hi).
  - unfold PQ.size. by rewrite (Permutation_length Hperm).
Qed.

Lemma dequeue_correct_witness :
  let heap := PQ.enqueueAll [orderR1; orderE2; orderE1] in
  heapOrdered heap /\
  match PQ.dequeue heap with
  | (None, heap') => heap = [] /\ heap' = []
  | (Some top, heap') =>
      PQ.peek heap = Some top /\
      (forall o, o ∈ heap -> servedBefore top o) /\
      heap ≡ₚ top :: heap' /\
      heapOrdered heap' /\
      S (PQ.size heap') = PQ.size heap
  end.
Proof.
  intros heap. split; [apply enqueueAll_heapOrdered |].
  apply (dequeue_correct heap), enqueueAll_heapOrdered.
Defined.

(** X3 ([peek], [isEmpty], [size]).  [peek] returns [null] exactly on
    the empty queue, where [isEmpty] holds and [size] is 0; otherwise it
    returns, without taking it out, the order that [dequeue] would return. *)
Theorem peek_correct (heap : PQ.t) :
  (PQ.peek heap = None <-> PQ.isEmpty heap = true) /\
  (PQ.isEmpty heap = true <-> PQ.size heap = 0) /\
  PQ.peek heap = fst (PQ.dequeue heap).
Proof.
  destruct heap as [|top rest]; [done |].
  split; [done | split; [done |]].
  destruct (snoc_cases rest) as [-> | (l & x & ->)]; [done |].
  unfold PQ.dequeue. change (top :: l ++ [x]) with ((top :: l) ++ [x]).
  rewrite pop_snoc. simpl. by destruct l.
Qed.

(** X4 ([compare]).  [compare] orders the orders by priority class and
    then by arrival time: swapping the arguments flips the sign, "no
    later than" is transitive, an Emergency order precedes a Resupply order
    whatever their times, and the result is 0 exactly for two orders of
    one class and one time. *)
Theorem compare_total_preorder (a b c : Order) :
  PQ.compare b a = (- PQ.compare a b)%Z /\
  ((PQ.compare a b <= 0)%Z -> (PQ.compare b c <= 0)%Z -> (PQ.compare a c <= 0)%Z) /\
  (priority a = Emergency -> priority b = Resupply -> (PQ.compare a b < 0)%Z) /\
  (PQ.compare a b = 0%Z <-> priority a = priority b /\ time a = time b).
Proof.
  split; [apply compare_antisym |]. split; [apply servedBefore_trans |].
  unfold PQ.compare. destruct (priority a), (priority b); simpl;
    repeat split; try done; try lia; intros; try lia;
    match goal with H : _ /\ _ |- _ => destruct H; try done; lia end.
Qed.

(** X5 ([bubbleUp], [bubbleDown]).  Started at an index inside the
    array, the two sifts only reorder the array, and each has ended within
    the number of turns its start leaves room for: [index] turns going up,
    [length - index] going down. *)
Theorem sifts_reorder_and_end (heap : PQ.t) (index fuel : nat) :
  index < length heap ->
  PQ.bubbleUp heap index ≡ₚ heap /\
  PQ.bubbleDown heap index ≡ₚ heap /\
  (index <= fuel -> PQ.bubbleUp_loop fuel heap index = PQ.bubbleUp heap index) /\
  (length heap - index <= fuel ->
   PQ.bubbleDown_loop fuel heap index = PQ.bubbleDown heap index).
Proof.
  intros _.
  split; [apply bubbleUp_Permutation |]. split; [apply bubbleDown_Permutation |].
  split; intros Hfuel.
  - by apply bubbleUp_loop_fuel.
  - by apply bubbleDown_loop_fuel.
Qed.

Lemma sifts_reorder_and_end_witness :
  1 < length [orderR1; orderE1; orderE2] /\
  PQ.bubbleUp [orderR1; orderE1; orderE2] 1 ≡ₚ [orderR1; orderE1; orderE2] /\
  PQ.bubbleDown [orderR1; orderE1; orderE2] 1 ≡ₚ [orderR1; orderE1; orderE2] /\
  (1 <= 2 ->
   PQ.bubbleUp_loop 2 [orderR1; orderE1; orderE2] 1
   = PQ.bubbleUp [orderR1; orderE1; orderE2] 1) /\
  (length [orderR1; orderE1; orderE2] - 1 <= 2 ->
   PQ.bubbleDown_loop 2 [orderR1; orderE1; orderE2] 1
   = PQ.bubbleDown [orderR1; orderE1; orderE2] 1).
Proof.
  assert (1 < length [orderR1; orderE1; orderE2]) as H by (simpl; lia).
  split; [exact H | exact (sifts_reorder_and_end [orderR1; orderE1; orderE2] 1 2 H)].
Defined.

(** X6 ([enqueue] then [dequeueById]).  Taking an order out by its id
    right after it was enqueued, when no other queued order has that id,
    returns that order and leaves an ordered heap of the orders that were
    there before. *)
Theorem enqueue_dequeueById (heap : PQ.t) (order : Order) :
  heapOrdered heap ->
  (forall o, o ∈ heap -> id o <> id order) ->
  let '(removed, heap') := PQ.dequeueById (PQ.enqueue heap order) (id order) in
  removed = Some order /\ heap' ≡ₚ heap /\ heapOrdered heap'.
Proof.
  intros Hh Hfresh.
  pose proof (dequeueById_heapOrdered _ (id order) (enqueue_heapOrdered heap order Hh)) as Hh'.
  destruct (PQ.findIndex (id order) (PQ.enqueue heap order)) as [index|] eqn:Hf.
  - destruct (dequeueById_found _ _ _ Hf) as (o' & heap' & Hd & Hl & Hid & Hperm).
    rewrite Hd in *. simpl in Hh'.
    assert (o' = order) as ->.
    { assert (o' ∈ order :: heap) as Hin.
      { rewrite <- enqueue_Permutation. by eapply list_elem_of_lookup_2. }
      apply elem_of_cons in Hin as [-> | Hin]; [done |]. by destruct (Hfresh o' Hin). }
    split; [done | split; [| done]].
    apply (Permutation_cons_inv (a := order)).
    by rewrite <- Hperm, enqueue_Permutation.
  - exfalso. apply (proj1 (findIndex_None _ _) Hf order); [| done].
    rewrite enqueue_Permutation. by left.
Qed.

Lemma enqueue_dequeueById_witness :
  let heap := PQ.enqueueAll [orderE1; orderR1; orderE2] in
  heapOrdered heap /\
  (forall o, o ∈ heap -> id o <> id orderA1) /\
  let '(removed, heap') := PQ.dequeueById (PQ.enqueue heap orderA1) (id orderA1) in
  removed = Some orderA1 /\ heap' ≡ₚ heap /\ heapOrdered heap'.
Proof.
  intros heap.
  assert (forall o, o ∈ heap -> id o <> id orderA1) as Hfresh.
  { intros o Ho. unfold heap in Ho. rewrite enqueueAll_Permutation in Ho.
    repeat (apply elem_of_cons in Ho as [-> | Ho]; [discriminate |]).
    by apply elem_of_nil in Ho. }
  split; [apply enqueueAll_heapOrdered |]. split; [exact Hfresh |].
  apply (enqueue_dequeueById heap orderA1 (enqueueAll_heapOrdered _) Hfresh).
Defined.

(** X7 (ties).  Orders of one class and one arrival time are not always
    handed out in the sequence they were enqueued: of three such orders
    the third comes out before the second. *)
Theorem ties_not_first_in_first_out :
  exists a b c,
    PQ.compare a b = 0%Z /\ PQ.compare b c = 0%Z /\
    PQ.drain (PQ.enqueueAll [a; b; c]) = [a; c; b] /\ b <> c.
Proof.
  exists (mkOrder "t1" (mkHospital "A" 1000 0) Resupply 5),
         (mkOrder "t2" (mkHospital "A" 1000 0) Resupply 5),
         (mkOrder "t3" (mkHospital "A" 1000 0) Resupply 5).
  repeat split; try (vm_compute; reflexivity). discriminate.
Qed.

(** ** The route of a planned flight *)

Local Open Scope R_scope.

Lemma routeLength_snoc stops : forall from o,
  routeLength from (stops ++ [o]) =
    routeLength from stops
    + calculateDistance (routeEnd from stops) (locationOf (hospital o)).
Proof.
  induction stops as [|a stops IH]; intros from o; simpl.
  - lra.
  - rewrite IH. lra.
Qed.

Lemma routeEnd_snoc stops : forall from o,
  routeEnd from (stops ++ [o]) = locationOf (hospital o).
Proof. induction stops as [|a stops IH]; intros from o; simpl; [done | apply IH]. Qed.

Lemma routeLength_nonneg stops : forall from, 0 <= routeLength from stops.
Proof.
  induction stops as [|a stops IH]; intros from; simpl; [lra |].
  pose proof (calculateDistance_nonneg from (locationOf (hospital a))).
  specialize (IH (locationOf (hospital a))). lra.
Qed.

Lemma calculateDistance_self l : calculateDistance l l = 0.
Proof.
  unfold calculateDistance. cbv zeta.
  replace ((IZR (locNorthM l) - IZR (locNorthM l)) ^ 2
           + (IZR (locEastM l) - IZR (locEastM l)) ^ 2) with 0 by ring.
  apply sqrt_0.
Qed.

(** The loop keeps in [totalDistance] the length of the route flown so
    far and in [currentLocation] its end. *)
Lemma planFlight_loop_route s fuel avail :
  let '(fo, td, cur) := planFlight_loop fuel s [] 0 Nest avail in
  td = routeLength Nest fo /\ cur = routeEnd Nest fo.
Proof.
  destruct (planFlight_loop_invariant s (fun fo td cur _ =>
      td = routeLength Nest fo /\ cur = routeEnd Nest fo))
    with (fuel := fuel) (fo := @nil Order) (td := 0) (cur := Nest) (avail := avail)
    as [_ H].
  - intros fo td cur av o index [-> ->] _ _ _ _.
    by rewrite routeLength_snoc, routeEnd_snoc.
  - by intros fo td cur av o index H _ _ _ _.
  - done.
  - by destruct (planFlight_loop fuel s [] 0 Nest avail) as [[fo td] cur].
Qed.

Lemma planFlightFrom_roundTrip s avail :
  let '(flightOrders, totalDistance) := planFlightFrom s avail in
  totalDistance = roundTrip flightOrders /\ 0 <= totalDistance.
Proof.
  unfold planFlightFrom.
  pose proof (planFlight_loop_route s (length avail) avail) as H.
  destruct (planFlight_loop _ s [] 0 Nest _) as [[fo td] cur].
  destruct H as [-> ->].
  assert (roundTrip fo = routeLength Nest fo + calculateDistance (routeEnd Nest fo) Nest)
    as Hrt by done.
  pose proof (routeLength_nonneg fo Nest).
  pose proof (calculateDistance_nonneg (routeEnd Nest fo) Nest).
  destruct fo as [|o fo].
  - unfold roundTrip. simpl. rewrite calculateDistance_self. lra.
  - change (0 <? length (o :: fo))%nat with true. cbv iota beta. rewrite Hrt. lra.
Qed.

(** X8 (the distance of a flight).  The distance [planFlight] reports is
    the length of the round trip from the Nest through its stops, in the
    sequence it lists them, and back to the Nest, whatever the range and
    the load limit are; so it is never negative. *)
Theorem planFlight_distance_is_round_trip s :
  let '(flightOrders, totalDistance) := planFlight s in
  totalDistance = roundTrip flightOrders /\ 0 <= totalDistance.
Proof. rewrite planFlight_unfold. apply planFlightFrom_roundTrip. Qed.

(** X9 (Emergency stops come first).  The stops of a planned flight are
    a run of Emergency orders followed by a run of other orders: once the
    loop has appended an order that is not an Emergency, it appends no
    Emergency order any more. *)
Theorem planFlight_emergencies_first s :
  exists emergencies others,
    fst (planFlight s) = emergencies ++ others /\
    Forall (fun o => priority o = Emergency) emergencies /\
    Forall (fun o => priority o <> Emergency) others.
Proof.
  rewrite planFlight_unfold. unfold planFlightFrom.
  destruct (planFlight_loop_invariant s (fun fo _ _ av =>
      exists es rs, fo = es ++ rs /\
        Forall (fun o => priority o = Emergency) es /\
        Forall (fun o => priority o <> Emergency) rs /\
        (rs <> [] -> Forall (fun o => priority o <> Emergency) av)))
    with (fuel := length (_unfulfilledOrders s)) (fo := @nil Order) (td := 0)
         (cur := Nest) (avail := _unfulfilledOrders s)
    as [av (es & rs & Hfo & Hes & Hrs & _)].
  - intros fo td cur av o index (es & rs & -> & Hes & Hrs & Hav) _ Hsel Hl _.
    pose proof (selectOrder_spec av cur) as Hspec. rewrite Hsel in Hspec.
    destruct Hspec as (_ & _ & Hprio & _).
    assert (o ∈ av) as Hin by (by eapply list_elem_of_lookup_2).
    destruct (decide (priority o = Emergency)) as [Ho | Ho].
    + destruct rs as [|r rs].
      * exists (es ++ [o]), []. rewrite !app_nil_r.
        split; [done | split; [| split; [done | done]]].
        apply Forall_app. split; [done | by apply Forall_singleton].
      * exfalso. assert (Forall (fun o => priority o <> Emergency) av) as Hno by by apply Hav.
        rewrite Forall_forall in Hno. by apply (Hno o Hin).
    + exists es, (rs ++ [o]).
      split; [by rewrite app_assoc | split; [done | split]].
      * apply Forall_app. split; [done | by apply Forall_singleton].
      * intros _. apply Forall_forall. intros e He Hpe. apply Ho, Hprio.
        exists e. split; [| done].
        eapply elem_of_sublist; [exact He | apply sublist_delete].
  - intros fo td cur av o index (es & rs & -> & Hes & Hrs & Hav) _ _ _ _.
    exists es, rs. split; [done | split; [done | split; [done |]]].
    intros Hne. apply Forall_forall. intros e He.
    specialize (Hav Hne). rewrite Forall_forall in Hav. apply Hav.
    eapply elem_of_sublist; [exact He | apply sublist_delete].
  - exists [], []. split; [done | split; [done | split; [done | done]]].
  - destruct (planFlight_loop _ s [] 0 Nest _) as [[fo td] cur]. simpl in Hfo.
    exists es, rs. split; [| done]. by destruct (0 <? length fo)%nat.
Qed.

(** The first stop of a flight is the order the selection picks on the
    whole array from the Nest, as long as a round trip to it alone is
    within the range. *)
Lemma planFlightFrom_first_stop s avail :
  (forall o, o ∈ avail -> withinRange s o) ->
  avail <> [] -> (1 <= maxPackagesPerZip s)%nat ->
  exists o rest,
    fst (planFlightFrom s avail) = o :: rest /\ o ∈ avail /\
    ((exists e, e ∈ avail /\ priority e = Emergency) -> priority o = Emergency) /\
    (forall o', o' ∈ avail -> priority o' = priority o ->
       calculateDistance Nest (locationOf (hospital o))
       <= calculateDistance Nest (locationOf (hospital o'))).
Proof.
  intros Hrange Hne Hmax. unfold planFlightFrom.
  destruct avail as [|a avail]; [done |].
  cbn [length]. rewrite planFlight_loop_S. cbn [length].
  replace (0 <? maxPackagesPerZip s)%nat with true by (symmetry; apply Nat.ltb_lt; lia).
  change (0 <? S (length avail))%nat with true. cbn [andb].
  pose proof (selectOrder_spec (a :: avail) Nest) as Hsel.
  destruct (selectOrder (a :: avail) Nest) as [[[o [index|]] d]|].
  2:{ by destruct Hsel as ((index & [=] & _) & _). }
  2:{ done. }
  destruct Hsel as ((index' & [= <-] & Hl) & -> & Hprio & Hmin).
  assert (o ∈ a :: avail) as Hin by (by eapply list_elem_of_lookup_2).
  pose proof (Hrange o Hin) as Ho. unfold withinRange in Ho.
  rewrite decide_True.
  2:{ rewrite (calculateDistance_sym (locationOf (hospital o)) Nest). lra. }
  match goal with |- context [planFlight_loop ?f s ?fo ?td ?cur ?av] =>
    destruct (planFlight_loop_prefix s f fo td cur av) as [more Hmore];
    destruct (planFlight_loop f s fo td cur av) as [[fo' td'] cur'] end.
  simpl in Hmore. subst fo'. exists o, more.
  split; [by destruct (0 <? length ([] ++ [o] ++ more))%nat | done].
Qed.

(** ** The flights of one dispatch *)

(** A relation between the flights launched so far and the scheduler
    that survives every committed flight holds when the loop is left. *)
Lemma launchFlights_loop_acc (J : list Flight -> ZipScheduler -> Prop) currentTime :
  (forall acc s fo td,
     J acc s -> _unfulfilledOrders s <> [] -> planFlight s = (fo, td) -> fo <> [] ->
     J (acc ++ [newFlight currentTime fo td])
       (snd (fst (commitFlight s currentTime fo td)))) ->
  forall fuel s availableZips acc,
    J acc s ->
    J (acc ++ fst (fst (launchFlights_loop fuel s currentTime availableZips)))
      (snd (fst (launchFlights_loop fuel s currentTime availableZips))).
Proof.
  intros Hstep. induction fuel as [|fuel IH]; intros s a acc HJ.
  - simpl. by rewrite app_nil_r.
  - rewrite launchFlights_loop_S.
    destruct (0 <? a)%Z; cbn [andb]; [| simpl; by rewrite app_nil_r].
    destruct (_unfulfilledOrders s) as [|q0 q] eqn:Hq; cbn [PQ.isEmpty length Nat.eqb negb];
      [simpl; by rewrite app_nil_r |].
    cbv zeta. destruct (planFlight s) as [fo td] eqn:Hplan.
    destruct (length fo =? 0)%nat eqn:Hfo; [simpl; by rewrite app_nil_r |].
    destruct ((0 <? countByPriority s Emergency)%nat && (a <? 1)%Z);
      [simpl; by rewrite app_nil_r |].
    destruct ((countByPriority s Emergency =? 0)%nat && (a <? RESERVED_EMERGENCY_ZIPS)%Z);
      [simpl; by rewrite app_nil_r |].
    assert (fo <> []) as Hne by (by destruct fo).
    assert (_unfulfilledOrders s <> []) as Hq' by (by rewrite Hq).
    specialize (Hstep acc s fo td HJ Hq' Hplan Hne).
    rewrite commitFlight_unfold in *. cbn [fst snd] in Hstep.
    match goal with |- context [launchFlights_loop fuel ?s1 currentTime (a - 1)%Z] =>
      specialize (IH s1 (a - 1)%Z _ Hstep);
      destruct (launchFlights_loop fuel s1 currentTime (a - 1)%Z) as [[flights s''] log'] end.
    cbn [fst snd] in *. by rewrite <- app_assoc in IH.
Qed.

(** The same for [launchFlights], which starts the loop on the scheduler
    that [releaseReturningZips] leaves. *)
Lemma launchFlights_acc (J : list Flight -> ZipScheduler -> Prop) s currentTime :
  (forall acc s fo td,
     J acc s -> _unfulfilledOrders s <> [] -> planFlight s = (fo, td) -> fo <> [] ->
     J (acc ++ [newFlight currentTime fo td])
       (snd (fst (commitFlight s currentTime fo td)))) ->
  J [] (releaseReturningZips s currentTime) ->
  J (fst (fst (launchFlights s currentTime))) (snd (fst (launchFlights s currentTime))).
Proof.
  intros Hstep H0. unfold launchFlights.
  destruct (PQ.isEmpty _); [done |].
  by apply (launchFlights_loop_acc J currentTime Hstep _ _ _ []).
Qed.

(** ** A planned order that is not in the queue *)





(** ** No order is lost or counted twice *)

Lemma sum_list_filter_split {A} (f : A -> nat) (P : A -> Prop) `{forall x, Decision (P x)}
    (l : list A) :
  (sum_list (f <$> filter P l) + sum_list (f <$> filter (fun x => ~ P x) l)
   = sum_list (f <$> l))%nat.
Proof.
  induction l as [|x l IH]; [done |].
  rewrite !filter_cons. destruct (decide (P x)) as [HP | HP].
  - rewrite decide_False by tauto. rewrite !fmap_cons. cbn [sum_list sum_list_with]. lia.
  - rewrite decide_True by done. rewrite !fmap_cons. cbn [sum_list sum_list_with]. lia.
Qed.

Lemma sum_list_app (l k : list nat) : (sum_list (l ++ k) = sum_list l + sum_list k)%nat.
Proof. induction l as [|x l IH]; [done |]. cbn [app sum_list sum_list_with] in *. lia. Qed.

Lemma accounted_release s currentTime :
  accounted (releaseReturningZips s currentTime) = accounted s.
Proof.
  rewrite releaseReturningZips_spec. unfold accounted, stopsAloft, unfulfilledOrdersCount.
  cbn [completeOrderCount activeFlights _unfulfilledOrders].
  pose proof (sum_list_filter_split (length ∘ orders ∘ flight)
    (fun e => (returnTime e <= currentTime)%R) (activeFlights s)). lia.
Qed.

Lemma accounted_commit s currentTime fo td :
  planFlight s = (fo, td) ->
  accounted (snd (fst (commitFlight s currentTime fo td))) = accounted s.
Proof.
  intros Hplan. rewrite planFlight_unfold in Hplan.
  pose proof (planFlightFrom_spec s (_unfulfilledOrders s)) as Hspec.
  rewrite Hplan in Hspec. destruct Hspec as (_ & Hsub & _).
  destruct (dequeueFlightOrders_all_found fo (_unfulfilledOrders s)) as [_ Hlen];
    [by apply fmap_submseteq |].
  rewrite commitFlight_unfold. unfold accounted, stopsAloft, unfulfilledOrdersCount, PQ.size.
  cbn [fst snd completeOrderCount activeFlights _unfulfilledOrders].
  rewrite fmap_app, sum_list_app. simpl. lia.
Qed.

Lemma accounted_launchFlights s currentTime :
  accounted (snd (fst (launchFlights s currentTime))) = accounted s.
Proof.
  apply (launchFlights_acc (fun _ s' => accounted s' = accounted s) s currentTime).
  - intros _ s' fo td Hacc _ Hplan _.
    by rewrite (accounted_commit s' currentTime fo td Hplan).
  - apply accounted_release.
Qed.

(** X10 (orders are conserved).  Count the stops delivered, the stops
    of the flights in the air and the orders pending.  Releasing Zips and
    dispatching flights leave the sum as it is: they only move orders from
    pending to in the air and from there to delivered.  [queueOrder] adds
    one to it when it admits the order and nothing when it rejects it. *)
Theorem orders_accounted s :
  (forall currentTime, accounted (releaseReturningZips s currentTime) = accounted s) /\
  (forall currentTime, accounted (snd (fst (launchFlights s currentTime))) = accounted s) /\
  (forall order,
     accounted (fst (queueOrder s order)) =
       if decide (2 * calculateDistance Nest (locationOf (hospital order))
                  > zipMaxCumulativeRangeM s)%R
       then accounted s else S (accounted s)).
Proof.
  split; [apply accounted_release | split; [apply accounted_launchFlights |]].
  intros order. unfold queueOrder. case_decide; [done |].
  unfold accounted, stopsAloft, unfulfilledOrdersCount, PQ.size.
  cbn [fst completeOrderCount activeFlights _unfulfilledOrders set_unfulfilledOrders].
  rewrite (Permutation_length (enqueue_Permutation _ _)). simpl. lia.
Qed.

(** ** Releasing Zips *)

Lemma release_filter_twice (currentTime laterTime : R) (entries : list ActiveFlight) :
  (currentTime <= laterTime)%R ->
  filter (fun e => ~ (returnTime e <= laterTime)%R)
    (filter (fun e => ~ (returnTime e <= currentTime)%R) entries)
  = filter (fun e => ~ (returnTime e <= laterTime)%R) entries /\
  (sum_list (length ∘ orders ∘ flight <$>
     filter (fun e => (returnTime e <= currentTime)%R) entries)
   + sum_list (length ∘ orders ∘ flight <$>
       filter (fun e => (returnTime e <= laterTime)%R)
         (filter (fun e => ~ (returnTime e <= currentTime)%R) entries))
   = sum_list (length ∘ orders ∘ flight <$>
       filter (fun e => (returnTime e <= laterTime)%R) entries))%nat.
Proof.
  intros Hle. induction entries as [|e entries [IH1 IH2]]; [done |].
  rewrite !(filter_cons _ e entries).
  repeat (case_decide || rewrite !(filter_cons _ e));
    try (exfalso; tauto); try (exfalso; lra);
    (split; [by rewrite ?IH1 | rewrite ?fmap_cons; cbn [sum_list sum_list_with]; lia]).
Qed.

(** X11 (a Zip is released once).  Releasing at a time and then again
    at the same or a later time gives the scheduler that one release at
    the later time gives: the flights that came back meanwhile are gone
    and their stops were added to [completeOrderCount] once. *)
Theorem release_then_release (s : ZipScheduler) (currentTime laterTime : R) :
  (currentTime <= laterTime)%R ->
  releaseReturningZips (releaseReturningZips s currentTime) laterTime
  = releaseReturningZips s laterTime.
Proof.
  intros Hle. rewrite !releaseReturningZips_spec.
  cbn [numZips maxPackagesPerZip zipSpeedMps zipMaxCumulativeRangeM completeOrderCount
       _unfulfilledOrders activeFlights].
  destruct (release_filter_twice currentTime laterTime (activeFlights s) Hle) as [-> <-].
  f_equal. lia.
Qed.

Lemma release_then_release_witness :
  (199 <= 200)%R /\
  releaseReturningZips (releaseReturningZips scenarioD 199) 200
  = releaseReturningZips scenarioD 200.
Proof.
  assert (199 <= 200)%R as H by lra.
  split; [exact H | exact (release_then_release scenarioD 199 200 H)].
Defined.

(** X12 (the two classes make up the queue).  The Emergency count and
    the Resupply count, each taken by [countByPriority] on a copy of the
    queue, add up to the size of the queue. *)
Theorem countByPriority_total (s : ZipScheduler) :
  (countByPriority s Emergency + countByPriority s Resupply = unfulfilledOrdersCount s)%nat.
Proof.
  unfold countByPriority, unfulfilledOrdersCount, PQ.size. rewrite toArray_id.
  induction (_unfulfilledOrders s) as [|o q IH]; [done |].
  rewrite !filter_cons. destruct (priority o) eqn:Hp.
  - rewrite decide_True by done. rewrite decide_False by done. simpl. lia.
  - rewrite decide_False by done. rewrite decide_True by done. simpl. lia.
Qed.

(** ** The flights in the air *)

Local Open Scope R_scope.

Lemma wellFormedFlight_config s s' f :
  sameConfig s s' -> wellFormedFlight s' f -> wellFormedFlight s f.
Proof.
  intros (_ & Hm & _ & Hr). unfold wellFormedFlight. by rewrite Hm, Hr.
Qed.

(** Every flight of a dispatch is well formed and launched at the time
    of the dispatch. *)
Lemma launchFlights_wellFormed s currentTime :
  Forall (fun f => launchTime f = currentTime /\ wellFormedFlight s f)
    (fst (fst (launchFlights s currentTime))).
Proof.
  apply (launchFlights_acc (fun acc s' =>
    sameConfig s s' /\
    Forall (fun f => launchTime f = currentTime /\ wellFormedFlight s f) acc) s currentTime).
  - intros acc s' fo td [Hcfg Hacc] _ Hplan Hne. split.
    + rewrite commitFlight_unfold. simpl. destruct Hcfg as (? & ? & ? & ?). by repeat split.
    + apply Forall_app. split; [done |]. apply Forall_singleton. split; [done |].
      apply (wellFormedFlight_config s s'); [done |].
      rewrite planFlight_unfold in Hplan.
      pose proof (planFlightFrom_spec s' (_unfulfilledOrders s')) as Hspec.
      pose proof (planFlightFrom_roundTrip s' (_unfulfilledOrders s')) as Hrt.
      rewrite Hplan in Hspec, Hrt. destruct Hspec as (Hlen & _ & Hrange).
      destruct Hrt as [Hrt Hpos].
      destruct Hrange as [[-> _] | [_ Hrange]]; [done |].
      unfold wellFormedFlight. simpl. repeat split; try done.
  - split; [| done]. rewrite releaseReturningZips_spec. by repeat split.
Qed.

Lemma Forall_filter_keep {A} (P Q : A -> Prop) `{forall x, Decision (P x)} (l : list A) :
  Forall Q l -> Forall Q (filter P l).
Proof.
  rewrite !Forall_forall. intros Hall x Hx.
  apply list_elem_of_filter in Hx as [_ Hx]. by apply Hall.
Qed.

Lemma step_activeInv s s' : step s s' -> activeInv s -> activeInv s'.
Proof.
  intros Hstep [Hcount Hall]. unfold activeInv, activeFlightsCount in *.
  destruct Hstep as [s0 o | s0 t | s0 t].
  - unfold queueOrder. case_decide; simpl; done.
  - rewrite releaseReturningZips_spec. simpl. split.
    + pose proof (length_filter (fun e => ~ (returnTime e <= t)) (activeFlights s0)). lia.
    + by apply Forall_filter_keep.
  - pose proof (launchFlights_spec s0 t) as Hspec.
    pose proof (launchFlights_wellFormed s0 t) as Hwf.
    destruct (launchFlights s0 t) as [[flights s1] log]. simpl in *.
    destruct Hspec as (Hcfg & _ & Hact & _ & Hn & _).
    unfold availableAfterRelease in Hn. rewrite releaseReturningZips_spec in Hact, Hn.
    simpl in Hact, Hn. rewrite Hact.
    pose proof (length_filter (fun e => ~ (returnTime e <= t)) (activeFlights s0)) as Hkept.
    destruct Hcfg as (Hc1 & Hc2 & Hc3 & Hc4). rewrite Hc1. split.
    + rewrite length_app, length_fmap. lia.
    + apply Forall_app. split.
      * apply Forall_filter_keep. eapply Forall_impl; [exact Hall |]. simpl.
        intros e [Hw Hr]. split; [| by rewrite Hc3].
        apply (wellFormedFlight_config _ s0); [| done]. by repeat split.
      * apply Forall_fmap. eapply Forall_impl; [exact Hwf |]. simpl.
        intros f [Ht Hw]. split; [| by rewrite Hc3].
        apply (wellFormedFlight_config _ s0); [| done]. by repeat split.
Qed.

(** X13 (the fleet is never overdrawn).  In every state the scheduler
    can reach, the flights in the air are no more than the Zips of the
    Nest (none, if [numZips] is negative); each of them has between one
    stop and [maxPackagesPerZip] stops, flies the round trip through its
    stops, which is within the range, and is due back at its launch time
    plus that distance over the speed. *)
Theorem fleet_never_overdrawn (s : ZipScheduler) :
  reachable s ->
  (Z.of_nat (activeFlightsCount s) <= Z.max 0 (numZips s))%Z /\
  Forall (fun e =>
            wellFormedFlight s (flight e) /\
            returnTime e = launchTime (flight e) + totalDistance (flight e) / zipSpeedMps s)
         (activeFlights s).
Proof.
  intros (n & m & v & r & Hrtc).
  assert (activeInv (newZipScheduler n m v r)) as H0.
  { split; [unfold activeFlightsCount; simpl; lia | by apply Forall_nil]. }
  revert H0 Hrtc. generalize (newZipScheduler n m v r). intros s0 H0 Hrtc.
  induction Hrtc as [|s1 s2 s3 Hstep _ IH]; [done |].
  apply IH. by apply (step_activeInv s1).
Qed.

Lemma fleet_never_overdrawn_witness :
  reachable scenarioD /\
  (Z.of_nat (activeFlightsCount scenarioD) <= Z.max 0 (numZips scenarioD))%Z /\
  Forall (fun e =>
            wellFormedFlight scenarioD (flight e) /\
            returnTime e
              = launchTime (flight e) + totalDistance (flight e) / zipSpeedMps scenarioD)
         (activeFlights scenarioD).
Proof.
  assert (reachable scenarioD) as H
    by apply reachable_launchFlights, reachable_queueOrder, reachable_queueOrder, reachable_new.
  split; [exact H | exact (fleet_never_overdrawn scenarioD H)].
Defined.

(** ** When a dispatch launches, and when it stops *)

Local Open Scope R_scope.

(** Planning reads two fields of the scheduler: the load limit and the
    range. *)
Lemma planFlight_loop_config s s' fuel : forall fo td cur avail,
  sameConfig s s' ->
  planFlight_loop fuel s' fo td cur avail = planFlight_loop fuel s fo td cur avail.
Proof.
  induction fuel as [|fuel IH]; intros fo td cur avail Hcfg; [done |].
  rewrite !planFlight_loop_S. destruct Hcfg as (Hn & Hm & Hv & Hr). rewrite Hm, Hr.
  destruct ((length fo <? maxPackagesPerZip s)%nat && (0 <? length avail)%nat); [| done].
  destruct (selectOrder avail cur) as [[[o [index|]] d]|]; [| done ..].
  case_decide; apply IH; by repeat split.
Qed.

Lemma planFlightFrom_config s s' avail :
  sameConfig s s' -> planFlightFrom s' avail = planFlightFrom s avail.
Proof. intros Hcfg. unfold planFlightFrom. by rewrite (planFlight_loop_config s s'). Qed.

Lemma planFlight_release s currentTime :
  planFlight (releaseReturningZips s currentTime) = planFlight s.
Proof.
  rewrite !planFlight_unfold, (planFlightFrom_config s); rewrite releaseReturningZips_spec;
    [done | by repeat split].
Qed.

(** X14 (the first stop).  In a state the scheduler can reach, with a
    pending order and a load limit of one or more, the planned flight has
    a first stop.  It is a pending order; it is an Emergency order if one is
    pending; and no pending order of its class lies nearer to the Nest. *)
Theorem planFlight_first_stop (s : ZipScheduler) :
  reachable s -> _unfulfilledOrders s <> [] -> (1 <= maxPackagesPerZip s)%nat ->
  exists o rest,
    fst (planFlight s) = o :: rest /\ o ∈ _unfulfilledOrders s /\
    ((exists e, e ∈ _unfulfilledOrders s /\ priority e = Emergency) ->
     priority o = Emergency) /\
    (forall o', o' ∈ _unfulfilledOrders s -> priority o' = priority o ->
       calculateDistance Nest (locationOf (hospital o))
       <= calculateDistance Nest (locationOf (hospital o'))).
Proof.
  intros Hreach Hne Hmax. destruct (reachable_queueInv s Hreach) as [Hrange _].
  rewrite planFlight_unfold. by apply planFlightFrom_first_stop.
Qed.

Lemma planFlight_first_stop_witness :
  reachable scenarioD0 /\ _unfulfilledOrders scenarioD0 <> [] /\
  (1 <= maxPackagesPerZip scenarioD0)%nat /\
  exists o rest,
    fst (planFlight scenarioD0) = o :: rest /\ o ∈ _unfulfilledOrders scenarioD0 /\
    ((exists e, e ∈ _unfulfilledOrders scenarioD0 /\ priority e = Emergency) ->
     priority o = Emergency) /\
    (forall o', o' ∈ _unfulfilledOrders scenarioD0 -> priority o' = priority o ->
       calculateDistance Nest (locationOf (hospital o))
       <= calculateDistance Nest (locationOf (hospital o'))).
Proof.
  assert (reachable scenarioD0) as Hreach
    by apply reachable_queueOrder, reachable_queueOrder, reachable_new.
  assert (_unfulfilledOrders scenarioD0 <> []) as Hne by (by rewrite scenarioD0_state).
  assert (1 <= maxPackagesPerZip scenarioD0)%nat as Hmax by (rewrite scenarioD0_state; simpl; lia).
  split; [exact Hreach | split; [exact Hne | split; [exact Hmax |]]].
  exact (planFlight_first_stop scenarioD0 Hreach Hne Hmax).
Defined.

(** When the dispatch loop is left with fuel to spare, it is for one of
    the four reasons the code gives. *)
Lemma launchFlights_loop_stops fuel : forall s currentTime availableZips,
  (availableZips <= Z.of_nat fuel)%Z ->
  let '(flights, s', _) := launchFlights_loop fuel s currentTime availableZips in
  let left := (availableZips - Z.of_nat (length flights))%Z in
  (left <= 0)%Z \/ _unfulfilledOrders s' = [] \/ fst (planFlight s') = [] \/
  (countByPriority s' Emergency = 0%nat /\ (left < RESERVED_EMERGENCY_ZIPS)%Z).
Proof.
  induction fuel as [|fuel IH]; intros s t a Hfuel.
  - simpl. left. lia.
  - rewrite launchFlights_loop_S.
    destruct (0 <? a)%Z eqn:Ha; cbn [andb]; [| left; simpl; lia].
    destruct (_unfulfilledOrders s) as [|q0 q] eqn:Hq; cbn [PQ.isEmpty length Nat.eqb negb];
      [right; by left |].
    cbv zeta. destruct (planFlight s) as [fo td] eqn:Hplan.
    destruct (length fo =? 0)%nat eqn:Hfo.
    { right. right. left. rewrite Hplan. simpl. by destruct fo. }
    replace (a <? 1)%Z with false by lia. rewrite andb_false_r.
    destruct (countByPriority s Emergency =? 0)%nat eqn:Hem; cbn [andb].
    + destruct (a <? RESERVED_EMERGENCY_ZIPS)%Z eqn:Hres.
      { right. right. right. apply Nat.eqb_eq in Hem. simpl. split; [done | lia]. }
      rewrite commitFlight_unfold.
      match goal with |- context [launchFlights_loop fuel ?s1 t (a - 1)%Z] =>
        specialize (IH s1 t (a - 1)%Z);
        destruct (launchFlights_loop fuel s1 t (a - 1)%Z) as [[flights s''] log'] end.
      cbn [length]. replace (a - Z.of_nat (S (length flights)))%Z
        with (a - 1 - Z.of_nat (length flights))%Z by lia. apply IH. lia.
    + rewrite commitFlight_unfold.
      match goal with |- context [launchFlights_loop fuel ?s1 t (a - 1)%Z] =>
        specialize (IH s1 t (a - 1)%Z);
        destruct (launchFlights_loop fuel s1 t (a - 1)%Z) as [[flights s''] log'] end.
      cbn [length]. replace (a - Z.of_nat (S (length flights)))%Z
        with (a - 1 - Z.of_nat (length flights))%Z by lia. apply IH. lia.
Qed.

(** X15 (a dispatch goes on while it can).  After [launchFlights] on a
    state the scheduler can reach, with a load limit of one or more, one of
    three things holds: no Zip is left at the Nest, no order is pending, or
    no Emergency order is pending and fewer than [RESERVED_EMERGENCY_ZIPS]
    Zips are left. *)
Theorem launchFlights_exhaustive (s : ZipScheduler) (currentTime : R) :
  reachable s -> (1 <= maxPackagesPerZip s)%nat ->
  let s' := snd (fst (launchFlights s currentTime)) in
  let left := (numZips s' - Z.of_nat (activeFlightsCount s'))%Z in
  (left <= 0)%Z \/ _unfulfilledOrders s' = [] \/
  (countByPriority s' Emergency = 0%nat /\ (left < RESERVED_EMERGENCY_ZIPS)%Z).
Proof.
  intros Hreach Hmax s' left.
  assert (reachable s') as Hreach' by by apply reachable_launchFlights.
  pose proof (step_sameConfig s s' (step_launchFlights s currentTime)) as Hcfg.
  assert (_unfulfilledOrders s' <> [] -> fst (planFlight s') <> []) as Hplan.
  { intros Hne. destruct (reachable_queueInv s' Hreach') as [Hrange _].
    destruct Hcfg as (_ & Hm & _).
    destruct (planFlightFrom_first_stop s' (_unfulfilledOrders s') Hrange Hne)
      as (o & rest & Hfo & _); [lia |].
    rewrite planFlight_unfold, Hfo. done. }
  clear Hcfg. revert Hplan. unfold left, s', activeFlightsCount. clear s' left Hreach'.
  unfold launchFlights.
  set (s0 := releaseReturningZips s currentTime).
  destruct (_unfulfilledOrders s0) as [|q0 q] eqn:Hq; cbn [PQ.isEmpty length Nat.eqb].
  - intros _. right. left. exact Hq.
  - pose proof (launchFlights_loop_stops
      (Z.to_nat (numZips s0 - Z.of_nat (length (activeFlights s0)))) s0 currentTime
      (numZips s0 - Z.of_nat (length (activeFlights s0)))) as Hstop.
    pose proof (launchFlights_loop_spec
      (Z.to_nat (numZips s0 - Z.of_nat (length (activeFlights s0)))) s0 currentTime
      (numZips s0 - Z.of_nat (length (activeFlights s0)))) as Hspec.
    destruct (launchFlights_loop _ s0 currentTime _) as [[flights s1] log].
    destruct Hspec as ((Hn & _) & _ & _ & Hact & _). cbn [fst snd].
    intros Hplan. rewrite Hact, length_app, length_fmap, Hn.
    replace (numZips s0 - Z.of_nat (length (activeFlights s0) + length flights))%Z
      with (numZips s0 - Z.of_nat (length (activeFlights s0)) - Z.of_nat (length flights))%Z
      by lia.
    assert (numZips s0 - Z.of_nat (length (activeFlights s0))
            <= Z.of_nat (Z.to_nat (numZips s0 - Z.of_nat (length (activeFlights s0)))))%Z
      as Hfuel by lia.
    destruct (Hstop Hfuel) as [H | [H | [H | H]]].
    + by left.
    + right. by left.
    + right. left. destruct (_unfulfilledOrders s1) eqn:Hq1; [done |].
      exfalso. by apply Hplan.
    + right. by right.
Qed.

Lemma launchFlights_exhaustive_witness :
  reachable scenarioC /\ (1 <= maxPackagesPerZip scenarioC)%nat /\
  let s' := snd (fst (launchFlights scenarioC 60)) in
  let left := (numZips s' - Z.of_nat (activeFlightsCount s'))%Z in
  (left <= 0)%Z \/ _unfulfilledOrders s' = [] \/
  (countByPriority s' Emergency = 0%nat /\ (left < RESERVED_EMERGENCY_ZIPS)%Z).
Proof.
  assert (reachable scenarioC) as Hreach by apply reachable_queueOrder, reachable_new.
  assert (1 <= maxPackagesPerZip scenarioC)%nat as Hmax
    by (rewrite scenarioC_state; simpl; lia).
  split; [exact Hreach | split; [exact Hmax |]].
  exact (launchFlights_exhaustive scenarioC 60 Hreach Hmax).
Defined.

Lemma countByPriority_release s currentTime p :
  countByPriority (releaseReturningZips s currentTime) p = countByPriority s p.
Proof. by rewrite releaseReturningZips_spec. Qed.

(** X16 (a dispatch launches when it can).  On a state the scheduler
    can reach, with a load limit of one or more, an order pending, a Zip at
    the Nest after the release, and either an Emergency order pending or
    [RESERVED_EMERGENCY_ZIPS] Zips or more at the Nest, [launchFlights]
    launches a flight, and the first one it launches is the flight that
    [planFlight] plans on the state at the call. *)
Theorem launchFlights_progress (s : ZipScheduler) (currentTime : R) :
  reachable s -> (1 <= maxPackagesPerZip s)%nat -> _unfulfilledOrders s <> [] ->
  (0 < availableAfterRelease s currentTime)%Z ->
  (0 < countByPriority s Emergency)%nat \/
    (RESERVED_EMERGENCY_ZIPS <= availableAfterRelease s currentTime)%Z ->
  fst (planFlight s) <> [] /\
  exists rest,
    fst (fst (launchFlights s currentTime))
    = newFlight currentTime (fst (planFlight s)) (snd (planFlight s)) :: rest.
Proof.
  intros Hreach Hmax Hne Ha Hres. destruct (reachable_queueInv s Hreach) as [Hrange _].
  destruct (planFlightFrom_first_stop s (_unfulfilledOrders s) Hrange Hne Hmax)
    as (o & more & Hfo & _).
  rewrite <- planFlight_unfold in Hfo. split; [by rewrite Hfo |].
  unfold launchFlights, availableAfterRelease in *.
  set (s0 := releaseReturningZips s currentTime) in *.
  assert (_unfulfilledOrders s0 = _unfulfilledOrders s /\ numZips s0 = numZips s) as [Hq Hn]
    by (unfold s0; by rewrite releaseReturningZips_spec).
  rewrite Hn, Hq.
  replace (PQ.isEmpty (_unfulfilledOrders s)) with false
    by (by destruct (_unfulfilledOrders s)).
  destruct (Z.to_nat (numZips s - Z.of_nat (length (activeFlights s0)))) as [|fuel] eqn:Hfuel;
    [lia |].
  rewrite (launchFlights_loop_launch fuel s0 currentTime _
             (fst (planFlight s)) (snd (planFlight s))).
  - rewrite commitFlight_unfold.
    match goal with |- context [launchFlights_loop fuel ?s1 ?t ?a] =>
      destruct (launchFlights_loop fuel s1 t a) as [[flights s''] log'] end.
    by exists flights.
  - done.
  - by rewrite Hq.
  - unfold s0. rewrite planFlight_release. by destruct (planFlight s).
  - by rewrite Hfo.
  - unfold s0. rewrite countByPriority_release. intros Hzero.
    destruct Hres as [Hres | Hres]; [lia | done].
Qed.

Lemma launchFlights_progress_witness :
  reachable scenarioD0 /\ (1 <= maxPackagesPerZip scenarioD0)%nat /\
  _unfulfilledOrders scenarioD0 <> [] /\
  (0 < availableAfterRelease scenarioD0 100)%Z /\
  ((0 < countByPriority scenarioD0 Emergency)%nat \/
     (RESERVED_EMERGENCY_ZIPS <= availableAfterRelease scenarioD0 100)%Z) /\
  fst (planFlight scenarioD0) <> [] /\
  exists rest,
    fst (fst (launchFlights scenarioD0 100))
    = newFlight 100 (fst (planFlight scenarioD0)) (snd (planFlight scenarioD0)) :: rest.
Proof.
  assert (reachable scenarioD0) as Hreach
    by apply reachable_queueOrder, reachable_queueOrder, reachable_new.
  assert (1 <= maxPackagesPerZip scenarioD0)%nat as Hmax
    by (rewrite scenarioD0_state; simpl; lia).
  assert (_unfulfilledOrders scenarioD0 <> []) as Hne by (by rewrite scenarioD0_state).
  assert (0 < availableAfterRelease scenarioD0 100)%Z as Ha.
  { unfold availableAfterRelease. rewrite releaseReturningZips_spec, scenarioD0_state.
    simpl. lia. }
  assert ((0 < countByPriority scenarioD0 Emergency)%nat \/
          (RESERVED_EMERGENCY_ZIPS <= availableAfterRelease scenarioD0 100)%Z) as Hres.
  { left. apply countByPriority_pos. exists orderD1. rewrite scenarioD0_state.
    split; [by left | done]. }
  split; [exact Hreach | split; [exact Hmax | split; [exact Hne | split; [exact Ha |
    split; [exact Hres |]]]]].
  exact (launchFlights_progress scenarioD0 100 Hreach Hmax Hne Ha Hres).
Defined.

(** ** Which orders a dispatch removes *)

Local Open Scope R_scope.

(** With ids that are unique in the queue, taking planned orders out by
    id takes out those very orders. *)
Lemma dequeueFlightOrders_NoDup flightOrders : forall heap,
  NoDup (id <$> heap) -> flightOrders ⊆+ heap ->
  heap ≡ₚ fst (dequeueFlightOrders heap flightOrders) ++ flightOrders.
Proof.
  induction flightOrders as [|o fo IH]; intros heap Hnd Hsub.
  - by rewrite app_nil_r.
  - rewrite dequeueFlightOrders_cons.
    assert (o ∈ heap) as Hin by (eapply elem_of_submseteq; [by left | exact Hsub]).
    destruct (PQ.findIndex (id o) heap) as [index|] eqn:Hf.
    2:{ exfalso. by apply (proj1 (findIndex_None _ _) Hf o). }
    destruct (dequeueById_found _ _ _ Hf) as (o' & heap' & -> & _ & Hid & Hperm).
    cbn [fst]. rewrite Hperm in Hnd, Hin, Hsub. rewrite fmap_cons in Hnd.
    apply NoDup_cons in Hnd as [Hnotin Hnd'].
    assert (o = o') as <-.
    { apply elem_of_cons in Hin as [-> | Hin]; [done |]. exfalso. apply Hnotin.
      rewrite Hid. apply list_elem_of_fmap. by exists o. }
    assert (fo ⊆+ heap') as Hsub' by (by apply (submseteq_app_inv_l _ _ [o])).
    rewrite Hperm. rewrite (IH heap' Hnd' Hsub') at 1.
    by rewrite Permutation_middle.
Qed.

(** X17 (a dispatch removes the orders it flies).  When no two pending
    orders share an id, the queue before [launchFlights] is made up of the
    queue after it and the stops of the flights launched, each order once:
    every order flown has left the queue and no other order has. *)
Theorem launchFlights_removes_flown (s : ZipScheduler) (currentTime : R) :
  NoDup (id <$> _unfulfilledOrders s) ->
  let '(flights, s', _) := launchFlights s currentTime in
  _unfulfilledOrders s ≡ₚ _unfulfilledOrders s' ++ concat (orders <$> flights) /\
  NoDup (id <$> _unfulfilledOrders s').
Proof.
  intros Hnd.
  pose proof (launchFlights_acc (fun acc s' =>
    _unfulfilledOrders s ≡ₚ _unfulfilledOrders s' ++ concat (orders <$> acc) /\
    NoDup (id <$> _unfulfilledOrders s')) s currentTime) as H.
  destruct (launchFlights s currentTime) as [[flights s'] log]. apply H.
  - intros acc s1 fo td [Hperm Hnd1] _ Hplan _.
    rewrite planFlight_unfold in Hplan.
    pose proof (planFlightFrom_spec s1 (_unfulfilledOrders s1)) as Hspec.
    rewrite Hplan in Hspec. destruct Hspec as (_ & Hsub & _).
    pose proof (dequeueFlightOrders_NoDup fo _ Hnd1 Hsub) as Hrem.
    rewrite commitFlight_unfold. cbn [fst snd _unfulfilledOrders]. split.
    + rewrite fmap_app, concat_app. simpl. rewrite app_nil_r.
      rewrite Hperm, Hrem at 1.
      rewrite <- !app_assoc. f_equiv. apply Permutation_app_comm.
    + rewrite Hrem in Hnd1. rewrite fmap_app in Hnd1. by apply NoDup_app in Hnd1 as [? _].
  - rewrite releaseReturningZips_spec. simpl. by rewrite app_nil_r.
Qed.

Lemma launchFlights_removes_flown_witness :
  NoDup (id <$> _unfulfilledOrders scenarioD0) /\
  let '(flights, s', _) := launchFlights scenarioD0 100 in
  _unfulfilledOrders scenarioD0 ≡ₚ _unfulfilledOrders s' ++ concat (orders <$> flights) /\
  NoDup (id <$> _unfulfilledOrders s').
Proof.
  assert (NoDup (id <$> _unfulfilledOrders scenarioD0)) as Hnd.
  { rewrite scenarioD0_state. simpl.
    apply NoDup_cons. split; [| apply NoDup_singleton].
    intros H. apply list_elem_of_singleton in H. discriminate. }
  split; [exact Hnd | exact (launchFlights_removes_flown scenarioD0 100 Hnd)].
Defined.

(** ** The queue and the flights of a reachable scheduler *)

(** X18 (the pending orders of a reachable scheduler).  In every state
    the scheduler can reach, the queue is an ordered heap, every pending
    order passed the range test of [queueOrder], and the order [peek] shows
    is served no later than any pending order: it is an Emergency order
    whenever one is pending. *)
Theorem reachable_queue (s : ZipScheduler) :
  reachable s ->
  heapOrdered (_unfulfilledOrders s) /\
  (forall o, o ∈ _unfulfilledOrders s ->
     2 * calculateDistance Nest (locationOf (hospital o)) <= zipMaxCumulativeRangeM s) /\
  (forall top, PQ.peek (_unfulfilledOrders s) = Some top ->
     (forall o, o ∈ _unfulfilledOrders s -> servedBefore top o) /\
     ((exists e, e ∈ _unfulfilledOrders s /\ priority e = Emergency) ->
      priority top = Emergency)).
Proof.
  intros Hreach. destruct (reachable_queueInv s Hreach) as [Hrange Hheap].
  split; [done | split].
  - intros o Ho. specialize (Hrange o Ho). unfold withinRange in Hrange. lra.
  - intros top Htop.
    assert (forall o, o ∈ _unfulfilledOrders s -> servedBefore top o) as Hmin.
    { intros o Ho. apply list_elem_of_lookup in Ho as [i Hi].
      apply (root_minimal _ top Hheap) with (i := i); [| done].
      unfold PQ.peek in Htop. by destruct (_unfulfilledOrders s). }
    split; [done |]. intros (e & He & Hp).
    specialize (Hmin e He). apply compare_key in Hmin. rewrite Hp in Hmin.
    destruct (priority top); [done |]. simpl in Hmin.
    destruct Hmin as [Hmin | [Hmin _]]; [lia | done].
Qed.

Lemma reachable_queue_witness :
  reachable scenarioD0 /\
  heapOrdered (_unfulfilledOrders scenarioD0) /\
  (forall o, o ∈ _unfulfilledOrders scenarioD0 ->
     2 * calculateDistance Nest (locationOf (hospital o))
     <= zipMaxCumulativeRangeM scenarioD0) /\
  (forall top, PQ.peek (_unfulfilledOrders scenarioD0) = Some top ->
     (forall o, o ∈ _unfulfilledOrders scenarioD0 -> servedBefore top o) /\
     ((exists e, e ∈ _unfulfilledOrders scenarioD0 /\ priority e = Emergency) ->
      priority top = Emergency)).
Proof.
  assert (reachable scenarioD0) as Hreach
    by apply reachable_queueOrder, reachable_queueOrder, reachable_new.
  split; [exact Hreach | exact (reachable_queue scenarioD0 Hreach)].
Defined.

(** X19 (the flights a dispatch returns).  Every flight [launchFlights]
    returns is launched at the time of the call, has between one stop and
    [maxPackagesPerZip] stops, and its distance is the round trip through
    its stops, between 0 and the range.  Its battery estimate is 100 less
    the share of [ZIP_MAX_CUMULATIVE_RANGE_M] flown, in percent, so it lies
    between 0 and 100 when the range of the scheduler is no more than that
    constant. *)
Theorem launchFlights_flights (s : ZipScheduler) (currentTime : R) :
  Forall (fun f =>
            launchTime f = currentTime /\ wellFormedFlight s f /\
            (zipMaxCumulativeRangeM s <= ZIP_MAX_CUMULATIVE_RANGE_M ->
             0 <= estimatedReturnBatteryPercentage f <= 100))
         (fst (fst (launchFlights s currentTime))).
Proof.
  eapply Forall_impl; [apply launchFlights_wellFormed |]. simpl.
  intros f [Ht Hw]. split; [done | split; [done |]].
  destruct Hw as (_ & _ & _ & [Hpos Hle] & ->).
  unfold ZIP_MAX_CUMULATIVE_RANGE_M. intros Hr. split; lra.
Qed.

(** ** The runner *)

Local Open Scope R_scope.

Lemma queueOrder_log_config s s' order :
  sameConfig s s' -> snd (queueOrder s' order) = snd (queueOrder s order).
Proof.
  intros (_ & _ & _ & Hr). unfold queueOrder. rewrite Hr. by case_decide.
Qed.

Lemma rejections_config s s' orders :
  sameConfig s s' -> rejections s' orders = rejections s orders.
Proof.
  intros Hcfg. unfold rejections. f_equal. apply list_fmap_ext.
  intros _ o _. by apply queueOrder_log_config.
Qed.

Lemma admitted_config s s' orders :
  sameConfig s s' -> admitted s' orders = admitted s orders.
Proof.
  intros (_ & _ & _ & Hr). unfold admitted. apply list_filter_iff.
  intros o. unfold withinRange. by rewrite Hr.
Qed.

Lemma accounted_queueOrder s order :
  accounted (fst (queueOrder s order)) = (accounted s + length (admitted s [order]))%nat.
Proof.
  unfold admitted. rewrite filter_cons, filter_nil. unfold queueOrder, withinRange.
  case_decide as Hfar.
  - rewrite decide_False by tauto. simpl. lia.
  - rewrite decide_True by done.
    unfold accounted, stopsAloft, unfulfilledOrdersCount, PQ.size.
    cbn [fst completeOrderCount activeFlights _unfulfilledOrders set_unfulfilledOrders].
    rewrite (Permutation_length (enqueue_Permutation _ _)). simpl. lia.
Qed.

(** What the loop of [_queuePendingOrders] does: it queues the longest
    run of orders at the head of the array that are placed at this second. *)
Lemma queuePendingOrders_loop_spec secondsSinceMidnight orders : forall s,
  let '(orders', s', log) := Runner.queuePendingOrders_loop orders s secondsSinceMidnight in
  exists due,
    orders = due ++ orders' /\
    Forall (fun o => time o = secondsSinceMidnight) due /\
    (forall o rest, orders' = o :: rest -> time o <> secondsSinceMidnight) /\
    s' = foldl (fun s o => fst (queueOrder s o)) s due /\
    log = rejections s due /\
    rtc step s s' /\
    accounted s' = (accounted s + length (admitted s due))%nat.
Proof.
  induction orders as [|o orders IH]; intros s.
  - simpl. exists []. repeat split; try done; unfold admitted; simpl; lia.
  - cbn [Runner.queuePendingOrders_loop].
    destruct (time o =? secondsSinceMidnight)%Z eqn:Ht.
    + apply Z.eqb_eq in Ht.
      pose proof (step_queueOrder s o) as Hstep.
      pose proof (accounted_queueOrder s o) as Hacc.
      destruct (queueOrder s o) as [s1 log1] eqn:Hq. cbn [fst] in *.
      specialize (IH s1).
      destruct (Runner.queuePendingOrders_loop orders s1 secondsSinceMidnight)
        as [[orders' s2] log2].
      destruct IH as (due & -> & Hdue & Hhead & -> & -> & Hrtc & Hacc2).
      pose proof (step_sameConfig _ _ Hstep) as Hcfg.
      exists (o :: due).
      split; [done | split; [by constructor | split; [done | split; [| split; [| split]]]]].
      * simpl. by rewrite Hq.
      * unfold rejections at 2. rewrite fmap_cons. cbn [concat]. rewrite Hq. cbn [snd].
        f_equal. by apply rejections_config.
      * by eapply rtc_l.
      * rewrite Hacc2, Hacc, (admitted_config s s1) by done.
        unfold admitted. rewrite (filter_cons _ o due), (filter_cons _ o []), filter_nil.
        case_decide; simpl; lia.
    + apply Z.eqb_neq in Ht. exists [].
      split; [done | split; [done | split; [| split; [done | split; [done | split; [done |]]]]]].
      * intros o' rest [= <- _]. done.
      * unfold admitted. simpl. lia.
Qed.

Lemma run_loop_S fuel r secondsSinceMidnight :
  Runner.run_loop (S fuel) r secondsSinceMidnight =
    if (secondsSinceMidnight <? Runner.secondsPerDay)%Z
    then
      let '(r1, log1) := Runner._queuePendingOrders r secondsSinceMidnight in
      let '(r2, log2) :=
        if (Z.rem secondsSinceMidnight 60 =? 0)%Z
        then Runner._updateLaunchFlights r1 secondsSinceMidnight
        else (r1, []) in
      let '(r3, log3) := Runner.run_loop fuel r2 (secondsSinceMidnight + 1)%Z in
      (r3, log1 ++ log2 ++ log3)
    else (r, []).
Proof. reflexivity. Qed.

(** The dispatch of a turn, when there is one, leaves the orders of the
    runner alone and logs no error. *)
Lemma updateLaunchFlights_spec (launch : bool) r secondsSinceMidnight :
  let '(r', log) :=
    if launch then Runner._updateLaunchFlights r secondsSinceMidnight else (r, []) in
  Runner.orders r' = Runner.orders r /\
  Runner.totalOrderCount r' = Runner.totalOrderCount r /\
  rtc step (Runner.scheduler r) (Runner.scheduler r') /\
  accounted (Runner.scheduler r') = accounted (Runner.scheduler r) /\
  log = [].
Proof.
  destruct launch; [| by repeat split].
  unfold Runner._updateLaunchFlights.
  pose proof (step_launchFlights (Runner.scheduler r) (IZR secondsSinceMidnight)) as Hstep.
  pose proof (accounted_launchFlights (Runner.scheduler r) (IZR secondsSinceMidnight)) as Hacc.
  pose proof (launchFlights_spec (Runner.scheduler r) (IZR secondsSinceMidnight)) as Hspec.
  destruct (launchFlights _ _) as [[flights s'] log]. cbn [fst snd] in *.
  destruct Hspec as (_ & _ & _ & _ & _ & ->).
  split; [done | split; [done | split; [by apply rtc_once | done]]].
Qed.

Lemma admitted_app s l k : admitted s (l ++ k) = admitted s l ++ admitted s k.
Proof. apply filter_app. Qed.

Lemma rejections_app s l k : rejections s (l ++ k) = rejections s l ++ rejections s k.
Proof. unfold rejections. by rewrite fmap_app, concat_app. Qed.

Lemma byTime_app_r l k : byTime (l ++ k) -> byTime k.
Proof.
  induction l as [|o l IH]; [done |]. simpl. intros H.
  apply StronglySorted_inv in H as [H _]. by apply IH.
Qed.

(** The day, for orders that come by time of arrival and none before
    the clock: every order is handed to the scheduler. *)
Lemma run_loop_byTime fuel : forall r secondsSinceMidnight,
  fuel = Z.to_nat (Runner.secondsPerDay - secondsSinceMidnight) ->
  byTime (Runner.orders r) ->
  Forall (fun o => (secondsSinceMidnight <= time o < Runner.secondsPerDay)%Z)
         (Runner.orders r) ->
  let '(r', log) := Runner.run_loop fuel r secondsSinceMidnight in
  Runner.orders r' = [] /\
  Runner.totalOrderCount r' = Runner.totalOrderCount r /\
  rtc step (Runner.scheduler r) (Runner.scheduler r') /\
  accounted (Runner.scheduler r')
    = (accounted (Runner.scheduler r)
       + length (admitted (Runner.scheduler r) (Runner.orders r)))%nat /\
  log = rejections (Runner.scheduler r) (Runner.orders r).
Proof.
  induction fuel as [|fuel IH]; intros r c Hfuel Hsorted Hall.
  - simpl. destruct (Runner.orders r) as [|o rest] eqn:Ho.
    + repeat split; try done; unfold admitted; simpl; lia.
    + apply Forall_cons in Hall as [Hc _]. lia.
  - rewrite run_loop_S.
    replace (c <? Runner.secondsPerDay)%Z with true by lia.
    unfold Runner._queuePendingOrders.
    pose proof (queuePendingOrders_loop_spec c (Runner.orders r) (Runner.scheduler r)) as Hq.
    destruct (Runner.queuePendingOrders_loop _ _ c) as [[orders' s1] log1].
    destruct Hq as (due & Hdue & Hnow & Hhead & _ & -> & Hrtc1 & Hacc1).
    pose proof (updateLaunchFlights_spec (Z.rem c 60 =? 0)%Z
      (Runner.mk orders' (Runner.totalOrderCount r) s1) c) as Hl.
    destruct (if (Z.rem c 60 =? 0)%Z then _ else _) as [r2 log2].
    cbn [Runner.orders Runner.totalOrderCount Runner.scheduler] in Hl.
    destruct Hl as (Ho2 & Hn2 & Hrtc2 & Hacc2 & ->).
    rewrite Hdue in Hsorted, Hall.
    apply byTime_app_r in Hsorted.
    apply Forall_app in Hall as [_ Hall].
    specialize (IH r2 (c + 1)%Z). rewrite Ho2 in IH.
    destruct (Runner.run_loop fuel r2 (c + 1)%Z) as [r3 log3].
    destruct IH as (Ho3 & Hn3 & Hrtc3 & Hacc3 & ->); [lia | done | |].
    { destruct orders' as [|o rest]; [done |].
      pose proof (Hhead o rest eq_refl) as Hne.
      apply StronglySorted_inv in Hsorted as [_ Hrest].
      apply Forall_cons in Hall as [Ho Hall]. constructor; [lia |].
      rewrite Forall_forall in Hrest, Hall. apply Forall_forall. intros x Hx.
      specialize (Hrest x Hx). specialize (Hall x Hx). lia. }
    assert (sameConfig (Runner.scheduler r) (Runner.scheduler r2)) as Hcfg
      by (apply rtc_step_sameConfig; by etrans).
    rewrite (admitted_config _ _ _ Hcfg) in Hacc3.
    rewrite (rejections_config _ _ _ Hcfg), Hdue, admitted_app, rejections_app, length_app.
    split; [done | split; [congruence | split; [| split]]].
    + etrans; [exact Hrtc1 |]. by etrans.
    + lia.
    + done.
Qed.

(** X20 ([_queuePendingOrders]).  One call at a second of the day
    shifts off the array the longest run of orders at its head that are
    placed at that very second and hands them to [queueOrder] one after the
    other; the order then at the head, if any, is placed at another second.
    What is logged is the rejections of those orders. *)
Theorem queuePendingOrders_takes_the_due (r : Runner.t) (secondsSinceMidnight : Z) :
  let '(r', log) := Runner._queuePendingOrders r secondsSinceMidnight in
  exists due,
    Runner.orders r = due ++ Runner.orders r' /\
    Forall (fun o => time o = secondsSinceMidnight) due /\
    (forall o rest, Runner.orders r' = o :: rest -> time o <> secondsSinceMidnight) /\
    Runner.scheduler r' = foldl (fun s o => fst (queueOrder s o)) (Runner.scheduler r) due /\
    log = rejections (Runner.scheduler r) due /\
    Runner.totalOrderCount r' = Runner.totalOrderCount r.
Proof.
  unfold Runner._queuePendingOrders.
  pose proof (queuePendingOrders_loop_spec secondsSinceMidnight
    (Runner.orders r) (Runner.scheduler r)) as H.
  destruct (Runner.queuePendingOrders_loop _ _ _) as [[orders' s'] log].
  destruct H as (due & Hdue & Hnow & Hhead & Hs & Hlog & _).
  exists due. by repeat split.
Qed.

(** X21 (a day of orders that come by time).  When the orders of the
    runner are sorted by time of arrival and all placed before the end of
    the day, [run] hands every one of them to the scheduler: the array is
    empty at the end, the scheduler is in a state it can reach through its
    public methods, the orders it admitted are each delivered, in the air or
    pending, and the errors logged are the rejections of the others. *)
Theorem run_hands_over_every_order (orders0 : list Order) :
  byTime orders0 ->
  Forall (fun o => (time o < Runner.secondsPerDay)%Z) orders0 ->
  let r := Runner.new orders0 in
  let '(r', log) := Runner.run r in
  Runner.orders r' = [] /\
  Runner.totalOrderCount r' = length orders0 /\
  reachable (Runner.scheduler r') /\
  accounted (Runner.scheduler r') = length (admitted (Runner.scheduler r) orders0) /\
  log = rejections (Runner.scheduler r) orders0.
Proof.
  intros Hsorted Hday r. unfold Runner.run.
  pose proof (run_loop_byTime (Z.to_nat (Runner.secondsPerDay - Runner.firstSecond r)) r
    (Runner.firstSecond r) eq_refl Hsorted) as H.
  destruct (Runner.run_loop _ r (Runner.firstSecond r)) as [r' log].
  destruct H as (Ho & Hn & Hrtc & Hacc & Hlog).
  - unfold Runner.firstSecond. cbn [r Runner.new Runner.orders].
    destruct orders0 as [|o rest]; [done |].
    apply StronglySorted_inv in Hsorted as [_ Hrest].
    apply Forall_cons in Hday as [Ho Hday]. constructor; [lia |].
    rewrite Forall_forall in Hrest, Hday. apply Forall_forall. intros x Hx.
    specialize (Hrest x Hx). specialize (Hday x Hx). lia.
  - split; [done | split; [done | split; [| split; [| done]]]].
    + apply (reachable_step (Runner.scheduler r)); [apply reachable_new | done].
    + rewrite Hacc. done.
Qed.

Lemma run_hands_over_every_order_witness :
  byTime [orderA1; orderA2] /\
  Forall (fun o => (time o < Runner.secondsPerDay)%Z) [orderA1; orderA2] /\
  let r := Runner.new [orderA1; orderA2] in
  let '(r', log) := Runner.run r in
  Runner.orders r' = [] /\
  Runner.totalOrderCount r' = length [orderA1; orderA2] /\
  reachable (Runner.scheduler r') /\
  accounted (Runner.scheduler r')
    = length (admitted (Runner.scheduler r) [orderA1; orderA2]) /\
  log = rejections (Runner.scheduler r) [orderA1; orderA2].
Proof.
  assert (byTime [orderA1; orderA2]) as Hsorted.
  { repeat constructor. simpl. lia. }
  assert (Forall (fun o => (time o < Runner.secondsPerDay)%Z) [orderA1; orderA2]) as Hday.
  { repeat constructor. }
  split; [exact Hsorted | split; [exact Hday |]].
  exact (run_hands_over_every_order [orderA1; orderA2] Hsorted Hday).
Defined.

(** One turn of the day loop, as far as the array of orders goes. *)
Lemma run_loop_turn fuel r secondsSinceMidnight :
  (secondsSinceMidnight < Runner.secondsPerDay)%Z ->
  exists r2,
    Runner.orders r2
      = fst (fst (Runner.queuePendingOrders_loop (Runner.orders r) (Runner.scheduler r)
                    secondsSinceMidnight)) /\
    fst (Runner.run_loop (S fuel) r secondsSinceMidnight)
      = fst (Runner.run_loop fuel r2 (secondsSinceMidnight + 1)%Z).
Proof.
  intros Hday. rewrite run_loop_S.
  replace (secondsSinceMidnight <? Runner.secondsPerDay)%Z with true by lia.
  unfold Runner._queuePendingOrders.
  destruct (Runner.queuePendingOrders_loop _ _ _) as [[orders' s1] log1].
  pose proof (updateLaunchFlights_spec (Z.rem secondsSinceMidnight 60 =? 0)%Z
    (Runner.mk orders' (Runner.totalOrderCount r) s1) secondsSinceMidnight) as Hl.
  destruct (if (Z.rem secondsSinceMidnight 60 =? 0)%Z then _ else _) as [r2 log2].
  destruct Hl as (Ho2 & _). exists r2. split; [done |].
  by destruct (Runner.run_loop fuel r2 (secondsSinceMidnight + 1)%Z).
Qed.

(** An order at the head of the array that was placed before the second
    the loop is at stays there, and so do all the orders behind it. *)
Lemma run_loop_stalls fuel : forall r secondsSinceMidnight o rest,
  Runner.orders r = o :: rest -> (time o < secondsSinceMidnight)%Z ->
  Runner.orders (fst (Runner.run_loop fuel r secondsSinceMidnight)) = o :: rest.
Proof.
  induction fuel as [|fuel IH]; intros r c o rest Ho Hlate; [done |].
  destruct (Z.ltb_spec c Runner.secondsPerDay) as [Hday | Hday].
  - destruct (run_loop_turn fuel r c Hday) as (r2 & Ho2 & ->).
    apply IH; [| lia]. rewrite Ho2, Ho. cbn [Runner.queuePendingOrders_loop].
    by replace (time o =? c)%Z with false by lia.
  - rewrite run_loop_S. by replace (c <? Runner.secondsPerDay)%Z with false by lia.
Qed.

(** X22 (an order behind the clock).  When the second order of the
    array was placed before the first, [run] queues the first and then
    never gets past the second: at the end of the day the second order and
    all the orders behind it are still in the array of the runner. *)
Theorem run_stalls_behind_the_clock (r : Runner.t) (first late : Order) (rest : list Order) :
  Runner.orders r = first :: late :: rest ->
  (time late < time first)%Z -> (time first < Runner.secondsPerDay)%Z ->
  Runner.orders (fst (Runner.run r)) = late :: rest.
Proof.
  intros Ho Hlate Hday. unfold Runner.run, Runner.firstSecond. rewrite Ho.
  destruct (Z.to_nat (Runner.secondsPerDay - (time first - 1))) as [|[|fuel]] eqn:Hfuel;
    [lia | lia |].
  destruct (run_loop_turn (S fuel) r (time first - 1)%Z) as (r1 & Ho1 & ->); [lia |].
  rewrite Ho in Ho1. cbn [Runner.queuePendingOrders_loop] in Ho1.
  replace (time first =? time first - 1)%Z with false in Ho1 by lia. cbn [fst] in Ho1.
  destruct (run_loop_turn fuel r1 (time first - 1 + 1)%Z) as (r2 & Ho2 & ->); [lia |].
  rewrite Ho1 in Ho2. cbn [Runner.queuePendingOrders_loop] in Ho2.
  replace (time first =? time first - 1 + 1)%Z with true in Ho2 by lia.
  destruct (queueOrder (Runner.scheduler r1) first) as [s1 log1].
  replace (time late =? time first - 1 + 1)%Z with false in Ho2 by lia. cbn [fst] in Ho2.
  apply run_loop_stalls; [done | lia].
Qed.

Lemma run_stalls_behind_the_clock_witness :
  Runner.orders (Runner.new [orderA2; orderA1; orderC]) = orderA2 :: orderA1 :: [orderC] /\
  (time orderA1 < time orderA2)%Z /\ (time orderA2 < Runner.secondsPerDay)%Z /\
  Runner.orders (fst (Runner.run (Runner.new [orderA2; orderA1; orderC])))
    = orderA1 :: [orderC].
Proof.
  assert (time orderA1 < time orderA2)%Z as Hlate by (simpl; lia).
  assert (time orderA2 < Runner.secondsPerDay)%Z as Hday by reflexivity.
  split; [reflexivity | split; [exact Hlate | split; [exact Hday |]]].
  exact (run_stalls_behind_the_clock (Runner.new [orderA2; orderA1; orderC])
           orderA2 orderA1 [orderC] eq_refl Hlate Hday).
Defined.

(** ** The earlier [queueOrder] *)

Local Close Scope R_scope.

Lemma list_find_first_other (emergencies others : list Order) :
  Forall (fun o => priority o = Emergency) emergencies ->
  Forall (fun o => priority o <> Emergency) others ->
  fst <$> list_find (fun o => priority o <> Emergency) (emergencies ++ others)
  = if others is [] then None else Some (length emergencies).
Proof.
  intros He Ho. induction He as [|e es Hp He IH]; simpl.
  - destruct Ho as [|r rs Hr Ho]; [done |]. simpl. by rewrite decide_True.
  - rewrite decide_False by (intros H; by apply H).
    destruct (list_find _ (es ++ others)) as [[i x]|]; simpl in *.
    + destruct others; [done |]. by simplify_eq.
    + by destruct others.
Qed.

Lemma draft_queueOrder_split (emergencies others : list Order) (order : Order) :
  Forall (fun o => priority o = Emergency) emergencies ->
  Forall (fun o => priority o <> Emergency) others ->
  Draft.queueOrder (emergencies ++ others) order
  = if bool_decide (priority order = Emergency)
    then emergencies ++ order :: others
    else emergencies ++ others ++ [order].
Proof.
  intros He Ho. unfold Draft.queueOrder. cbv zeta.
  destruct (bool_decide (priority order = Emergency)); [| by rewrite app_assoc].
  rewrite (list_find_first_other _ _ He Ho).
  destruct others as [|r rs]; [by rewrite !app_nil_r |].
  unfold Draft.spliceIn. by rewrite take_app_length, drop_app_length.
Qed.

(** X23 (the queue of the first scheduler).  Queueing orders one by one
    with the [queueOrder] of traveling_zip.ts, from an empty array, yields
    the Emergency orders in the sequence they came, followed by the other
    orders in the sequence they came. *)
Theorem draft_queueOrder_partitions (orders : list Order) :
  foldl Draft.queueOrder [] orders
  = filter (fun o => priority o = Emergency) orders
    ++ filter (fun o => priority o <> Emergency) orders.
Proof.
  assert (forall emergencies others,
    Forall (fun o => priority o = Emergency) emergencies ->
    Forall (fun o => priority o <> Emergency) others ->
    foldl Draft.queueOrder (emergencies ++ others) orders
    = (emergencies ++ filter (fun o => priority o = Emergency) orders)
      ++ (others ++ filter (fun o => priority o <> Emergency) orders)) as H.
  { induction orders as [|o orders IH]; intros es rs He Hr.
    - simpl. by rewrite !app_nil_r.
    - cbn [foldl]. rewrite (draft_queueOrder_split es rs o He Hr), !filter_cons.
      destruct (decide (priority o = Emergency)) as [Hp | Hp].
      + rewrite bool_decide_eq_true_2 by done.
        rewrite decide_False by (intros H; by apply H).
        rewrite (cons_middle o es rs), app_assoc.
        rewrite IH; [| apply Forall_app; split; [done | by apply Forall_singleton] | done].
        by rewrite <- !app_assoc.
      + rewrite bool_decide_eq_false_2 by done. rewrite decide_True by done.
        rewrite IH; [| done | apply Forall_app; split; [done | by apply Forall_singleton]].
        by rewrite <- !app_assoc. }
  apply (H [] []); constructor.
Qed.

(** ** Distances between places *)

Local Open Scope R_scope.

(** X24 ([calculateDistance]).  The distance between two places is
    never negative, it is 0 exactly from a place to itself, and it is the
    same in both directions. *)
Theorem calculateDistance_definite (a b : Location) :
  0 <= calculateDistance a b /\
  (calculateDistance a b = 0 <-> a = b) /\
  calculateDistance a b = calculateDistance b a.
Proof.
  split; [apply calculateDistance_nonneg | split].
  - split.
    + unfold calculateDistance. cbv zeta. intros H.
      apply sqrt_eq_0 in H; [| apply Rplus_le_le_0_compat; apply pow2_ge_0].
      rewrite <- !Rsqr_pow2 in H. apply Rplus_sqr_eq_0 in H as [Hn He].
      destruct a as [an ae], b as [bn be]. simpl in *.
      f_equal; apply eq_IZR; lra.
    + intros ->. apply calculateDistance_self.
  - apply calculateDistance_sym.
Qed.

(** ** The planning of the first scheduler *)

Local Open Scope R_scope.

Lemma findNearestReachableOrder_loop_spec range cur total suf : forall pre acc,
  nearestReachable range cur total pre acc ->
  nearestReachable range cur total (pre ++ suf)
    (Draft.findNearestReachableOrder_loop range cur total (length pre) suf acc).
Proof.
  induction suf as [|o suf IH]; intros pre acc Hacc.
  - simpl. by rewrite app_nil_r.
  - cbn [Draft.findNearestReachableOrder_loop]. cbv zeta.
    change (Draft.calculateDistanceBetween cur (locationOf (hospital o)))
      with (calculateDistance cur (locationOf (hospital o))).
    change (Draft.calculateDistanceBetween (locationOf (hospital o)) Nest)
      with (calculateDistance (locationOf (hospital o)) Nest).
    replace (S (length pre)) with (length (pre ++ [o])) by (rewrite length_app; simpl; lia).
    rewrite (cons_middle o pre suf), app_assoc.
    assert (forall j o', (pre ++ [o]) !! j = Some o' ->
              ((j < length pre)%nat /\ pre !! j = Some o') \/ (j = length pre /\ o' = o))
      as Hcases.
    { intros j o' Hj. destruct (decide (j < length pre)%nat) as [Hlt | Hge].
      - left. split; [done |]. by rewrite lookup_app_l in Hj.
      - right. rewrite lookup_app_r in Hj by lia.
        destruct (j - length pre)%nat as [|k] eqn:Hk; simpl in Hj; [| done].
        split; [lia | congruence]. }
    assert ((pre ++ [o]) !! length pre = Some o) as Hlast.
    { rewrite lookup_app_r by lia. by rewrite Nat.sub_diag. }
    destruct acc as [[i m]|].
    + destruct Hacc as (b & Hb & -> & Hbr & Hmin).
      pose proof (lookup_lt_Some _ _ _ Hb) as Hi.
      case_decide as Hc; apply IH.
      * destruct Hc as [Hlt Hr]. exists o. split; [done | split; [done | split; [done |]]].
        intros j o' Hj Hr'. destruct (Hcases j o' Hj) as [[Hjlt Hj'] | [-> ->]].
        -- destruct (Hmin j o' Hj' Hr') as [Hle _]. split; [lra | intros _; lra].
        -- split; [lra | lia].
      * exists b. split; [by rewrite lookup_app_l | split; [done | split; [done |]]].
        intros j o' Hj Hr'. destruct (Hcases j o' Hj) as [[Hjlt Hj'] | [-> ->]].
        -- by apply Hmin.
        -- split; [| lia].
           destruct (Rle_or_lt (calculateDistance cur (locationOf (hospital b)))
                       (calculateDistance cur (locationOf (hospital o)))) as [H | H];
             [done |]. exfalso. apply Hc. by split.
    + simpl in Hacc. case_decide as Hc; apply IH.
      * exists o. split; [done | split; [done | split; [done |]]].
        intros j o' Hj Hr'. destruct (Hcases j o' Hj) as [[Hjlt Hj'] | [-> ->]].
        -- exfalso. apply (Hacc o'); [by eapply list_elem_of_lookup_2 | done].
        -- split; [lra | lia].
      * intros o' Ho'. apply elem_of_app in Ho' as [Ho' | Ho'].
        -- by apply Hacc.
        -- apply list_elem_of_singleton in Ho' as ->. exact Hc.
Qed.

(** X26 ([findNearestReachableOrder] of the first scheduler).  The
    search returns index [-1] exactly when no order of the array can be the
    next stop within the range; otherwise it returns the index of an order
    that can, with its distance from the current location, such that no
    order that can be the next stop is nearer and every such order before
    it in the array is strictly farther. *)
Theorem draft_findNearestReachableOrder (zipMaxCumulativeRangeM : R)
    (currentLocation : Location) (orders : list Order) (totalDistance : R) :
  nearestReachable zipMaxCumulativeRangeM currentLocation totalDistance orders
    (Draft.findNearestReachableOrder zipMaxCumulativeRangeM currentLocation orders
       totalDistance).
Proof.
  unfold Draft.findNearestReachableOrder.
  apply (findNearestReachableOrder_loop_spec _ _ _ orders [] None).
  intros o Ho. by apply elem_of_nil in Ho.
Qed.

Lemma draft_planFlight_loop_S fuel maxPackagesPerZip range pool p :
  Draft.planFlight_loop (S fuel) maxPackagesPerZip range pool p =
    if (length (Draft.flightOrders p) <? maxPackagesPerZip)%nat && (0 <? length pool)%nat
    then
      match Draft.findNearestReachableOrder range (Draft.currentLocation p) pool
              (Draft.totalDistance p) with
      | None => p
      | Some (nearestOrderIndex, minDistance) =>
          match pool !! nearestOrderIndex with
          | Some nearestOrder =>
              Draft.planFlight_loop fuel maxPackagesPerZip range
                (delete nearestOrderIndex pool)
                (Draft.mkPlan (Draft.spliceOut (Draft.planOrders p) nearestOrder)
                   (Draft.flightOrders p ++ [nearestOrder])
                   (Draft.totalDistance p + minDistance)
                   (locationOf (hospital nearestOrder)))
          | None => p
          end
      end
    else p.
Proof. reflexivity. Qed.

Lemma spliceOut_Permutation orders order :
  order ∈ orders -> orders ≡ₚ order :: Draft.spliceOut orders order.
Proof.
  intros Hin. unfold Draft.spliceOut.
  destruct (indexOf_elem_of _ _ Hin) as (index & -> & Hl).
  by apply delete_Permutation.
Qed.

(** One loop of the planning: the stops it appends come from its pool,
    the array [orders] loses them, and the distance stays that of the route
    flown so far, from which the Nest is within the range. *)
Lemma draft_planFlight_loop_spec maxPackagesPerZip range fuel : forall pool p,
  pool ⊆+ Draft.planOrders p ->
  Draft.totalDistance p = routeLength Nest (Draft.flightOrders p) ->
  Draft.currentLocation p = routeEnd Nest (Draft.flightOrders p) ->
  (Draft.flightOrders p <> [] ->
   Draft.totalDistance p + calculateDistance (Draft.currentLocation p) Nest <= range) ->
  let p' := Draft.planFlight_loop fuel maxPackagesPerZip range pool p in
  exists added,
    Draft.flightOrders p' = Draft.flightOrders p ++ added /\
    added ⊆+ pool /\
    Draft.planOrders p ≡ₚ added ++ Draft.planOrders p' /\
    (added = [] \/ (length (Draft.flightOrders p') <= maxPackagesPerZip)%nat) /\
    Draft.totalDistance p' = routeLength Nest (Draft.flightOrders p') /\
    Draft.currentLocation p' = routeEnd Nest (Draft.flightOrders p') /\
    (Draft.flightOrders p' <> [] ->
     Draft.totalDistance p' + calculateDistance (Draft.currentLocation p') Nest <= range).
Proof.
  induction fuel as [|fuel IH]; intros pool p Hpool Htd Hcur Hrange.
  - exists []. simpl. rewrite app_nil_r.
    split; [done | split; [apply submseteq_nil_l | split; [done | split; [by left | done]]]].
  - cbv zeta. rewrite draft_planFlight_loop_S.
    assert (exists added,
      Draft.flightOrders p = Draft.flightOrders p ++ added /\ added ⊆+ pool /\
      Draft.planOrders p ≡ₚ added ++ Draft.planOrders p /\
      (added = [] \/ (length (Draft.flightOrders p) <= maxPackagesPerZip)%nat) /\
      Draft.totalDistance p = routeLength Nest (Draft.flightOrders p) /\
      Draft.currentLocation p = routeEnd Nest (Draft.flightOrders p) /\
      (Draft.flightOrders p <> [] ->
       Draft.totalDistance p + calculateDistance (Draft.currentLocation p) Nest <= range))
      as Hstop.
    { exists []. rewrite app_nil_r.
      split; [done | split; [apply submseteq_nil_l | split; [done | split; [by left | done]]]]. }
    destruct (length (Draft.flightOrders p) <? maxPackagesPerZip)%nat eqn:Hlen; [| done].
    apply Nat.ltb_lt in Hlen.
    destruct (0 <? length pool)%nat; [| done]. cbn [andb].
    pose proof (findNearestReachableOrder_loop_spec range (Draft.currentLocation p)
      (Draft.totalDistance p) pool [] None) as Hnear.
    unfold Draft.findNearestReachableOrder. simpl in Hnear.
    destruct (Draft.findNearestReachableOrder_loop _ _ _ 0 pool None) as [[i d]|]; [| done].
    destruct Hnear as (o & Hi & -> & Hreach & _).
    { intros o Ho. by apply elem_of_nil in Ho. }
    rewrite Hi. clear Hstop.
    assert (o ∈ pool) as Hin by (by eapply list_elem_of_lookup_2).
    assert (o ∈ Draft.planOrders p) as Hin'
      by (eapply elem_of_submseteq; [exact Hin | exact Hpool]).
    pose proof (spliceOut_Permutation _ _ Hin') as Hsplice.
    pose proof (delete_Permutation pool i o Hi) as Hdel.
    match goal with |- context [Draft.planFlight_loop fuel _ _ ?pool1 ?p1] =>
      destruct (IH pool1 p1) as (added & Hfo & Hsub & Hperm & Hlen' & Htd' & Hcur' & Hrange')
    end.
    + cbn [Draft.planOrders].
      apply (submseteq_app_inv_l _ _ [o]). simpl. by rewrite <- Hdel, <- Hsplice.
    + cbn [Draft.totalDistance Draft.flightOrders]. by rewrite routeLength_snoc, Htd, Hcur.
    + cbn [Draft.currentLocation Draft.flightOrders]. by rewrite routeEnd_snoc.
    + intros _. cbn [Draft.totalDistance Draft.currentLocation]. exact Hreach.
    + cbn [Draft.planOrders Draft.flightOrders] in *.
      exists (o :: added).
      split; [by rewrite Hfo, <- app_assoc | split; [| split; [| split; [| done]]]].
      * rewrite Hdel. by apply submseteq_skip.
      * etrans; [exact Hsplice |]. simpl. by f_equiv.
      * right. destruct Hlen' as [-> | Hlen']; [| done].
        rewrite Hfo, app_nil_r, length_app. simpl. lia.
Qed.

Lemma Forall_submseteq_filter (P : Order -> Prop) `{forall o, Decision (P o)}
    (l orders : list Order) :
  l ⊆+ filter P orders -> Forall P l.
Proof.
  intros Hsub. apply Forall_forall. intros o Ho.
  assert (o ∈ filter P orders) as Hin by (eapply elem_of_submseteq; [exact Ho | exact Hsub]).
  by apply list_elem_of_filter in Hin as [? _].
Qed.

Lemma filter_none (P : Order -> Prop) `{forall o, Decision (P o)} (l : list Order) :
  Forall (fun o => ~ P o) l -> filter P l = [].
Proof.
  induction 1 as [|o l Ho _ IH]; [done |]. rewrite filter_cons. by rewrite decide_False.
Qed.

(** X27 ([planFlight] of the first scheduler).  The flight it returns
    has at most [maxPackagesPerZip] stops; its stops are Emergency orders
    followed by Resupply orders; the array it was given is left with
    exactly the other orders; the distance is that of the round trip through
    the stops, and within the range as soon as there is a stop. *)
Theorem draft_planFlight_spec (maxPackagesPerZip : nat) (zipMaxCumulativeRangeM : R)
    (orders : list Order) :
  let '(flightOrders, totalDistance, orders') :=
    Draft.planFlight maxPackagesPerZip zipMaxCumulativeRangeM orders in
  (length flightOrders <= maxPackagesPerZip)%nat /\
  orders ≡ₚ flightOrders ++ orders' /\
  (exists emergencies resupplies,
     flightOrders = emergencies ++ resupplies /\
     Forall (fun o => priority o = Emergency) emergencies /\
     Forall (fun o => priority o = Resupply) resupplies) /\
  totalDistance = roundTrip flightOrders /\
  (flightOrders <> [] -> totalDistance <= zipMaxCumulativeRangeM).
Proof.
  unfold Draft.planFlight. cbv zeta.
  set (emergencyOrders := filter (fun order => priority order = Emergency) orders).
  set (resupplyOrders := filter (fun order => priority order = Resupply) orders).
  destruct (draft_planFlight_loop_spec maxPackagesPerZip zipMaxCumulativeRangeM
              (length emergencyOrders) emergencyOrders (Draft.mkPlan orders [] 0 Nest))
    as (es & Hfo1 & Hsub1 & Hperm1 & Hlen1 & Htd1 & Hcur1 & Hrange1);
    [apply sublist_submseteq, sublist_filter | done | done | done |].
  set (p1 := Draft.planFlight_loop (length emergencyOrders) maxPackagesPerZip
               zipMaxCumulativeRangeM emergencyOrders (Draft.mkPlan orders [] 0 Nest)) in *.
  cbn [Draft.flightOrders Draft.planOrders] in Hfo1, Hperm1. simpl in Hfo1.
  pose proof (Forall_submseteq_filter _ _ _ Hsub1) as Hes.
  assert (resupplyOrders ⊆+ Draft.planOrders p1) as Hpool.
  { unfold resupplyOrders. rewrite Hperm1, filter_app.
    rewrite (filter_none _ es).
    - apply sublist_submseteq, sublist_filter.
    - eapply Forall_impl; [exact Hes |]. simpl. intros o Ho. by rewrite Ho. }
  destruct (draft_planFlight_loop_spec maxPackagesPerZip zipMaxCumulativeRangeM
              (length resupplyOrders) resupplyOrders p1 Hpool Htd1 Hcur1 Hrange1)
    as (rs & Hfo2 & Hsub2 & Hperm2 & Hlen2 & Htd2 & Hcur2 & Hrange2).
  set (p2 := Draft.planFlight_loop (length resupplyOrders) maxPackagesPerZip
               zipMaxCumulativeRangeM resupplyOrders p1) in *.
  pose proof (Forall_submseteq_filter _ _ _ Hsub2) as Hrs.
  change (Draft.calculateDistanceBetween (Draft.currentLocation p2) Nest)
    with (calculateDistance (Draft.currentLocation p2) Nest).
  split; [| split; [| split; [| split]]].
  - destruct Hlen2 as [-> | Hlen2]; [| done].
    rewrite Hfo2, app_nil_r.
    destruct Hlen1 as [-> | Hlen1]; [rewrite Hfo1; simpl; lia | done].
  - rewrite Hperm1, Hperm2, Hfo2, Hfo1. by rewrite app_assoc.
  - exists es, rs. by rewrite Hfo2, Hfo1.
  - unfold roundTrip. by rewrite Htd2, Hcur2.
  - exact Hrange2.
Qed.
